(** * Parsec grammar subsystem: verifier, grammar and materializer

    A shallow embedding of [src/lib/cfg/grammar-parser.ts] (the
    recursive-descent verifier), of the Lark grammar template and of
    [src/lib/cfg/grammar-builder.ts] (the materializer), with the
    properties of the specification stated over them.

    Strings are [String.string]: the UTF-8 bytes of the JavaScript string.
    Every literal and every character class of the parser is ASCII, so a
    cursor that has only moved over matched text counts the same offset in
    bytes as in UTF-16 code units. *)

From Stdlib Require Import String Ascii List Bool Arith Lia Sorted ZArith.
Import ListNotations.
Open Scope list_scope.
Open Scope string_scope.

Set Warnings "-register-all".

Set Implicit Arguments.

(* ================================================================ *)
(** ** JavaScript string primitives *)
(* ================================================================ *)

Module JsString.

(** [s.slice(n)] for [0 <= n]. *)
Fixpoint slice (s : string) (n : nat) : string :=
  match n, s with
  | 0, _ => s
  | S n', String _ s' => slice s' n'
  | S _, EmptyString => EmptyString
  end.

(** [s.slice(0, n)]. *)
Fixpoint take (n : nat) (s : string) : string :=
  match n, s with
  | S n', String c s' => String c (take n' s')
  | _, _ => EmptyString
  end.

Fixpoint isPrefix (p s : string) : bool :=
  match p, s with
  | EmptyString, _ => true
  | String a p', String b s' => Ascii.eqb a b && isPrefix p' s'
  | String _ _, EmptyString => false
  end.

(** [s.startsWith(str, pos)]. *)
Definition startsWith (s str : string) (pos : nat) : bool :=
  isPrefix str (slice s pos).

Fixpoint rev_onto (s acc : string) : string :=
  match s with
  | EmptyString => acc
  | String c s' => rev_onto s' (String c acc)
  end.

Definition rev (s : string) : string := rev_onto s EmptyString.

Definition byte (n : nat) : ascii := ascii_of_nat n.

Definition isByte (n : nat) (c : ascii) : bool := Nat.eqb (nat_of_ascii c) n.

Definition inRange (lo hi : nat) (c : ascii) : bool :=
  Nat.leb lo (nat_of_ascii c) && Nat.leb (nat_of_ascii c) hi.

(** ECMAScript WhiteSpace and LineTerminator code points, by the length
    of their UTF-8 encoding.  One byte: TAB, LF, VT, FF, CR, SP. *)
Definition ws1 (c : ascii) : bool :=
  inRange 9 13 c || isByte 32 c.

(** Two bytes: U+00A0. *)
Definition ws2 (a b : ascii) : bool :=
  isByte 194 a && isByte 160 b.

(** Three bytes: U+1680, U+2000..U+200A, U+2028, U+2029, U+202F,
    U+205F, U+3000, U+FEFF. *)
Definition ws3 (a b c : ascii) : bool :=
  (isByte 225 a && isByte 154 b && isByte 128 c)
  || (isByte 226 a && isByte 128 b
      && (inRange 128 138 c || isByte 168 c || isByte 169 c || isByte 175 c))
  || (isByte 226 a && isByte 129 b && isByte 159 c)
  || (isByte 227 a && isByte 128 b && isByte 128 c)
  || (isByte 239 a && isByte 187 b && isByte 191 c).

Section Strip.
Variable w1 : ascii -> bool.
Variable w2 : ascii -> ascii -> bool.
Variable w3 : ascii -> ascii -> ascii -> bool.

Fixpoint strip (s : string) : string :=
  match s with
  | EmptyString => s
  | String c1 r1 =>
      if w1 c1 then strip r1
      else match r1 with
           | EmptyString => s
           | String c2 r2 =>
               if w2 c1 c2 then strip r2
               else match r2 with
                    | EmptyString => s
                    | String c3 r3 => if w3 c1 c2 c3 then strip r3 else s
                    end
           end
  end.
End Strip.

Definition trimStart (s : string) : string := strip ws1 ws2 ws3 s.

Definition trimEnd (s : string) : string :=
  rev (strip ws1 (fun a b => ws2 b a) (fun a b c => ws3 c b a) (rev s)).

(** [s.trim()]. *)
Definition trim (s : string) : string := trimEnd (trimStart s).

(** [l.join(sep)]. *)
Fixpoint join (sep : string) (l : list string) : string :=
  match l with
  | [] => EmptyString
  | [x] => x
  | x :: l' => x ++ sep ++ join sep l'
  end.

(** [[...l].sort((a, b) => b.length - a.length)]: a stable sort by
    descending length. *)
Fixpoint insertByLength (x : string) (l : list string) : list string :=
  match l with
  | [] => [x]
  | y :: l' =>
      if Nat.leb (String.length y) (String.length x) then x :: l
      else y :: insertByLength x l'
  end.

Definition sortByLengthDesc (l : list string) : list string :=
  fold_right insertByLength [] l.

(** The double-quote character, which the literals of this file never
    hold directly. *)
Definition dq : string := String (byte 34) EmptyString.

End JsString.

Import JsString.

(* ================================================================ *)
(** ** Derivation nodes and the parser state *)
(* ================================================================ *)

Inductive GrammarDerivationNode : Type :=
  node (rule matchedText : string) (children : list GrammarDerivationNode).

Definition rule (n : GrammarDerivationNode) : string :=
  let 'node r _ _ := n in r.
Definition matchedText (n : GrammarDerivationNode) : string :=
  let 'node _ t _ := n in t.
Definition children (n : GrammarDerivationNode) : list GrammarDerivationNode :=
  let 'node _ _ c := n in c.

(** A terminal match: [node(rule, text)] with the default [children = []]. *)
Definition leaf (r t : string) : GrammarDerivationNode := node r t [].

Record ParseState : Type := mkState { input : string; pos : nat }.

(** A parsing step: the value returned and the state left behind. *)
Definition parser (A : Type) : Type := ParseState -> A * ParseState.

Definition remaining (st : ParseState) : string := slice (input st) (pos st).

Definition isAtEnd (st : ParseState) : bool :=
  Nat.leb (String.length (input st)) (pos st).

Definition advance (n : nat) (st : ParseState) : ParseState :=
  mkState (input st) (pos st + n).

Definition matchLiteral (str : string) : parser bool := fun st =>
  if startsWith (input st) str (pos st)
  then (true, advance (String.length str) st)
  else (false, st).

Definition save (st : ParseState) : nat := pos st.

Definition restore (saved : nat) (st : ParseState) : ParseState :=
  mkState (input st) saved.

(** The regular expressions of the parser are sequences of bounded
    repetitions of a character class, with every variable-length repetition
    last in its pattern, so that the greedy left-to-right match below is
    the match [RegExp.prototype.exec] finds for the anchored pattern. *)
Record Quant : Type := quant { qclass : ascii -> bool; qmin : nat; qmax : nat }.

Definition RegExp : Type := list Quant.

(** Longest run of at most [n] characters of class [c] at the head of [s]:
    the run and the rest. *)
Fixpoint span (c : ascii -> bool) (n : nat) (s : string) : string * string :=
  match n, s with
  | S n', String a s' =>
      if c a then let '(m, r) := span c n' s' in (String a m, r)
      else (EmptyString, s)
  | _, _ => (EmptyString, s)
  end.

Fixpoint exec (re : RegExp) (s : string) : option string :=
  match re with
  | [] => Some EmptyString
  | q :: re' =>
      let '(m, r) := span (qclass q) (qmax q) s in
      if Nat.ltb (String.length m) (qmin q) then None
      else match exec re' r with
           | Some m' => Some (m ++ m')
           | None => None
           end
  end.

Definition matchRegex (pattern : RegExp) : parser (option string) := fun st =>
  match exec pattern (remaining st) with
  | Some m => (Some m, advance (String.length m) st)
  | None => (None, st)
  end.

(* ================================================================ *)
(** ** Known terminals *)
(* ================================================================ *)

Definition AGG_FUNCS : list string :=
  ["count"; "sum"; "avg"; "min"; "max"; "uniq"; "uniqExact"].

Definition DATE_TRUNC_EXPRS : list string :=
  [ "toStartOfHour(created_at)";
    "toStartOfDay(created_at)";
    "toStartOfWeek(created_at)";
    "toStartOfMonth(created_at)";
    "toDate(created_at)" ].

Definition COMPARE_OPS : list string := ["!="; ">="; "<="; "="; ">"; "<"].
Definition TIME_UNITS : list string := ["HOUR"; "DAY"; "WEEK"; "MONTH"].

Definition KNOWN_COLUMNS : list string :=
  [ "actor_login"; "repo_name"; "title"; "body"; "ref"; "id"; "number";
    "is_private"; "created_at"; "type"; "action" ].

Definition STRING_COLS : list string :=
  ["actor_login"; "repo_name"; "title"; "body"; "ref"].
Definition NUMERIC_COLS : list string := ["id"; "number"; "is_private"].

(** Character classes of the regex terminals. *)
Definition isDigit (c : ascii) : bool := inRange 48 57 c.
Definition isLower (c : ascii) : bool := inRange 97 122 c.
Definition isUpper (c : ascii) : bool := inRange 65 90 c.
Definition isChar (x c : ascii) : bool := Ascii.eqb x c.

(** [[a-z_]] *)
Definition aliasHead (c : ascii) : bool := isLower c || isChar "_" c.
(** [[a-z0-9_]] *)
Definition aliasTail (c : ascii) : bool :=
  isLower c || isDigit c || isChar "_" c.
(** [[a-zA-Z0-9_.\-/]] *)
Definition valueChar (c : ascii) : bool :=
  isLower c || isUpper c || isDigit c
  || isChar "_" c || isChar "." c || isChar "-" c || isChar "/" c.

(** [/[0-9]{1,6}/] *)
Definition reNumber : RegExp := [quant isDigit 1 6].
(** [/[a-z_][a-z0-9_]{0,29}/] *)
Definition reAlias : RegExp := [quant aliasHead 1 1; quant aliasTail 0 29].
(** [/[a-zA-Z0-9_.\-/]{1,100}/] *)
Definition reStringValue : RegExp := [quant valueChar 1 100].
(** [/[0-9]{4}-[0-9]{2}-[0-9]{2}/] *)
Definition reDateLiteral : RegExp :=
  [ quant isDigit 4 4; quant (isChar "-") 1 1; quant isDigit 2 2;
    quant (isChar "-") 1 1; quant isDigit 2 2 ].

(* ================================================================ *)
(** ** Recursive descent parser functions *)
(* ================================================================ *)

(** [for (const c of cands) if (state.matchLiteral(c)) return c], the loop
    shared by the terminal parsers over a fixed list of literals;
    [None] when the loop falls through. *)
Fixpoint matchFirst (cands : list string) : parser (option string) := fun st =>
  match cands with
  | [] => (None, st)
  | c :: cands' =>
      let '(ok, st) := matchLiteral c st in
      if ok then (Some c, st) else matchFirst cands' st
  end.

(** [const matched = state.matchRegex(re); if (matched) return
    node(r, matched); return null;], the body of the four regex terminals.
    The test is on the truthiness of [matched]: an empty match counts as
    no match. *)
Definition regexTerminal (r : string) (re : RegExp)
  : parser (option GrammarDerivationNode) := fun st =>
  let '(matched, st) := matchRegex re st in
  match matched with
  | Some (String c m) => (Some (leaf r (String c m)), st)
  | Some EmptyString => (None, st)
  | None => (None, st)
  end.

Definition parseNumber := regexTerminal "number" reNumber.
Definition parseAlias := regexTerminal "alias" reAlias.
Definition parseStringValue := regexTerminal "string_value" reStringValue.
Definition parseDateLiteral := regexTerminal "date_literal" reDateLiteral.

Definition parseColumnRef : parser (option GrammarDerivationNode) := fun st =>
  let saved := save st in
  let sorted := sortByLengthDesc KNOWN_COLUMNS in
  let '(col, st) := matchFirst sorted st in
  match col with
  | Some col => (Some (leaf "column_ref" col), st)
  | None => (None, restore saved st)
  end.

Definition parseAggFunc : parser (option GrammarDerivationNode) := fun st =>
  let sorted := sortByLengthDesc AGG_FUNCS in
  let '(func, st) := matchFirst sorted st in
  match func with
  | Some func => (Some (leaf "agg_func" func), st)
  | None => (None, st)
  end.

Definition parseAggExpr : parser (option GrammarDerivationNode) := fun st =>
  let saved := save st in
  let '(func, st) := parseAggFunc st in
  match func with
  | None => (None, st)
  | Some func =>
      let '(ok, st) := matchLiteral "(" st in
      if negb ok then (None, restore saved st)
      else
        let '(colRef, st) := parseColumnRef st in
        let '(ok, st) := matchLiteral ")" st in
        if negb ok then (None, restore saved st)
        else
          match colRef with
          | Some colRef =>
              (Some (node "agg_expr"
                       (matchedText func ++ "(" ++ matchedText colRef ++ ")")
                       [func; colRef]), st)
          | None =>
              (Some (node "agg_expr" (matchedText func ++ "()") [func]), st)
          end
  end.

Definition parseDateTruncExpr : parser (option GrammarDerivationNode) := fun st =>
  let sorted := sortByLengthDesc DATE_TRUNC_EXPRS in
  let '(expr, st) := matchFirst sorted st in
  match expr with
  | Some expr => (Some (leaf "date_trunc_expr" expr), st)
  | None => (None, st)
  end.

(** [expr " AS " alias], one of the first two alternatives of
    [parseSelectItem], where [expr] has already been attempted. *)
Definition aliased (expr : option GrammarDerivationNode)
  : parser (option GrammarDerivationNode) := fun st =>
  match expr with
  | None => (None, st)
  | Some e =>
      let '(ok, st) := matchLiteral " AS " st in
      if ok then
        let '(alias, st) := parseAlias st in
        match alias with
        | Some alias =>
            (Some (node "select_item"
                     (matchedText e ++ " AS " ++ matchedText alias)
                     [e; alias]), st)
        | None => (None, st)
        end
      else (None, st)
  end.

Definition parseSelectItem : parser (option GrammarDerivationNode) := fun st =>
  let saved := save st in
  let '(aggExpr, st) := parseAggExpr st in
  let '(item, st) := aliased aggExpr st in
  match item with
  | Some item => (Some item, st)
  | None =>
      let st := restore saved st in
      let '(dtExpr, st) := parseDateTruncExpr st in
      let '(item, st) := aliased dtExpr st in
      match item with
      | Some item => (Some item, st)
      | None =>
          let st := restore saved st in
          let '(colRef, st) := parseColumnRef st in
          match colRef with
          | Some colRef =>
              (Some (node "select_item" (matchedText colRef) [colRef]), st)
          | None => (None, st)
          end
      end
  end.

(** [while (state.matchLiteral(sep)) { const next = item(state);
    if (!next) break; items.push(next); }].  The separator is consumed
    before the item is tried and stays consumed when the item fails.
    [fuel] bounds the number of iterations. *)
Fixpoint sepLoop (fuel : nat) (sep : string)
    (item : parser (option GrammarDerivationNode))
    (items : list GrammarDerivationNode)
  : parser (list GrammarDerivationNode) := fun st =>
  match fuel with
  | 0 => (items, st)
  | S fuel' =>
      let '(ok, st) := matchLiteral sep st in
      if ok then
        let '(next, st) := item st in
        match next with
        | None => (items, st)
        | Some next => sepLoop fuel' sep item (items ++ [next])%list st
        end
      else (items, st)
  end.

(** Enough iterations for any loop over the input of [st]: every
    iteration consumes its separator. *)
Definition loopFuel (st : ParseState) : nat := S (String.length (input st)).

(** A clause of the shape [keyword item (sep item)*]. *)
Definition listClause (r keyword head sep : string)
    (item : parser (option GrammarDerivationNode))
  : parser (option GrammarDerivationNode) := fun st =>
  let saved := save st in
  let '(ok, st) := matchLiteral keyword st in
  if negb ok then (None, restore saved st)
  else
    let '(first, st) := item st in
    match first with
    | None => (None, restore saved st)
    | Some first =>
        let '(items, st) := sepLoop (loopFuel st) sep item [first] st in
        (Some (node r (head ++ join sep (map matchedText items)) items), st)
    end.

Definition parseSelectClause : parser (option GrammarDerivationNode) :=
  listClause "select_clause" "SELECT " "SELECT " ", " parseSelectItem.

Definition parseFromClause : parser (option GrammarDerivationNode) := fun st =>
  let '(ok, st) := matchLiteral " FROM github_events" st in
  if ok then (Some (leaf "from_clause" "FROM github_events"), st)
  else (None, st).

Definition parseCompareOp : parser (option GrammarDerivationNode) := fun st =>
  let '(op, st) := matchFirst COMPARE_OPS st in
  match op with
  | Some op => (Some (leaf "compare_op" op), st)
  | None => (None, st)
  end.

(** The tail of a quoted value list, after its first value:
    [while (state.matchLiteral(", '")) { const next = parseStringValue(state);
    if (next && state.matchLiteral("'")) values.push(next); else break; }]. *)
Fixpoint valueLoop (fuel : nat) (values : list GrammarDerivationNode)
  : parser (list GrammarDerivationNode) := fun st =>
  match fuel with
  | 0 => (values, st)
  | S fuel' =>
      let '(ok, st) := matchLiteral ", '" st in
      if ok then
        let '(next, st) := parseStringValue st in
        match next with
        | None => (values, st)
        | Some next =>
            let '(ok, st) := matchLiteral "'" st in
            if ok then valueLoop fuel' (values ++ [next])%list st
            else (values, st)
        end
      else (values, st)
  end.

(** The values of an [IN (] list, the block both [parseStringCondition]
    and [parseEnumCondition] run between the opening and the closing
    parenthesis. *)
Definition parseValues : parser (list GrammarDerivationNode) := fun st =>
  let '(ok, st) := matchLiteral "'" st in
  if ok then
    let '(v, st) := parseStringValue st in
    match v with
    | None => ([], st)
    | Some v =>
        let '(ok, st) := matchLiteral "'" st in
        if ok then valueLoop (loopFuel st) [v] st else ([], st)
    end
  else ([], st).

Definition quoted (v : GrammarDerivationNode) : string :=
  "'" ++ matchedText v ++ "'".

(** [col = 'value'], also the first and third alternatives of
    [parseEnumCondition]. *)
Definition parseEquals (r col : string) (kids : list GrammarDerivationNode)
  : parser (option GrammarDerivationNode) := fun st =>
  let '(ok, st) := matchLiteral (col ++ " = '") st in
  if ok then
    let '(val, st) := parseStringValue st in
    match val with
    | None => (None, st)
    | Some val =>
        let '(ok, st) := matchLiteral "'" st in
        if ok then
          (Some (node r (col ++ " = '" ++ matchedText val ++ "'")
                   (kids ++ [val])%list), st)
        else (None, st)
    end
  else (None, st).

(** [col LIKE '%value%']. *)
Definition parseLike (r col : string) (kids : list GrammarDerivationNode)
  : parser (option GrammarDerivationNode) := fun st =>
  let '(ok, st) := matchLiteral (col ++ " LIKE '%") st in
  if ok then
    let '(val, st) := parseStringValue st in
    match val with
    | None => (None, st)
    | Some val =>
        let '(ok, st) := matchLiteral "%'" st in
        if ok then
          (Some (node r (col ++ " LIKE '%" ++ matchedText val ++ "%'")
                   (kids ++ [val])%list), st)
        else (None, st)
    end
  else (None, st).

(** [col IN ('val1', 'val2', ...)]. *)
Definition parseIn (r col : string) (kids : list GrammarDerivationNode)
  : parser (option GrammarDerivationNode) := fun st =>
  let '(ok, st) := matchLiteral (col ++ " IN (") st in
  if ok then
    let '(values, st) := parseValues st in
    let '(ok, st) := matchLiteral ")" st in
    if ok && (0 <? List.length values)%nat then
      let valStr := join ", " (map quoted values) in
      (Some (node r (col ++ " IN (" ++ valStr ++ ")") (kids ++ values)%list), st)
    else (None, st)
  else (None, st).

(** [first ?? (restore; next)]: run [first]; when it did not return a
    node, restore the cursor and go on with [next]. *)
Definition orRestore (saved : nat)
    (first next : parser (option GrammarDerivationNode))
  : parser (option GrammarDerivationNode) := fun st =>
  let '(r, st) := first st in
  match r with
  | Some n => (Some n, st)
  | None => next (restore saved st)
  end.

(** The body of the loop of [parseStringCondition] over the sorted
    string columns. *)
Fixpoint stringConditionLoop (saved : nat) (cols : list string)
  : parser (option GrammarDerivationNode) := fun st =>
  match cols with
  | [] => (None, st)
  | col :: cols' =>
      let st := restore saved st in
      let kids := [leaf "string_col" col] in
      orRestore saved (parseEquals "string_condition" col kids)
        (orRestore saved (parseLike "string_condition" col kids)
           (orRestore saved (parseIn "string_condition" col kids)
              (stringConditionLoop saved cols'))) st
  end.

Definition parseStringCondition : parser (option GrammarDerivationNode) :=
  fun st =>
  let saved := save st in
  let sorted := sortByLengthDesc STRING_COLS in
  stringConditionLoop saved sorted st.

(** The body of the loop of [parseNumericCondition]. *)
Fixpoint numericConditionLoop (saved : nat) (cols : list string)
  : parser (option GrammarDerivationNode) := fun st =>
  match cols with
  | [] => (None, st)
  | col :: cols' =>
      let st := restore saved st in
      let '(ok, st) := matchLiteral (col ++ " ") st in
      if ok then
        let '(op, st) := parseCompareOp st in
        match op with
        | None => numericConditionLoop saved cols' st
        | Some op =>
            let '(ok, st) := matchLiteral " " st in
            if ok then
              let '(num, st) := parseNumber st in
              match num with
              | Some num =>
                  (Some (node "numeric_condition"
                           (col ++ " " ++ matchedText op ++ " " ++ matchedText num)
                           [leaf "numeric_col" col; op; num]), st)
              | None => numericConditionLoop saved cols' st
              end
            else numericConditionLoop saved cols' st
        end
      else numericConditionLoop saved cols' st
  end.

Definition parseNumericCondition : parser (option GrammarDerivationNode) :=
  fun st =>
  let saved := save st in
  let sorted := sortByLengthDesc NUMERIC_COLS in
  let '(r, st) := numericConditionLoop saved sorted st in
  match r with
  | Some n => (Some n, st)
  | None => (None, restore saved st)
  end.

(** [created_at >= now() - INTERVAL N UNIT]. *)
Definition parseInterval : parser (option GrammarDerivationNode) := fun st =>
  let '(ok, st) := matchLiteral "created_at >= now() - INTERVAL " st in
  if ok then
    let '(num, st) := parseNumber st in
    match num with
    | None => (None, st)
    | Some num =>
        let '(ok, st) := matchLiteral " " st in
        if ok then
          let '(unit, st) := matchFirst TIME_UNITS st in
          match unit with
          | Some unit =>
              (Some (node "datetime_condition"
                       ("created_at >= now() - INTERVAL "
                        ++ matchedText num ++ " " ++ unit)
                       [num; leaf "time_unit" unit]), st)
          | None => (None, st)
          end
        else (None, st)
    end
  else (None, st).

(** [created_at BETWEEN 'date' AND 'date']. *)
Definition parseBetween : parser (option GrammarDerivationNode) := fun st =>
  let '(ok, st) := matchLiteral "created_at BETWEEN '" st in
  if ok then
    let '(d1, st) := parseDateLiteral st in
    match d1 with
    | None => (None, st)
    | Some d1 =>
        let '(ok, st) := matchLiteral "' AND '" st in
        if ok then
          let '(d2, st) := parseDateLiteral st in
          match d2 with
          | None => (None, st)
          | Some d2 =>
              let '(ok, st) := matchLiteral "'" st in
              if ok then
                (Some (node "datetime_condition"
                         ("created_at BETWEEN '" ++ matchedText d1
                          ++ "' AND '" ++ matchedText d2 ++ "'")
                         [d1; d2]), st)
              else (None, st)
          end
        else (None, st)
    end
  else (None, st).

(** No alternative is left: [return null]. *)
Definition reject : parser (option GrammarDerivationNode) :=
  fun st => (None, st).

Definition parseDatetimeCondition : parser (option GrammarDerivationNode) :=
  fun st =>
  let saved := save st in
  orRestore saved parseInterval (orRestore saved parseBetween reject) st.

Definition parseEnumCondition : parser (option GrammarDerivationNode) :=
  fun st =>
  let saved := save st in
  orRestore saved (parseEquals "enum_condition" "type" [])
    (orRestore saved (parseIn "enum_condition" "type" [])
       (orRestore saved (parseEquals "enum_condition" "action" []) reject)) st.

(** [a ?? b ?? c ?? d]. *)
Definition orElse (a b : parser (option GrammarDerivationNode))
  : parser (option GrammarDerivationNode) := fun st =>
  let '(r, st) := a st in
  match r with
  | Some n => (Some n, st)
  | None => b st
  end.

Definition parseCondition : parser (option GrammarDerivationNode) :=
  orElse parseDatetimeCondition
    (orElse parseEnumCondition
       (orElse parseStringCondition parseNumericCondition)).

Definition parseWhereClause : parser (option GrammarDerivationNode) :=
  listClause "where_clause" " WHERE " "WHERE " " AND " parseCondition.

Definition parseGroupItem : parser (option GrammarDerivationNode) := fun st =>
  let '(dtExpr, st) := parseDateTruncExpr st in
  match dtExpr with
  | Some dtExpr => (Some (node "group_item" (matchedText dtExpr) [dtExpr]), st)
  | None =>
      let '(colRef, st) := parseColumnRef st in
      match colRef with
      | Some colRef =>
          (Some (node "group_item" (matchedText colRef) [colRef]), st)
      | None =>
          let '(alias, st) := parseAlias st in
          match alias with
          | Some alias =>
              (Some (node "group_item" (matchedText alias) [alias]), st)
          | None => (None, st)
          end
      end
  end.

Definition parseGroupClause : parser (option GrammarDerivationNode) :=
  listClause "group_clause" " GROUP BY " "GROUP BY " ", " parseGroupItem.

Definition parseHavingClause : parser (option GrammarDerivationNode) :=
  fun st =>
  let saved := save st in
  let '(ok, st) := matchLiteral " HAVING " st in
  if negb ok then (None, restore saved st)
  else
    let '(aggExpr, st) := parseAggExpr st in
    match aggExpr with
    | None => (None, restore saved st)
    | Some aggExpr =>
        let '(ok, st) := matchLiteral " " st in
        if negb ok then (None, restore saved st)
        else
          let '(op, st) := parseCompareOp st in
          match op with
          | None => (None, restore saved st)
          | Some op =>
              let '(ok, st) := matchLiteral " " st in
              if negb ok then (None, restore saved st)
              else
                let '(num, st) := parseNumber st in
                match num with
                | None => (None, restore saved st)
                | Some num =>
                    (Some (node "having_clause"
                             ("HAVING " ++ matchedText aggExpr ++ " "
                              ++ matchedText op ++ " " ++ matchedText num)
                             [aggExpr; op; num]), st)
                end
          end
    end.

(** The base of an order item: [agg_expr], else [column_ref], else
    [alias]. *)
Definition parseOrderBase : parser (option GrammarDerivationNode) :=
  orElse parseAggExpr (orElse parseColumnRef parseAlias).

Definition parseOrderItem : parser (option GrammarDerivationNode) := fun st =>
  let saved := save st in
  let '(baseNode, st) := parseOrderBase st in
  match baseNode with
  | None => (None, restore saved st)
  | Some baseNode =>
      let text := matchedText baseNode in
      let '(ok, st) := matchLiteral " DESC" st in
      if ok then
        (Some (node "order_item" (text ++ " DESC")
                 [baseNode; leaf "direction" "DESC"]), st)
      else
        let '(ok, st) := matchLiteral " ASC" st in
        if ok then
          (Some (node "order_item" (text ++ " ASC")
                   [baseNode; leaf "direction" "ASC"]), st)
        else (Some (node "order_item" text [baseNode]), st)
  end.

Definition parseOrderClause : parser (option GrammarDerivationNode) :=
  listClause "order_clause" " ORDER BY " "ORDER BY " ", " parseOrderItem.

Definition parseLimitClause : parser (option GrammarDerivationNode) :=
  fun st =>
  let saved := save st in
  let '(ok, st) := matchLiteral " LIMIT " st in
  if negb ok then (None, restore saved st)
  else
    let '(num, st) := parseNumber st in
    match num with
    | None => (None, restore saved st)
    | Some num =>
        (Some (node "limit_clause" ("LIMIT " ++ matchedText num) [num]), st)
    end.

(* ================================================================ *)
(** ** Top-level parse function *)
(* ================================================================ *)

(** [const c = clause(state); if (c) children.push(c);] *)
Definition optionalClause (clause : parser (option GrammarDerivationNode))
    (kids : list GrammarDerivationNode)
  : parser (list GrammarDerivationNode) := fun st =>
  let '(c, st) := clause st in
  match c with
  | Some c => ((kids ++ [c])%list, st)
  | None => (kids, st)
  end.

(** The body of [parseQuery] over its private state: the node returned
    and the state at the return. *)
Definition parseQueryFrom (sql : string)
  : parser (option GrammarDerivationNode) := fun st =>
  let '(selectClause, st) := parseSelectClause st in
  match selectClause with
  | None => (None, st)
  | Some selectClause =>
      let kids := [selectClause] in
      let '(fromClause, st) := parseFromClause st in
      match fromClause with
      | None => (None, st)
      | Some fromClause =>
          let kids := (kids ++ [fromClause])%list in
          let '(kids, st) := optionalClause parseWhereClause kids st in
          let '(kids, st) := optionalClause parseGroupClause kids st in
          let '(kids, st) := optionalClause parseHavingClause kids st in
          let '(kids, st) := optionalClause parseOrderClause kids st in
          let '(kids, st) := optionalClause parseLimitClause kids st in
          if negb (isAtEnd st)
          then (Some (node "query (partial)" sql kids), st)
          else (Some (node "query" sql kids), st)
      end
  end.

Definition newState (s : string) : ParseState := mkState s 0.

Definition parseQueryRun (sql : string)
  : option GrammarDerivationNode * ParseState :=
  parseQueryFrom sql (newState (trim sql)).

Definition parseQuery (sql : string) : option GrammarDerivationNode :=
  fst (parseQueryRun sql).

Definition isValidGrammarSQL (sql : string) : bool :=
  match parseQuery sql with
  | Some result => String.eqb (rule result) "query"
  | None => false
  end.

(* ================================================================ *)
(** ** The language of the Lark grammar *)
(* ================================================================ *)

(** No rule of the template refers to itself, so the grammar is written
    here as an expression over its terminals, one definition per rule,
    and a string is derivable from a rule when it belongs to the language
    of the rule's expression. *)
Module Lark.

Inductive rx : Type :=
| Void
| Eps
| Chr (c : ascii -> bool)
| Seq (a b : rx)
| Alt (a b : rx)
| Star (a : rx).

Inductive derives : rx -> string -> Prop :=
| d_eps : derives Eps EmptyString
| d_chr c a : c a = true -> derives (Chr c) (String a EmptyString)
| d_seq a b s1 s2 :
    derives a s1 -> derives b s2 -> derives (Seq a b) (s1 ++ s2)
| d_alt_l a b s : derives a s -> derives (Alt a b) s
| d_alt_r a b s : derives b s -> derives (Alt a b) s
| d_star_nil a : derives (Star a) EmptyString
| d_star_cons a s1 s2 :
    derives a s1 -> derives (Star a) s2 -> derives (Star a) (s1 ++ s2).

(** A double-quoted literal. *)
Fixpoint Lit (s : string) : rx :=
  match s with
  | EmptyString => Eps
  | String c s' => Seq (Chr (Ascii.eqb c)) (Lit s')
  end.

(** [a?] *)
Definition Opt (a : rx) : rx := Alt Eps a.

(** [a{0,n}] *)
Fixpoint upTo (n : nat) (a : rx) : rx :=
  match n with
  | 0 => Eps
  | S n' => Opt (Seq a (upTo n' a))
  end.

(** [a{n}] *)
Fixpoint exactly (n : nat) (a : rx) : rx :=
  match n with
  | 0 => Eps
  | S n' => Seq a (exactly n' a)
  end.

(** [a{lo,hi}] *)
Definition between (lo hi : nat) (a : rx) : rx :=
  Seq (exactly lo a) (upTo (hi - lo) a).

(** ["x" | "y" | ...] *)
Fixpoint oneOf (l : list string) : rx :=
  match l with
  | [] => Void
  | [x] => Lit x
  | x :: l' => Alt (Lit x) (oneOf l')
  end.

(** [A B C ...] *)
Fixpoint seq (l : list rx) : rx :=
  match l with
  | [] => Eps
  | [a] => a
  | a :: l' => Seq a (seq l')
  end.

(** *** A decision procedure, by derivatives *)

Fixpoint nullable (r : rx) : bool :=
  match r with
  | Void => false
  | Eps => true
  | Chr _ => false
  | Seq a b => nullable a && nullable b
  | Alt a b => nullable a || nullable b
  | Star _ => true
  end.

Definition mkSeq (a b : rx) : rx :=
  match a, b with
  | Void, _ => Void
  | _, Void => Void
  | Eps, _ => b
  | _, _ => Seq a b
  end.

Definition mkAlt (a b : rx) : rx :=
  match a, b with
  | Void, _ => b
  | _, Void => a
  | _, _ => Alt a b
  end.

Fixpoint deriv (x : ascii) (r : rx) : rx :=
  match r with
  | Void => Void
  | Eps => Void
  | Chr c => if c x then Eps else Void
  | Seq a b =>
      mkAlt (mkSeq (deriv x a) b) (if nullable a then deriv x b else Void)
  | Alt a b => mkAlt (deriv x a) (deriv x b)
  | Star a => mkSeq (deriv x a) (Star a)
  end.

Fixpoint matches (r : rx) (s : string) : bool :=
  match s with
  | EmptyString => nullable r
  | String x s' => matches (deriv x r) s'
  end.

(** *** The rules of the template *)

(** The six schema-dependent parts of the grammar: what replaces each
    placeholder, as the list of alternatives before it is rendered. *)
Record Injected : Type := mkInjected {
  inj_table_name : string;
  inj_string_cols : list string;
  inj_numeric_cols : list string;
  inj_column_ref : list string;
  inj_event_types : list string;
  inj_action_values : list string
}.

Section Rules.
Variable g : Injected.

(** Terminals. *)
Definition ALIAS : rx := Seq (Chr aliasHead) (upTo 29 (Chr aliasTail)).
Definition STRING_VALUE : rx := between 1 100 (Chr valueChar).
Definition DATE_LITERAL : rx :=
  seq [ exactly 4 (Chr isDigit); Lit "-"; exactly 2 (Chr isDigit);
        Lit "-"; exactly 2 (Chr isDigit) ].
Definition NUMBER : rx := between 1 6 (Chr isDigit).

(** Schema-derived rules. *)
Definition string_col : rx := oneOf (inj_string_cols g).
Definition numeric_col : rx := oneOf (inj_numeric_cols g).
Definition column_ref : rx := oneOf (inj_column_ref g).
Definition event_type : rx := oneOf (inj_event_types g).
Definition action_value : rx := oneOf (inj_action_values g).

Definition event_type_list : rx :=
  seq [ Lit "'"; event_type; Lit "'";
        Star (seq [Lit ", '"; event_type; Lit "'"]) ].
Definition string_list : rx :=
  seq [ Lit "'"; STRING_VALUE; Lit "'";
        Star (seq [Lit ", '"; STRING_VALUE; Lit "'"]) ].

(** Operators. *)
Definition compare_op : rx := oneOf ["!="; ">="; "<="; "="; ">"; "<"].
Definition time_unit : rx := oneOf ["HOUR"; "DAY"; "WEEK"; "MONTH"].

(** Aggregation and date truncation. *)
Definition agg_func : rx :=
  oneOf ["count"; "sum"; "avg"; "min"; "max"; "uniq"; "uniqExact"].
Definition agg_expr : rx :=
  seq [agg_func; Lit "("; Opt column_ref; Lit ")"].
Definition date_trunc_expr : rx :=
  oneOf [ "toStartOfHour(created_at)"; "toStartOfDay(created_at)";
          "toStartOfWeek(created_at)"; "toStartOfMonth(created_at)";
          "toDate(created_at)" ].

(** SELECT. *)
Definition select_item : rx :=
  Alt (seq [agg_expr; Lit " AS "; ALIAS])
    (Alt (seq [date_trunc_expr; Lit " AS "; ALIAS])
       column_ref).
Definition select_list : rx :=
  Seq select_item (Star (Seq (Lit ", ") select_item)).
Definition select_clause : rx := Seq (Lit "SELECT ") select_list.

(** FROM. *)
Definition from_clause : rx := Lit (" FROM " ++ inj_table_name g).

(** WHERE. *)
Definition string_condition : rx :=
  Alt (seq [string_col; Lit " = '"; STRING_VALUE; Lit "'"])
    (Alt (seq [string_col; Lit " LIKE '%"; STRING_VALUE; Lit "%'"])
       (seq [string_col; Lit " IN ("; string_list; Lit ")"])).
Definition numeric_condition : rx :=
  seq [numeric_col; Lit " "; compare_op; Lit " "; NUMBER].
Definition datetime_condition : rx :=
  Alt (seq [Lit "created_at >= now() - INTERVAL "; NUMBER; Lit " "; time_unit])
    (seq [ Lit "created_at BETWEEN '"; DATE_LITERAL; Lit "' AND '";
           DATE_LITERAL; Lit "'" ]).
Definition enum_condition : rx :=
  Alt (seq [Lit "type = '"; event_type; Lit "'"])
    (Alt (seq [Lit "type IN ("; event_type_list; Lit ")"])
       (seq [Lit "action = '"; action_value; Lit "'"])).
Definition condition : rx :=
  Alt string_condition
    (Alt numeric_condition (Alt datetime_condition enum_condition)).
Definition where_clause : rx :=
  seq [Lit " WHERE "; condition; Star (Seq (Lit " AND ") condition)].

(** GROUP BY. *)
Definition group_item : rx := Alt column_ref date_trunc_expr.
Definition group_list : rx :=
  Seq group_item (Star (Seq (Lit ", ") group_item)).
Definition group_clause : rx := Seq (Lit " GROUP BY ") group_list.

(** HAVING. *)
Definition having_clause : rx :=
  seq [Lit " HAVING "; agg_expr; Lit " "; compare_op; Lit " "; NUMBER].

(** ORDER BY. *)
Definition order_dir : rx := Alt (Lit " ASC") (Lit " DESC").
Definition order_expr : rx := Alt column_ref (Alt ALIAS agg_expr).
Definition order_item : rx := Seq order_expr (Opt order_dir).
Definition order_list : rx :=
  Seq order_item (Star (Seq (Lit ", ") order_item)).
Definition order_clause : rx := Seq (Lit " ORDER BY ") order_list.

(** LIMIT. *)
Definition limit_clause : rx := Seq (Lit " LIMIT ") NUMBER.

Definition start : rx :=
  seq [ select_clause; from_clause; Opt where_clause; Opt group_clause;
        Opt having_clause; Opt order_clause; Opt limit_clause ].
End Rules.

(** [s] is derivable from the start rule of the grammar materialized
    with [g]. *)
Definition derivable (g : Injected) (s : string) : Prop :=
  derives (start g) s.

End Lark.

(* ================================================================ *)
(** ** Schema registry: constants and type classification *)
(* ================================================================ *)

Record ColumnInfo : Type := mkColumn {
  name : string;
  type : string;
  enumValues : option (list string)
}.

Record TableSchema : Type := mkSchema {
  tableName : string;
  columns : list ColumnInfo
}.

Definition KNOWN_EVENT_TYPES : list string :=
  [ "CommitCommentEvent"; "CreateEvent"; "DeleteEvent"; "ForkEvent";
    "GollumEvent"; "IssueCommentEvent"; "IssuesEvent"; "MemberEvent";
    "PublicEvent"; "PullRequestEvent"; "PullRequestReviewCommentEvent";
    "PullRequestReviewEvent"; "PushEvent"; "ReleaseEvent";
    "SponsorshipEvent"; "WatchEvent" ].

Definition KNOWN_ACTION_VALUES : list string :=
  [ "opened"; "closed"; "reopened"; "created"; "edited"; "deleted";
    "added"; "removed"; "published" ].

Definition STATIC_SCHEMA : TableSchema :=
  mkSchema "github_events"
    [ mkColumn "id" "UInt64" None;
      mkColumn "type" "Enum8" (Some KNOWN_EVENT_TYPES);
      mkColumn "actor_login" "LowCardinality(String)" None;
      mkColumn "repo_name" "LowCardinality(String)" None;
      mkColumn "created_at" "DateTime" None;
      mkColumn "action" "LowCardinality(String)" None;
      mkColumn "number" "UInt32" None;
      mkColumn "title" "String" None;
      mkColumn "body" "String" None;
      mkColumn "ref" "LowCardinality(String)" None;
      mkColumn "is_private" "UInt8" None ].

Definition isStringType (t : string) : bool :=
  String.eqb t "String"
  || startsWith t "LowCardinality(String" 0
  || startsWith t "Nullable(String" 0.

Definition isNumericType (t : string) : bool :=
  startsWith t "UInt" 0 || startsWith t "Int" 0
  || startsWith t "Float" 0 || startsWith t "Decimal" 0.

Definition isDateTimeType (t : string) : bool :=
  String.eqb t "DateTime" || String.eqb t "Date"
  || startsWith t "DateTime64" 0.

(* ================================================================ *)
(** ** Grammar template *)
(* ================================================================ *)

(** The text of the template literal, with a backquote standing for each
    double quote of the source. *)
Definition TEMPLATE_TEXT : string :=
"
// Parsec ClickHouse SQL Grammar (Lark)
// Generates read-only SELECT queries against a single table.

start: select_clause from_clause where_clause? group_clause? having_clause? order_clause? limit_clause?

// ── SELECT ──────────────────────────────────────────────────

select_clause: `SELECT ` select_list
select_list: select_item (`, ` select_item)*
select_item: agg_expr ` AS ` ALIAS
           | date_trunc_expr ` AS ` ALIAS
           | column_ref

// ── Aggregation ─────────────────────────────────────────────

agg_expr: agg_func `(` column_ref? `)`
agg_func: `count` | `sum` | `avg` | `min` | `max` | `uniq` | `uniqExact`

// ── Date truncation ─────────────────────────────────────────

date_trunc_expr: `toStartOfHour(created_at)`
               | `toStartOfDay(created_at)`
               | `toStartOfWeek(created_at)`
               | `toStartOfMonth(created_at)`
               | `toDate(created_at)`

// ── FROM ────────────────────────────────────────────────────

from_clause: ` FROM {{TABLE_NAME}}`

// ── WHERE ───────────────────────────────────────────────────

where_clause: ` WHERE ` condition (` AND ` condition)*
condition: string_condition | numeric_condition | datetime_condition | enum_condition

string_condition: string_col ` = '` STRING_VALUE `'`
                | string_col ` LIKE '%` STRING_VALUE `%'`
                | string_col ` IN (` string_list `)`

numeric_condition: numeric_col ` ` compare_op ` ` NUMBER

datetime_condition: `created_at >= now() - INTERVAL ` NUMBER ` ` time_unit
                  | `created_at BETWEEN '` DATE_LITERAL `' AND '` DATE_LITERAL `'`

enum_condition: `type = '` event_type `'`
              | `type IN (` event_type_list `)`
              | `action = '` action_value `'`

// ── GROUP BY ────────────────────────────────────────────────

group_clause: ` GROUP BY ` group_list
group_list: group_item (`, ` group_item)*
group_item: column_ref | date_trunc_expr

// ── HAVING ──────────────────────────────────────────────────

having_clause: ` HAVING ` agg_expr ` ` compare_op ` ` NUMBER

// ── ORDER BY ────────────────────────────────────────────────

order_clause: ` ORDER BY ` order_list
order_list: order_item (`, ` order_item)*
order_item: order_expr order_dir?
order_expr: column_ref | ALIAS | agg_expr
order_dir: ` ASC` | ` DESC`

// ── LIMIT ───────────────────────────────────────────────────

limit_clause: ` LIMIT ` NUMBER

// ── Operators ───────────────────────────────────────────────

compare_op: `!=` | `>=` | `<=` | `=` | `>` | `<`
time_unit: `HOUR` | `DAY` | `WEEK` | `MONTH`

// ── Schema-derived rules (injected by grammar builder) ──────

string_col: {{STRING_COLS}}
numeric_col: {{NUMERIC_COLS}}
column_ref: {{COLUMN_REF}}

event_type: {{EVENT_TYPES}}
action_value: {{ACTION_VALUES}}

event_type_list: `'` event_type `'` (`, '` event_type `'`)*
string_list: `'` STRING_VALUE `'` (`, '` STRING_VALUE `'`)*

// ── Terminals (regex, matched by lexer) ─────────────────────

ALIAS: /[a-z_][a-z0-9_]{0,29}/
STRING_VALUE: /[a-zA-Z0-9_.\-\/]{1,100}/
DATE_LITERAL: /[0-9]{4}-[0-9]{2}-[0-9]{2}/
NUMBER: /[0-9]{1,6}/
".

Fixpoint unquote (s : string) : string :=
  match s with
  | EmptyString => EmptyString
  | String c s' => String (if isChar "`" c then byte 34 else c) (unquote s')
  end.

Definition GRAMMAR_TEMPLATE : string := trim (unquote TEMPLATE_TEXT).

Definition TEMPLATE_PLACEHOLDERS : list string :=
  [ "{{TABLE_NAME}}"; "{{STRING_COLS}}"; "{{NUMERIC_COLS}}";
    "{{COLUMN_REF}}"; "{{EVENT_TYPES}}"; "{{ACTION_VALUES}}" ].

(* ================================================================ *)
(** ** Grammar builder *)
(* ================================================================ *)

(** [s.indexOf(pat)]: the offset of the first occurrence. *)
Fixpoint indexOf (pat s : string) : option nat :=
  if isPrefix pat s then Some 0
  else match s with
       | EmptyString => None
       | String _ s' => option_map S (indexOf pat s')
       end.

(** [s.includes(pat)]. *)
Definition includes (s pat : string) : bool :=
  match indexOf pat s with Some _ => true | None => false end.

(** GetSubstitution for a string pattern (no captures): in the
    replacement text [$$] is a dollar, [$&] the matched text, [$`] the text
    before the match and [$'] the text after it; any other dollar stands
    for itself. *)
Fixpoint getSubstitution (matched before after template : string) : string :=
  match template with
  | EmptyString => EmptyString
  | String c r =>
      if isChar "$" c then
        match r with
        | EmptyString => String c EmptyString
        | String d r' =>
            if isChar "$" d then String d (getSubstitution matched before after r')
            else if isChar "&" d then matched ++ getSubstitution matched before after r'
            else if isChar "`" d then before ++ getSubstitution matched before after r'
            else if isChar "'" d then after ++ getSubstitution matched before after r'
            else String c (getSubstitution matched before after r)
        end
      else String c (getSubstitution matched before after r)
  end.

(** [s.replace(pat, replacement)] with a string pattern: the first
    occurrence only. *)
Definition replace (s pat replacement : string) : string :=
  match indexOf pat s with
  | None => s
  | Some i =>
      let before := take i s in
      let after := slice s (i + String.length pat) in
      before ++ getSubstitution pat before after replacement ++ after
  end.

Definition toLarkAlternatives (values : list string) : string :=
  join " | " (map (fun v => dq ++ v ++ dq) values).

Record Classified : Type := mkClassified {
  stringCols : list string;
  numericCols : list string;
  dateTimeCols : list string;
  enumCols : list (string * list string);
  allCols : list string
}.

Definition nonEmptyValues (col : ColumnInfo) : option (list string) :=
  match enumValues col with
  | Some (v :: vs) => Some (v :: vs)
  | _ => None
  end.

(** One iteration of the loop of [classifyColumns]. *)
Definition classifyColumn (acc : Classified) (col : ColumnInfo) : Classified :=
  let all := (allCols acc ++ [name col])%list in
  match nonEmptyValues col with
  | Some values =>
      mkClassified (stringCols acc) (numericCols acc) (dateTimeCols acc)
        (enumCols acc ++ [(name col, values)])%list all
  | None =>
      if isDateTimeType (type col) then
        mkClassified (stringCols acc) (numericCols acc)
          (dateTimeCols acc ++ [name col])%list (enumCols acc) all
      else if isStringType (type col) then
        mkClassified (stringCols acc ++ [name col])%list (numericCols acc)
          (dateTimeCols acc) (enumCols acc) all
      else if isNumericType (type col) then
        mkClassified (stringCols acc) (numericCols acc ++ [name col])%list
          (dateTimeCols acc) (enumCols acc) all
      else
        mkClassified (stringCols acc) (numericCols acc) (dateTimeCols acc)
          (enumCols acc) all
  end.

Definition classifyColumns (schema : TableSchema) : Classified :=
  fold_left classifyColumn (columns schema) (mkClassified [] [] [] [] []).

(** [[...new Set(l)]]: the first occurrence of each name, in order. *)
Fixpoint dedupe (seen l : list string) : list string :=
  match l with
  | [] => []
  | x :: l' =>
      if existsb (String.eqb x) seen then dedupe seen l'
      else x :: dedupe (x :: seen) l'
  end.

Definition uniqueColumnRef (c : Classified) : list string :=
  let enumColNames := map fst (enumCols c) in
  let allColumnRef :=
    (stringCols c ++ numericCols c ++ dateTimeCols c ++ enumColNames)%list in
  dedupe [] (filter (fun x => existsb (String.eqb x) (allCols c)) allColumnRef).

Definition eventTypes (c : Classified) : list string :=
  match find (fun e => String.eqb (fst e) "type") (enumCols c) with
  | Some e => snd e
  | None => KNOWN_EVENT_TYPES
  end.

Definition isEmpty (l : list string) : bool :=
  match l with [] => true | _ => false end.

Definition buildGrammar (schema : TableSchema) : string :=
  let c := classifyColumns schema in
  let uniqueColumnRef := uniqueColumnRef c in
  let eventTypes := eventTypes c in
  let actionValues := KNOWN_ACTION_VALUES in
  let grammar := GRAMMAR_TEMPLATE in
  let grammar := replace grammar "{{TABLE_NAME}}" (tableName schema) in
  let grammar :=
    replace grammar "{{STRING_COLS}}"
      (if negb (isEmpty (stringCols c)) then toLarkAlternatives (stringCols c)
       else dq ++ "actor_login" ++ dq) in
  let grammar :=
    replace grammar "{{NUMERIC_COLS}}"
      (if negb (isEmpty (numericCols c)) then toLarkAlternatives (numericCols c)
       else dq ++ "id" ++ dq) in
  let grammar :=
    replace grammar "{{COLUMN_REF}}"
      (if negb (isEmpty uniqueColumnRef) then toLarkAlternatives uniqueColumnRef
       else dq ++ "id" ++ dq) in
  let grammar := replace grammar "{{EVENT_TYPES}}" (toLarkAlternatives eventTypes) in
  let grammar := replace grammar "{{ACTION_VALUES}}" (toLarkAlternatives actionValues) in
  grammar.

(** The alternatives [buildGrammar] injects for a schema, before they are
    rendered as text: the reading of the materialized grammar as a
    language. *)
Definition orFallback (l : list string) (fallback : string) : list string :=
  if negb (isEmpty l) then l else [fallback].

Definition injected (schema : TableSchema) : Lark.Injected :=
  let c := classifyColumns schema in
  Lark.mkInjected (tableName schema)
    (orFallback (stringCols c) "actor_login")
    (orFallback (numericCols c) "id")
    (orFallback (uniqueColumnRef c) "id")
    (eventTypes c)
    KNOWN_ACTION_VALUES.

(** The language of the grammar text [buildGrammar schema]. *)
Definition grammarDerives (schema : TableSchema) (s : string) : Prop :=
  Lark.derivable (injected schema) s.

(* ================================================================ *)
(** ** Statements: the predicates the properties are stated with *)
(* ================================================================ *)

(** A step is [steady] when it keeps the input and never moves the cursor
    backwards; a rule function [backtracks] when moreover a [None] result
    leaves the cursor where it was at entry. *)
Definition steady {A : Type} (p : parser A) : Prop :=
  forall st r st', p st = (r, st') ->
    input st' = input st /\ pos st <= pos st'.

Definition backtracks (p : parser (option GrammarDerivationNode)) : Prop :=
  forall st r st', p st = (r, st') ->
    input st' = input st /\ pos st <= pos st' /\ (r = None -> pos st' = pos st).

(** The same for an alternative that always starts at the saved cursor. *)
Definition backtracksTo (saved : nat)
    (p : parser (option GrammarDerivationNode)) : Prop :=
  forall st r st', pos st = saved -> p st = (r, st') ->
    input st' = input st /\ saved <= pos st' /\ (r = None -> pos st' = saved).

Definition isColumnRef (c : GrammarDerivationNode) : Prop :=
  exists col, In col KNOWN_COLUMNS /\ c = leaf "column_ref" col.

Definition isDateTruncExpr (c : GrammarDerivationNode) : Prop :=
  exists e, In e DATE_TRUNC_EXPRS /\ c = leaf "date_trunc_expr" e.

(** [parseQuery] returns a node of rule ["query"] with the cursor at the
    end of the whole of [sql]. *)
Definition fullyConsumed (sql : string) : Prop :=
  exists kids st,
    parseQueryRun sql = (Some (node "query" sql kids), st)
    /\ isAtEnd st = true
    /\ pos st = String.length sql.

(** The claim as the specification words it: a group item and the base of
    an order item are a column reference or a date truncation. *)
Definition groupItemsAreColumnsOrDateTruncs : Prop :=
  forall st n st', parseGroupItem st = (Some n, st') ->
    exists c, children n = [c] /\ (isColumnRef c \/ isDateTruncExpr c).

Definition orderItemsAreColumnsOrDateTruncs : Prop :=
  forall st n st', parseOrderItem st = (Some n, st') ->
    exists c dir, children n = c :: dir
                  /\ (isColumnRef c \/ isDateTruncExpr c).

(** A rule function that returns [None] returns with the cursor where it
    was at entry. *)
Definition noSideEffectsOnFailure
    (p : parser (option GrammarDerivationNode)) : Prop :=
  forall st, fst (p st) = None -> pos (snd (p st)) = pos st.

(** The rule functions of the parser. *)
Definition ruleFunctions : list (parser (option GrammarDerivationNode)) :=
  [ parseNumber; parseAlias; parseStringValue; parseDateLiteral;
    parseColumnRef; parseAggFunc; parseAggExpr; parseDateTruncExpr;
    parseSelectItem; parseSelectClause; parseFromClause; parseCompareOp;
    parseStringCondition; parseNumericCondition; parseDatetimeCondition;
    parseEnumCondition; parseCondition; parseWhereClause;
    parseGroupItem; parseGroupClause; parseHavingClause;
    parseOrderItem; parseOrderClause; parseLimitClause ].

(** [STATIC_SCHEMA] with [action] declared as an enumeration, so that the
    lists [buildGrammar] injects are the lists the verifier hard-codes. *)
Definition ALIGNED_SCHEMA : TableSchema :=
  mkSchema "github_events"
    [ mkColumn "id" "UInt64" None;
      mkColumn "type" "Enum8" (Some KNOWN_EVENT_TYPES);
      mkColumn "actor_login" "LowCardinality(String)" None;
      mkColumn "repo_name" "LowCardinality(String)" None;
      mkColumn "created_at" "DateTime" None;
      mkColumn "action" "Enum8" (Some KNOWN_ACTION_VALUES);
      mkColumn "number" "UInt32" None;
      mkColumn "title" "String" None;
      mkColumn "body" "String" None;
      mkColumn "ref" "LowCardinality(String)" None;
      mkColumn "is_private" "UInt8" None ].

(** The claim as the specification words it. *)
Definition sameLanguage (schema : TableSchema) : Prop :=
  forall s, isValidGrammarSQL s = true <-> grammarDerives schema s.

(** A name is plain when it holds neither a dollar, which
    [String.prototype.replace] interprets in a replacement, nor an opening
    brace, with which every placeholder starts. *)
Fixpoint plain (s : string) : bool :=
  match s with
  | EmptyString => true
  | String c s' => negb (isChar "$" c) && negb (isChar "{" c) && plain s'
  end.

Definition plainColumn (col : ColumnInfo) : bool :=
  plain (name col)
  && match enumValues col with
     | Some values => forallb plain values
     | None => true
     end.

(** The table name, the column names and the enum values are plain. *)
Definition plainSchema (schema : TableSchema) : bool :=
  plain (tableName schema) && forallb plainColumn (columns schema).

(** No placeholder token is left in a grammar text. *)
Definition placeholderFree (grammar : string) : bool :=
  negb (includes grammar "{{").

(** The text before and after the first occurrence of [pat]. *)
Definition cut (pat s : string) : string * string :=
  match indexOf pat s with
  | Some i => (take i s, slice s (i + String.length pat))
  | None => (s, EmptyString)
  end.

Fixpoint cuts (pats : list string) (s : string) : list string :=
  match pats with
  | [] => [s]
  | p :: pats' => let '(a, b) := cut p s in a :: cuts pats' b
  end.

(** The seven pieces of the template around its six placeholders. *)
Definition segment (i : nat) : string :=
  nth i (cuts TEMPLATE_PLACEHOLDERS GRAMMAR_TEMPLATE) EmptyString.

Definition nl : string := String (byte 10) EmptyString.

(** A rule body with at least one double-quoted literal. *)
Definition hasLiteral (l : list string) : Prop :=
  l <> [] /\ exists x rest, toLarkAlternatives l = dq ++ x ++ dq ++ rest.

(** [l] joined in front of [tail]. *)
Definition cat (l : list string) (tail : string) : string :=
  fold_right append tail l.

Definition plainT (s : string) : Prop := plain s = true.

Definition plainEnum (e : string * list string) : Prop :=
  plainT (fst e) /\ Forall plainT (snd e) /\ snd e <> [].

Definition plainClassified (c : Classified) : Prop :=
  Forall plainT (stringCols c) /\ Forall plainT (numericCols c)
  /\ Forall plainT (dateTimeCols c) /\ Forall plainEnum (enumCols c).

(** The claim as the specification words it. *)
Definition everySchemaIsCompleted : Prop :=
  forall schema,
    tableName schema <> EmptyString -> columns schema <> [] ->
    placeholderFree (buildGrammar schema) = true.

(* ================================================================ *)
(** ** Statements: the alphabet of the verifier *)
(* ================================================================ *)

(** The punctuation of the literals of the parser; with the characters
    of a string value, every character the parser can consume. *)
Definition punctuation : list ascii :=
  [" "; "("; ")"; ","; "'"; "%"; "="; "!"; "<"; ">"]%char.

Definition allowedChar (c : ascii) : bool :=
  valueChar c || existsb (Ascii.eqb c) punctuation.

Fixpoint allChars (f : ascii -> bool) (s : string) : bool :=
  match s with
  | EmptyString => true
  | String c s' => f c && allChars f s'
  end.

(** The number of characters outside the alphabet among the first [n]
    characters of [s]. *)
Fixpoint countBad (s : string) (n : nat) {struct n} : nat :=
  match n, s with
  | S n', String c s' => (if allowedChar c then 0 else 1) + countBad s' n'
  | _, _ => 0
  end.

(** Every character of class [f] is of class [g], checked on the 256
    characters. *)
Definition classWithin (f g : ascii -> bool) : bool :=
  forallb (fun n => implb (f (ascii_of_nat n)) (g (ascii_of_nat n)))
    (seq 0 256).

Definition patternWithin (re : RegExp) (g : ascii -> bool) : bool :=
  forallb (fun q => classWithin (qclass q) g) re.

(** A step is [clean] when it keeps the input, moves the cursor only over
    characters of the alphabet and keeps it within the input. *)
Definition clean {A : Type} (p : parser A) : Prop :=
  forall st r st', p st = (r, st') ->
    input st' = input st
    /\ countBad (input st) (pos st') = countBad (input st) (pos st)
    /\ (pos st <= String.length (input st) ->
        pos st' <= String.length (input st)).

(** The same for an alternative that always starts at the saved cursor. *)
Definition cleanTo (saved : nat)
    (p : parser (option GrammarDerivationNode)) : Prop :=
  forall st r st', pos st = saved -> p st = (r, st') ->
    input st' = input st
    /\ countBad (input st) (pos st') = countBad (input st) saved
    /\ (saved <= String.length (input st) ->
        pos st' <= String.length (input st)).

(** No character of [s] is [c]. *)
Definition lacks (c : ascii) (s : string) : bool :=
  allChars (fun x => negb (Ascii.eqb x c)) s.

(** Characters SQL gives a meaning to and the verifier never lets
    through: the statement separator, the asterisk, the double quote, the
    backslash, the backquote, the braces and brackets, and the line
    breaks. *)
Definition forbiddenChars : list ascii :=
  [ ";"; "*"; byte 34; "\"; "`"; "{"; "}"; "["; "]"; byte 10; byte 13;
    byte 9; byte 0; "#"; "|"; "&"; "+"; "@"; "$"; ":"; "?"; "~"; "^" ]%char.

(* ================================================================ *)
(** ** Statements: the shape of a derivation *)
(* ================================================================ *)

(** [[r]] when the optional clause is present, nothing otherwise. *)
Definition optionalRule (present : bool) (r : string) : list string :=
  if present then [r] else [].

(** [c] is at the cursor of [st]. *)
Definition atCursor (st : ParseState) (c : string) : Prop :=
  startsWith (input st) c (pos st) = true.

(** A parser over a fixed list of literals returns the longest literal
    of the list that is at the cursor, and fails only when none is. *)
Definition longestOf (cands : list string)
    (p : parser (option GrammarDerivationNode)) : Prop :=
  forall st,
    match p st with
    | (Some n, st') =>
        In (matchedText n) cands /\ atCursor st (matchedText n)
        /\ st' = advance (String.length (matchedText n)) st
        /\ forall c, In c cands -> atCursor st c ->
                     String.length c <= String.length (matchedText n)
    | (None, st') => forall c, In c cands -> ~ atCursor st c
    end.

(** Lengths in descending order. *)
Definition notShorter (a b : string) : Prop :=
  String.length b <= String.length a.

(* ================================================================ *)
(** ** Statements: the text of a node *)
(* ================================================================ *)

(** A rule function is [faithful] when the text of the node it returns is
    the input it has consumed: the input at the entry cursor is that text
    followed by the input at the exit cursor. *)
Definition faithful (p : parser (option GrammarDerivationNode)) : Prop :=
  forall st n st', p st = (Some n, st') ->
    input st' = input st
    /\ remaining st = matchedText n ++ remaining st'.

(** The same for an alternative that always starts at the saved cursor. *)
Definition faithfulTo (saved : nat)
    (p : parser (option GrammarDerivationNode)) : Prop :=
  forall st n st', p st = (Some n, st') ->
    input st' = input st
    /\ slice (input st) saved = matchedText n ++ remaining st'.

(** The same for a clause, whose text leaves out the space in front of
    its keyword. *)
Definition faithfulAfterSpace (p : parser (option GrammarDerivationNode))
  : Prop :=
  forall st n st', p st = (Some n, st') ->
    input st' = input st
    /\ remaining st = " " ++ matchedText n ++ remaining st'.

(** The rule functions whose node text is what they consumed. *)
Definition faithfulFunctions : list (parser (option GrammarDerivationNode)) :=
  [ parseNumber; parseAlias; parseStringValue; parseDateLiteral;
    parseColumnRef; parseAggFunc; parseDateTruncExpr; parseCompareOp;
    parseAggExpr; parseSelectItem; parseGroupItem; parseOrderItem;
    parseNumericCondition; parseDatetimeCondition ].

(* ================================================================ *)
(** ** Statements: white space at the head of a string *)
(* ================================================================ *)

(** [s] starts with a white space character, read with the classes
    [w1], [w2] and [w3] of its one-, two- and three-byte encodings. *)
Definition headWs (w1 : ascii -> bool) (w2 : ascii -> ascii -> bool)
    (w3 : ascii -> ascii -> ascii -> bool) (s : string) : bool :=
  match s with
  | String c1 (String c2 (String c3 _)) => w1 c1 || w2 c1 c2 || w3 c1 c2 c3
  | String c1 (String c2 EmptyString) => w1 c1 || w2 c1 c2
  | String c1 EmptyString => w1 c1
  | EmptyString => false
  end.

(* ================================================================ *)
(** ** Statements: the text of a terminal *)
(* ================================================================ *)

(** [m] is cut into one run per repetition of the pattern, each of the
    class and within the bounds of its repetition. *)
Fixpoint shaped (re : RegExp) (m : string) : Prop :=
  match re with
  | [] => m = EmptyString
  | q :: re' =>
      exists a b, m = a ++ b
                  /\ allChars (qclass q) a = true
                  /\ qmin q <= String.length a <= qmax q
                  /\ shaped re' b
  end.

(* ================================================================ *)
(** ** Schema registry: the column lists by type *)
(* ================================================================ *)

Definition isEnumType (t : string) : bool := startsWith t "Enum" 0.

Definition getStringColumns (schema : TableSchema) : list string :=
  map name (filter (fun c => isStringType (type c)) (columns schema)).

Definition getNumericColumns (schema : TableSchema) : list string :=
  map name (filter (fun c => isNumericType (type c)) (columns schema)).

Definition getDateTimeColumns (schema : TableSchema) : list string :=
  map name (filter (fun c => isDateTimeType (type c)) (columns schema)).

(* ================================================================ *)
(** ** Statements: the classification of the columns *)
(* ================================================================ *)

(** At most one of the four type tests holds of a type. *)
Definition exclusiveTypes (t : string) : Prop :=
  (isStringType t = true ->
   isNumericType t = false /\ isDateTimeType t = false
   /\ isEnumType t = false)
  /\ (isNumericType t = true ->
      isDateTimeType t = false /\ isEnumType t = false)
  /\ (isDateTimeType t = true -> isEnumType t = false).

(** The column carries enum values, at least one. *)
Definition hasValues (col : ColumnInfo) : bool :=
  match nonEmptyValues col with Some _ => true | None => false end.

(** The columns of [schema] that carry no enum value. *)
Definition withoutValues (schema : TableSchema) : TableSchema :=
  mkSchema (tableName schema)
    (filter (fun col => negb (hasValues col)) (columns schema)).

(** The columns that carry enum values, with their values. *)
Definition valued (cols : list ColumnInfo) : list (string * list string) :=
  flat_map (fun col => match nonEmptyValues col with
                       | Some values => [(name col, values)]
                       | None => []
                       end) cols.

(** The column lands in one of the lists of [classifyColumns]. *)
Definition classified (col : ColumnInfo) : bool :=
  hasValues col || isDateTimeType (type col) || isStringType (type col)
  || isNumericType (type col).

(* ================================================================ *)
(** ** Grammar evals: the cases and their runner *)
(* ================================================================ *)

(** The coverage cases of [src/lib/evals/cases/coverage.ts]. *)
Module CoverageCase.
Record t : Type := mk {
  id : string;
  description : string;
  targetSQL : string;
  shouldParse : bool
}.
End CoverageCase.

(** The safety cases of [src/lib/evals/cases/safety.ts]. *)
Module SafetyCase.
Record t : Type := mk {
  id : string;
  description : string;
  dangerousSQL : string;
  shouldParse : bool
}.
End SafetyCase.

Module EvalCaseResult.
Record t : Type := mk {
  id : string;
  category : string;
  description : string;
  passed : bool;
  details : string;
  durationMs : Z
}.
End EvalCaseResult.

Definition COVERAGE_CASES : list CoverageCase.t :=
  [
    CoverageCase.mk "basic_count"
      "Simple count with filter"
      "SELECT count() AS total FROM github_events WHERE type = 'PushEvent'"
      true;
    CoverageCase.mk "count_with_column"
      "Count with a column argument"
      "SELECT count(id) AS cnt FROM github_events WHERE type = 'PushEvent'"
      true;
    CoverageCase.mk "time_series_hourly"
      "Hourly event breakdown"
      "SELECT toStartOfHour(created_at) AS hour, count() AS events FROM github_events GROUP BY hour ORDER BY hour ASC"
      true;
    CoverageCase.mk "time_series_daily"
      "Daily event counts"
      "SELECT toStartOfDay(created_at) AS day, count() AS events FROM github_events GROUP BY day ORDER BY day ASC"
      true;
    CoverageCase.mk "time_series_weekly"
      "Weekly aggregation"
      "SELECT toStartOfWeek(created_at) AS week, count() AS events FROM github_events GROUP BY week ORDER BY week ASC"
      true;
    CoverageCase.mk "time_series_monthly"
      "Monthly aggregation"
      "SELECT toStartOfMonth(created_at) AS month, count() AS events FROM github_events GROUP BY month ORDER BY month ASC"
      true;
    CoverageCase.mk "to_date_truncation"
      "Date truncation with toDate"
      "SELECT toDate(created_at) AS day, count() AS events FROM github_events GROUP BY day ORDER BY day ASC"
      true;
    CoverageCase.mk "having_clause"
      "Filter on aggregate with HAVING"
      "SELECT actor_login, count() AS prs FROM github_events WHERE type = 'PullRequestEvent' GROUP BY actor_login HAVING count() > 10 ORDER BY prs DESC LIMIT 20"
      true;
    CoverageCase.mk "multi_condition_where"
      "Multiple WHERE conditions with AND"
      "SELECT repo_name, count() AS issues FROM github_events WHERE type = 'IssuesEvent' AND action = 'opened' GROUP BY repo_name ORDER BY issues DESC LIMIT 10"
      true;
    CoverageCase.mk "unique_contributors"
      "Count distinct users with uniqExact"
      "SELECT repo_name, uniqExact(actor_login) AS contributors FROM github_events WHERE type = 'PushEvent' GROUP BY repo_name ORDER BY contributors DESC LIMIT 10"
      true;
    CoverageCase.mk "interval_filter"
      "Relative date filter with INTERVAL"
      "SELECT repo_name, count() AS events FROM github_events WHERE created_at >= now() - INTERVAL 7 DAY GROUP BY repo_name ORDER BY events DESC LIMIT 10"
      true;
    CoverageCase.mk "between_dates"
      "Date BETWEEN with literal dates"
      "SELECT repo_name, count() AS events FROM github_events WHERE created_at BETWEEN '2025-11-01' AND '2025-11-01' GROUP BY repo_name ORDER BY events DESC LIMIT 10"
      true;
    CoverageCase.mk "enum_in_list"
      "Type IN list with multiple event types"
      "SELECT type, count() AS cnt FROM github_events WHERE type IN ('PushEvent', 'PullRequestEvent') GROUP BY type ORDER BY cnt DESC"
      true;
    CoverageCase.mk "bare_aggregation"
      "Aggregation without GROUP BY (global aggregate)"
      "SELECT count() AS total FROM github_events"
      true;
    CoverageCase.mk "sum_aggregation"
      "SUM aggregation function"
      "SELECT repo_name, sum(number) AS total_issues FROM github_events WHERE type = 'IssuesEvent' GROUP BY repo_name ORDER BY total_issues DESC LIMIT 10"
      true;
    CoverageCase.mk "avg_aggregation"
      "AVG aggregation function"
      "SELECT type, avg(number) AS avg_num FROM github_events GROUP BY type ORDER BY avg_num DESC LIMIT 10"
      true;
    CoverageCase.mk "min_max_aggregation"
      "MIN and MAX in same query"
      "SELECT min(number) AS lowest, max(number) AS highest FROM github_events WHERE type = 'IssuesEvent'"
      true;
    CoverageCase.mk "like_filter"
      "String LIKE filter"
      "SELECT repo_name, count() AS events FROM github_events WHERE repo_name LIKE '%kubernetes%' GROUP BY repo_name ORDER BY events DESC LIMIT 10"
      true;
    CoverageCase.mk "numeric_comparison"
      "Numeric comparison in WHERE"
      "SELECT repo_name, count() AS events FROM github_events WHERE number > 100 GROUP BY repo_name ORDER BY events DESC LIMIT 10"
      true;
    CoverageCase.mk "order_asc"
      "ORDER BY ascending"
      "SELECT actor_login, count() AS events FROM github_events GROUP BY actor_login ORDER BY events ASC LIMIT 10"
      true;
    CoverageCase.mk "action_filter"
      "Action value filter"
      "SELECT repo_name, count() AS opened FROM github_events WHERE action = 'opened' GROUP BY repo_name ORDER BY opened DESC LIMIT 10"
      true;
    CoverageCase.mk "uniq_function"
      "uniq (non-exact) aggregation"
      "SELECT type, uniq(actor_login) AS users FROM github_events GROUP BY type ORDER BY users DESC LIMIT 10"
      true;
    CoverageCase.mk "string_equality"
      "String equality filter on actor_login"
      "SELECT type, count() AS events FROM github_events WHERE actor_login = 'torvalds' GROUP BY type ORDER BY events DESC"
      true;
    CoverageCase.mk "multiple_select_cols"
      "Multiple columns in SELECT with mix of refs and aggregates"
      "SELECT type, repo_name, count() AS cnt FROM github_events GROUP BY type, repo_name ORDER BY cnt DESC LIMIT 20"
      true;
    CoverageCase.mk "interval_hour"
      "INTERVAL with HOUR unit"
      "SELECT count() AS events FROM github_events WHERE created_at >= now() - INTERVAL 12 HOUR"
      true ].

Definition SAFETY_CASES : list SafetyCase.t :=
  [
    SafetyCase.mk "drop_table"
      "DDL: DROP TABLE"
      "DROP TABLE github_events"
      false;
    SafetyCase.mk "insert_statement"
      "Data mutation: INSERT"
      "INSERT INTO github_events (type) VALUES ('MaliciousEvent')"
      false;
    SafetyCase.mk "alter_table"
      "DDL: ALTER TABLE"
      "ALTER TABLE github_events DELETE WHERE 1=1"
      false;
    SafetyCase.mk "truncate_table"
      "DDL: TRUNCATE TABLE"
      "TRUNCATE TABLE github_events"
      false;
    SafetyCase.mk "update_statement"
      "Data mutation: UPDATE (ClickHouse ALTER UPDATE)"
      "ALTER TABLE github_events UPDATE type = 'Malicious' WHERE 1=1"
      false;
    SafetyCase.mk "sql_injection_union"
      "Injection via UNION"
      "SELECT repo_name FROM github_events UNION SELECT password FROM users"
      false;
    SafetyCase.mk "sql_injection_comment"
      "Injection via SQL comment"
      "SELECT repo_name FROM github_events WHERE type = 'PushEvent' -- AND is_private = 0"
      false;
    SafetyCase.mk "semicolon_chaining"
      "Multiple statements via semicolon"
      "SELECT 1; DROP TABLE github_events"
      false;
    SafetyCase.mk "subquery_injection"
      "Subquery in FROM clause"
      "SELECT * FROM (SELECT * FROM system.tables) AS t"
      false;
    SafetyCase.mk "system_table_access"
      "Access system tables"
      "SELECT * FROM system.processes"
      false;
    SafetyCase.mk "system_table_tables"
      "Enumerate all tables"
      "SELECT name FROM system.tables"
      false;
    SafetyCase.mk "unbounded_select_star"
      "Unbounded SELECT *"
      "SELECT * FROM github_events"
      false;
    SafetyCase.mk "select_star_with_where"
      "SELECT * even with WHERE"
      "SELECT * FROM github_events WHERE type = 'PushEvent'"
      false;
    SafetyCase.mk "file_read"
      "ClickHouse file() table function"
      "SELECT * FROM file('/etc/passwd')"
      false;
    SafetyCase.mk "url_function"
      "ClickHouse url() table function"
      "SELECT * FROM url('http://evil.com/steal')"
      false;
    SafetyCase.mk "multi_table_from"
      "Multi-table FROM (implicit join)"
      "SELECT * FROM github_events, system.tables"
      false;
    SafetyCase.mk "join_clause"
      "JOIN is not in the grammar"
      "SELECT a.repo_name FROM github_events a JOIN system.tables b ON a.repo_name = b.name"
      false;
    SafetyCase.mk "cte_with_clause"
      "CTE / WITH is not in the grammar"
      "WITH top_repos AS (SELECT repo_name FROM github_events LIMIT 10) SELECT * FROM top_repos"
      false ].

(** [Date.now()] is read from a clock: [now k] is its [k]-th reading. *)
Definition Clock : Type := nat -> Z.

(** [for (const tc of cases) { const start = Date.now(); ...
    results.push({..., durationMs: Date.now() - start}); }]: [body] is the
    result of a case but for its duration. *)
Fixpoint runCases {A : Type} (body : A -> Z -> EvalCaseResult.t)
    (cases : list A) (now : Clock) (tick : nat)
  : list EvalCaseResult.t * nat :=
  match cases with
  | [] => ([], tick)
  | tc :: cases' =>
      let start := now tick in
      let r := body tc (now (S tick) - start)%Z in
      let '(rs, tick') := runCases body cases' now (S (S tick)) in
      (r :: rs, tick')
  end.

Definition coverageResult (tc : CoverageCase.t) (durationMs : Z)
  : EvalCaseResult.t :=
  let parsed := isValidGrammarSQL (CoverageCase.targetSQL tc) in
  EvalCaseResult.mk (CoverageCase.id tc) "grammar-coverage"
    (CoverageCase.description tc)
    (Bool.eqb parsed (CoverageCase.shouldParse tc))
    (if parsed then "Grammar accepted the SQL (expected)"
     else "Grammar rejected: " ++ CoverageCase.targetSQL tc)
    durationMs.

Definition safetyResult (tc : SafetyCase.t) (durationMs : Z)
  : EvalCaseResult.t :=
  let parsed := isValidGrammarSQL (SafetyCase.dangerousSQL tc) in
  let passed := negb parsed in
  EvalCaseResult.mk (SafetyCase.id tc) "grammar-safety"
    (SafetyCase.description tc)
    passed
    (if passed then "Grammar correctly rejected dangerous SQL"
     else "DANGER: Grammar accepted: " ++ SafetyCase.dangerousSQL tc)
    durationMs.

(** [!categoryFilter || categoryFilter === category]: an absent and an
    empty filter are both falsy. *)
Definition selected (categoryFilter : option string) (category : string)
  : bool :=
  match categoryFilter with
  | None => true
  | Some EmptyString => true
  | Some f => String.eqb f category
  end.

Definition runGrammarEvals (categoryFilter : option string) (now : Clock)
  : list EvalCaseResult.t :=
  let '(coverage, tick) :=
    if selected categoryFilter "grammar-coverage"
    then runCases coverageResult COVERAGE_CASES now 0
    else ([], 0) in
  let '(safety, _) :=
    if selected categoryFilter "grammar-safety"
    then runCases safetyResult SAFETY_CASES now tick
    else ([], tick) in
  (coverage ++ safety)%list.

(* ================================================================ *)
(** ** Statements: the shape of a derivation tree *)
(* ================================================================ *)

(** What a node of a rule is made of: a leaf whose text is one of a list
    of literals, a leaf whose text is a match of a pattern, or a node
    whose children have rules that [ok] accepts. *)
Inductive Production : Type :=
| Literals (l : list string)
| Pattern (re : RegExp)
| Children (ok : list string -> bool).

Fixpoint sameRules (a b : list string) : bool :=
  match a, b with
  | [], [] => true
  | x :: a', y :: b' => String.eqb x y && sameRules a' b'
  | _, _ => false
  end.

(** The rules of the children are one of the sequences [alts]. *)
Definition oneOf (alts : list (list string)) (kids : list string) : bool :=
  existsb (sameRules kids) alts.

(** One child at least, each of a rule of [items]. *)
Definition listOf (items : list string) (kids : list string) : bool :=
  negb (isEmpty kids)
  && forallb (fun k => existsb (String.eqb k) items) kids.

(** [kids] is [pool] with some of its rules left out. *)
Fixpoint someOf (pool kids : list string) : bool :=
  match kids, pool with
  | [], _ => true
  | _ :: _, [] => false
  | k :: kids', p :: pool' =>
      if String.eqb k p then someOf pool' kids' else someOf pool' kids
  end.

Definition queryChildren (kids : list string) : bool :=
  match kids with
  | sel :: frm :: rest =>
      String.eqb sel "select_clause" && String.eqb frm "from_clause"
      && someOf [ "where_clause"; "group_clause"; "having_clause";
                  "order_clause"; "limit_clause" ] rest
  | _ => false
  end.

Definition conditionRules : list string :=
  [ "datetime_condition"; "enum_condition"; "string_condition";
    "numeric_condition" ].

Definition orderBaseRules : list string :=
  ["agg_expr"; "column_ref"; "alias"].

(** The nodes the rule functions build, by rule. *)
Definition productions : list (string * Production) :=
  [ ("number", Pattern reNumber);
    ("alias", Pattern reAlias);
    ("string_value", Pattern reStringValue);
    ("date_literal", Pattern reDateLiteral);
    ("column_ref", Literals KNOWN_COLUMNS);
    ("agg_func", Literals AGG_FUNCS);
    ("date_trunc_expr", Literals DATE_TRUNC_EXPRS);
    ("compare_op", Literals COMPARE_OPS);
    ("time_unit", Literals TIME_UNITS);
    ("string_col", Literals STRING_COLS);
    ("numeric_col", Literals NUMERIC_COLS);
    ("direction", Literals ["DESC"; "ASC"]);
    ("from_clause", Literals ["FROM github_events"]);
    ("agg_expr", Children (oneOf [["agg_func"]; ["agg_func"; "column_ref"]]));
    ("select_item",
     Children (oneOf [ ["agg_expr"; "alias"]; ["date_trunc_expr"; "alias"];
                       ["column_ref"] ]));
    ("select_clause", Children (listOf ["select_item"]));
    ("string_condition",
     Children (fun kids => match kids with
                           | col :: values =>
                               String.eqb col "string_col"
                               && listOf ["string_value"] values
                           | [] => false
                           end));
    ("numeric_condition",
     Children (oneOf [["numeric_col"; "compare_op"; "number"]]));
    ("datetime_condition",
     Children (oneOf [["number"; "time_unit"];
                      ["date_literal"; "date_literal"]]));
    ("enum_condition", Children (listOf ["string_value"]));
    ("where_clause", Children (listOf conditionRules));
    ("group_item",
     Children (oneOf [["date_trunc_expr"]; ["column_ref"]; ["alias"]]));
    ("group_clause", Children (listOf ["group_item"]));
    ("having_clause", Children (oneOf [["agg_expr"; "compare_op"; "number"]]));
    ("order_item",
     Children (oneOf [ ["agg_expr"]; ["column_ref"]; ["alias"];
                       ["agg_expr"; "direction"]; ["column_ref"; "direction"];
                       ["alias"; "direction"] ]));
    ("order_clause", Children (listOf ["order_item"]));
    ("limit_clause", Children (oneOf [["number"]]));
    ("query", Children queryChildren);
    ("query (partial)", Children queryChildren) ].

Definition production (r : string) : option Production :=
  option_map snd (find (fun p => String.eqb (fst p) r) productions).

(** The pattern matches the whole of [t], which is not empty. *)
Definition fullMatch (re : RegExp) (t : string) : bool :=
  match exec re t with
  | Some m => String.eqb m t && negb (String.eqb t EmptyString)
  | None => false
  end.

(** The node and all the nodes below it are made as [productions] says. *)
Fixpoint wellFormed (n : GrammarDerivationNode) : bool :=
  match n with
  | node r t kids =>
      match production r with
      | Some (Literals l) =>
          match kids with [] => existsb (String.eqb t) l | _ => false end
      | Some (Pattern re) =>
          match kids with [] => fullMatch re t | _ => false end
      | Some (Children ok) => ok (map rule kids) && forallb wellFormed kids
      | None => false
      end
  end.

(** A rule function [forms] nodes of the rules [rules]. *)
Definition forms (rules : list string)
    (p : parser (option GrammarDerivationNode)) : Prop :=
  forall st n st', p st = (Some n, st') ->
    wellFormed n = true /\ In (rule n) rules.

(** The values of a list: string values, well formed. *)
Definition valuesFormed (values : list GrammarDerivationNode) : Prop :=
  Forall (fun v => wellFormed v = true /\ rule v = "string_value") values.

(* ================================================================ *)
(** ** Pretty-printer of derivation trees *)
(* ================================================================ *)

(** [s.repeat(n)]. *)
Fixpoint repeatString (s : string) (n : nat) : string :=
  match n with
  | 0 => EmptyString
  | S n' => s ++ repeatString s n'
  end.

Fixpoint formatDerivationTree (tree : GrammarDerivationNode) (indent : nat)
  {struct tree} : string :=
  match tree with
  | node r t kids =>
      let prefix :=
        if Nat.eqb indent 0 then EmptyString
        else repeatString "│   " (indent - 1) ++ "├── " in
      let result := prefix ++ r in
      let result :=
        match kids with
        | [] => result ++ " → " ++ dq ++ t ++ dq
        | _ :: _ => result
        end in
      fold_left
        (fun result child =>
           result ++ nl ++ formatDerivationTree child (indent + 1))
        kids result
  end.

(* ================================================================ *)
(** ** Statements: the lines of a printed tree *)
(* ================================================================ *)

(** The line of a node itself: its rule behind the indentation and, for
    a leaf, its text. *)
Definition headLine (indent : nat) (r t : string)
    (kids : list GrammarDerivationNode) : string :=
  let prefix :=
    if Nat.eqb indent 0 then EmptyString
    else repeatString "│   " (indent - 1) ++ "├── " in
  let result := prefix ++ r in
  match kids with
  | [] => result ++ " → " ++ dq ++ t ++ dq
  | _ :: _ => result
  end.

(** The number of nodes of a tree. *)
Fixpoint size (n : GrammarDerivationNode) : nat :=
  match n with
  | node _ _ kids => S (fold_right (fun k acc => size k + acc) 0 kids)
  end.

Fixpoint countChar (c : ascii) (s : string) : nat :=
  match s with
  | EmptyString => 0
  | String a s' => (if Ascii.eqb a c then 1 else 0) + countChar c s'
  end.

(** [s.split("\n").length] *)
Definition lineCount (s : string) : nat := S (countChar (byte 10) s).

Definition notNewline (c : ascii) : bool := negb (Ascii.eqb c (byte 10)).

(** Neither the rule nor what a leaf of the rule can hold has a line
    break, and only the rules of the terminals make leaves. *)
Definition oneLine (p : string * Production) : bool :=
  allChars notNewline (fst p)
  && match snd p with
     | Literals l => forallb (allChars notNewline) l
     | Pattern re => patternWithin re notNewline
     | Children ok => negb (ok [])
     end.

(* ================================================================ *)
(** ** Statements: a value without its closing quote *)
(* ================================================================ *)

(** The state over the input [pre ++ post] with the cursor after
    [pre]. *)
Definition cursorAt (pre post : string) : ParseState :=
  mkState (pre ++ post) (String.length pre).

(** At most a hundred characters, each of a string value. *)
Definition valueRun (w : string) : Prop :=
  allChars valueChar w = true /\ String.length w <= 100.

(** The items of a list: well formed, each of a rule of [rules]. *)
Definition itemsFormed (rules : list string)
    (items : list GrammarDerivationNode) : Prop :=
  Forall (fun k => wellFormed k = true /\ In (rule k) rules) items.

(** A node of rule [r] whose children are [kids] and then one string
    value or more. *)
Definition valueNode (r : string) (kids : list GrammarDerivationNode)
    (n : GrammarDerivationNode) : Prop :=
  exists t values, n = node r t (kids ++ values)%list
                   /\ values <> [] /\ valuesFormed values.

(** Induction on a tree, with the property known of the children. *)
Section NodeInduction.
Variable P : GrammarDerivationNode -> Prop.
Hypothesis step : forall r t kids, Forall P kids -> P (node r t kids).

Fixpoint node_induction (n : GrammarDerivationNode) : P n :=
  match n with
  | node r t kids =>
      step r t
        ((fix all (l : list GrammarDerivationNode) : Forall P l :=
            match l with
            | [] => Forall_nil P
            | k :: l' => Forall_cons k (node_induction k) (all l')
            end) kids)
  end.
End NodeInduction.

(* ================================================================ *)
(** ** Statements: the parentheses of the input *)
(* ================================================================ *)

(** The number of [c] among the first [n] characters of [s]. *)
Fixpoint countIn (c : ascii) (s : string) (n : nat) {struct n} : nat :=
  match n, s with
  | S n', String a s' => (if Ascii.eqb a c then 1 else 0) + countIn c s' n'
  | _, _ => 0
  end.

(** As many parentheses open as close between the offsets [a] and [b]
    of [s]. *)
Definition level (s : string) (a b : nat) : Prop :=
  countIn "(" s b + countIn ")" s a = countIn ")" s b + countIn "(" s a.

(** A step is [balanced] when, on a result that [ok] holds of, it has
    moved the cursor over as many opening as closing parentheses. *)
Definition balanced {A : Type} (ok : A -> bool) (p : parser A) : Prop :=
  forall st r st', p st = (r, st') -> ok r = true ->
    level (input st) (pos st) (pos st').

Definition isSome {A : Type} (r : option A) : bool :=
  match r with Some _ => true | None => false end.

Definition always {A : Type} (r : A) : bool := true.

(** As many of each in [m]. *)
Definition evenParens (m : string) : bool :=
  Nat.eqb (countChar "(" m) (countChar ")" m).

Definition notParen (c : ascii) : bool :=
  negb (Ascii.eqb c "(") && negb (Ascii.eqb c ")").

(* ================================================================ *)
(** ** Statements: group and order items, read from the input *)
(* ================================================================ *)

(** [c] is the longest literal of [cands] at the cursor of [st]. *)
Definition longestAt (cands : list string) (st : ParseState) (c : string)
  : Prop :=
  In c cands /\ atCursor st c
  /\ forall d, In d cands -> atCursor st d ->
               String.length d <= String.length c.

(** No literal of [cands] is at the cursor of [st]. *)
Definition noneAt (cands : list string) (st : ParseState) : Prop :=
  forall d, In d cands -> ~ atCursor st d.

(** [a] is what the pattern of an alias matches at the cursor of [st];
    the pattern matches nothing there. *)
Definition aliasAt (st : ParseState) (a : string) : Prop :=
  exec reAlias (remaining st) = Some a.

Definition noAliasAt (st : ParseState) : Prop :=
  exec reAlias (remaining st) = None.

(** [base] is the aggregate expression at the cursor of [st]: the
    longest aggregate function there, an opening parenthesis, the longest
    known column after it if there is one, and a closing parenthesis. *)
Definition aggExprAt (st : ParseState) (base : GrammarDerivationNode)
  : Prop :=
  exists f,
    longestAt AGG_FUNCS st f
    /\ atCursor (advance (String.length f) st) "("
    /\ let inside := advance (String.length f + 1) st in
       (exists col,
          longestAt KNOWN_COLUMNS inside col
          /\ atCursor (advance (String.length col) inside) ")"
          /\ base = node "agg_expr" (f ++ "(" ++ col ++ ")")
                      [leaf "agg_func" f; leaf "column_ref" col])
       \/ (noneAt KNOWN_COLUMNS inside /\ atCursor inside ")"
           /\ base = node "agg_expr" (f ++ "()") [leaf "agg_func" f]).

Definition noAggExprAt (st : ParseState) : Prop :=
  forall base, ~ aggExprAt st base.

(** The child of a group item: the date truncation at the cursor; if
    there is none, the known column at the cursor; if there is none
    either, the alias at the cursor. *)
Definition groupChildAt (st : ParseState) (c : GrammarDerivationNode)
  : Prop :=
  (exists d, c = leaf "date_trunc_expr" d /\ longestAt DATE_TRUNC_EXPRS st d)
  \/ (noneAt DATE_TRUNC_EXPRS st
      /\ exists col, c = leaf "column_ref" col
                     /\ longestAt KNOWN_COLUMNS st col)
  \/ (noneAt DATE_TRUNC_EXPRS st /\ noneAt KNOWN_COLUMNS st
      /\ exists a, c = leaf "alias" a /\ aliasAt st a).

(** [n] is the group item at the cursor of [st], and [st'] the cursor
    after its text. *)
Definition groupItemAt (st : ParseState) (n : GrammarDerivationNode)
    (st' : ParseState) : Prop :=
  exists c, n = node "group_item" (matchedText c) [c]
            /\ st' = advance (String.length (matchedText c)) st
            /\ groupChildAt st c.

(** The base of an order item: the aggregate expression at the cursor;
    if there is none, the known column at the cursor; if there is none
    either, the alias at the cursor. *)
Definition orderBaseAt (st : ParseState) (base : GrammarDerivationNode)
  : Prop :=
  aggExprAt st base
  \/ (noAggExprAt st
      /\ exists col, base = leaf "column_ref" col
                     /\ longestAt KNOWN_COLUMNS st col)
  \/ (noAggExprAt st /\ noneAt KNOWN_COLUMNS st
      /\ exists a, base = leaf "alias" a /\ aliasAt st a).

(** The direction after the base, at the cursor of [st]: [" DESC"] if it
    is there; if not, [" ASC"] if it is there; otherwise none. *)
Definition directionAt (st : ParseState)
    (dir : list GrammarDerivationNode) (suffix : string) (st' : ParseState)
  : Prop :=
  (atCursor st " DESC" /\ dir = [leaf "direction" "DESC"]
   /\ suffix = " DESC" /\ st' = advance 5 st)
  \/ (~ atCursor st " DESC" /\ atCursor st " ASC"
      /\ dir = [leaf "direction" "ASC"] /\ suffix = " ASC"
      /\ st' = advance 4 st)
  \/ (~ atCursor st " DESC" /\ ~ atCursor st " ASC"
      /\ dir = [] /\ suffix = EmptyString /\ st' = st).

(** [n] is the order item at the cursor of [st], and [st'] the cursor
    after its text. *)
Definition orderItemAt (st : ParseState) (n : GrammarDerivationNode)
    (st' : ParseState) : Prop :=
  exists base dir suffix,
    n = node "order_item" (matchedText base ++ suffix) (base :: dir)
    /\ orderBaseAt st base
    /\ directionAt (advance (String.length (matchedText base)) st)
         dir suffix st'.

(* ================================================================ *)
(** * Properties *)
(* ================================================================ *)

(** ** The cursor discipline of the parser *)

Create HintDb parsers.

Lemma backtracks_steady p : backtracks p -> steady p.
Proof. intros H st r st' E. apply H in E. tauto. Qed.

(** Break the next call or test of the function under study. *)
Ltac break_step :=
  match goal with
  | H : context [match ?c with _ => _ end] |- _ =>
      match type of c with
      | (_ * ParseState)%type => destruct c as [? ?] eqn:?
      | _ => destruct c eqn:?
      end
  | H : (_, _) = (_, _) |- _ => inversion H; subst; clear H
  end.

(** Turn the equation of a call into what its parser guarantees. *)
Ltac use_call E :=
  match type of E with
  | ?p ?s = (_, _) =>
      let H := fresh "Hp" in
      first
        [ assert (H : backtracks p) by (eauto with parsers nocore);
          apply H in E
        | assert (H : steady p) by (eauto with parsers nocore);
          apply H in E ];
      clear H
  end.

Ltac use_calls :=
  repeat match goal with
  | E : _ _ = (_, _) |- _ => use_call E
  end.

Ltac settle :=
  unfold save, restore, advance in *; cbn [input pos] in *;
  repeat match goal with
  | H : _ /\ _ |- _ => destruct H
  | H : ?x = ?x -> _ |- _ => specialize (H eq_refl)
  | H : Some _ = None -> _ |- _ => clear H
  | H : None = Some _ |- _ => discriminate H
  | H : Some _ = None |- _ => discriminate H
  end;
  repeat split; intros; try discriminate; try congruence; try lia;
  try (intuition (congruence || lia)).

Ltac cursor := repeat break_step; use_calls; settle.

Lemma matchLiteral_steady str : steady (matchLiteral str).
Proof.
  intros st r st' E. unfold matchLiteral in E.
  destruct (startsWith _ _ _); inversion E; subst; cbn;
    (split; [reflexivity | lia]).
Qed.
#[export] Hint Resolve matchLiteral_steady : parsers.

Lemma matchLiteral_false str st st' :
  matchLiteral str st = (false, st') -> st' = st.
Proof.
  unfold matchLiteral. destruct (startsWith _ _ _); congruence.
Qed.

Lemma matchFirst_backtracks_gen cands st r st' :
  matchFirst cands st = (r, st') ->
  input st' = input st /\ pos st <= pos st' /\ (r = None -> st' = st).
Proof.
  revert st. induction cands as [|c cands IH]; intros st E; cbn in E.
  - inversion E; subst. auto.
  - destruct (matchLiteral c st) as [ok st1] eqn:E1. destruct ok.
    + inversion E; subst. apply matchLiteral_steady in E1.
      repeat split; try tauto. discriminate.
    + apply matchLiteral_false in E1. subst st1. auto.
Qed.

(** The terminal parsers move the cursor only on a match. *)
Lemma regexTerminal_backtracks r re : backtracks (regexTerminal r re).
Proof.
  intros st res st' E. unfold regexTerminal, matchRegex in E.
  destruct (exec re (remaining st)) as [[|c m]|]; inversion E; subst; cbn;
    repeat split; try lia; discriminate.
Qed.
#[export] Hint Resolve regexTerminal_backtracks : parsers.

Lemma parseNumber_backtracks : backtracks parseNumber.
Proof. apply regexTerminal_backtracks. Qed.
Lemma parseAlias_backtracks : backtracks parseAlias.
Proof. apply regexTerminal_backtracks. Qed.
Lemma parseStringValue_backtracks : backtracks parseStringValue.
Proof. apply regexTerminal_backtracks. Qed.
Lemma parseDateLiteral_backtracks : backtracks parseDateLiteral.
Proof. apply regexTerminal_backtracks. Qed.
#[export] Hint Resolve parseNumber_backtracks parseAlias_backtracks
  parseStringValue_backtracks parseDateLiteral_backtracks : parsers.

Lemma matchFirst_steady cands : steady (matchFirst cands).
Proof. intros st r st' E. apply matchFirst_backtracks_gen in E. tauto. Qed.
#[export] Hint Resolve matchFirst_steady : parsers.

Lemma parseColumnRef_backtracks : backtracks parseColumnRef.
Proof. intros st r st' E. unfold parseColumnRef in E. cursor. Qed.
#[export] Hint Resolve parseColumnRef_backtracks : parsers.

#[export] Hint Resolve backtracks_steady : parsers.

Lemma parseAggFunc_backtracks : backtracks parseAggFunc.
Proof.
  intros st r st' E. unfold parseAggFunc in E.
  destruct (matchFirst _ st) as [c st1] eqn:E1.
  apply matchFirst_backtracks_gen in E1. destruct E1 as (? & ? & H).
  destruct c; inversion E; subst; repeat split; auto; try discriminate.
  intros _. now rewrite H.
Qed.

Lemma parseDateTruncExpr_backtracks : backtracks parseDateTruncExpr.
Proof.
  intros st r st' E. unfold parseDateTruncExpr in E.
  destruct (matchFirst _ st) as [c st1] eqn:E1.
  apply matchFirst_backtracks_gen in E1. destruct E1 as (? & ? & H).
  destruct c; inversion E; subst; repeat split; auto; try discriminate.
  intros _. now rewrite H.
Qed.

Lemma parseCompareOp_backtracks : backtracks parseCompareOp.
Proof.
  intros st r st' E. unfold parseCompareOp in E.
  destruct (matchFirst _ st) as [c st1] eqn:E1.
  apply matchFirst_backtracks_gen in E1. destruct E1 as (? & ? & H).
  destruct c; inversion E; subst; repeat split; auto; try discriminate.
  intros _. now rewrite H.
Qed.

Lemma parseFromClause_backtracks : backtracks parseFromClause.
Proof.
  intros st r st' E. unfold parseFromClause in E.
  destruct (matchLiteral _ st) as [ok st1] eqn:E1. destruct ok.
  - apply matchLiteral_steady in E1. inversion E; subst.
    repeat split; try tauto. discriminate.
  - apply matchLiteral_false in E1. inversion E; subst. auto.
Qed.
#[export] Hint Resolve parseAggFunc_backtracks parseDateTruncExpr_backtracks
  parseCompareOp_backtracks parseFromClause_backtracks : parsers.

Lemma parseAggExpr_backtracks : backtracks parseAggExpr.
Proof. intros st r st' E. unfold parseAggExpr in E. cursor. Qed.
#[export] Hint Resolve parseAggExpr_backtracks : parsers.

Lemma aliased_steady expr : steady (aliased expr).
Proof. intros st r st' E. unfold aliased in E. cursor. Qed.
#[export] Hint Resolve aliased_steady : parsers.

Lemma parseSelectItem_backtracks : backtracks parseSelectItem.
Proof. intros st r st' E. unfold parseSelectItem in E. cursor. Qed.
#[export] Hint Resolve parseSelectItem_backtracks : parsers.

Lemma sepLoop_steady fuel sep item items :
  steady item -> steady (sepLoop fuel sep item items).
Proof.
  intros Hitem. revert items.
  induction fuel as [|fuel IH]; intros items st r st' E; cbn in E.
  - inversion E; subst. auto.
  - destruct (matchLiteral sep st) as [ok st1] eqn:E1.
    apply matchLiteral_steady in E1. destruct ok.
    + destruct (item st1) as [next st2] eqn:E2. apply Hitem in E2.
      destruct next.
      * apply IH in E. settle.
      * inversion E; subst. settle.
    + inversion E; subst. settle.
Qed.
#[export] Hint Resolve sepLoop_steady : parsers.

Lemma listClause_backtracks r keyword head sep item :
  steady item -> backtracks (listClause r keyword head sep item).
Proof.
  intros Hitem st res st' E. unfold listClause in E.
  assert (Hloop : forall fuel items, steady (sepLoop fuel sep item items))
    by auto using sepLoop_steady.
  cursor.
Qed.

Lemma parseSelectClause_backtracks : backtracks parseSelectClause.
Proof. apply listClause_backtracks. auto with parsers. Qed.
#[export] Hint Resolve parseSelectClause_backtracks : parsers.

Lemma valueLoop_steady fuel values : steady (valueLoop fuel values).
Proof.
  revert values.
  induction fuel as [|fuel IH]; intros values st r st' E; cbn in E.
  - inversion E; subst. auto.
  - destruct (matchLiteral ", '" st) as [ok st1] eqn:E1.
    apply matchLiteral_steady in E1. destruct ok.
    + destruct (parseStringValue st1) as [next st2] eqn:E2.
      apply parseStringValue_backtracks in E2. destruct next.
      * destruct (matchLiteral "'" st2) as [ok st3] eqn:E3.
        apply matchLiteral_steady in E3. destruct ok.
        -- apply IH in E. settle.
        -- inversion E; subst. settle.
      * inversion E; subst. settle.
    + inversion E; subst. settle.
Qed.
#[export] Hint Resolve valueLoop_steady : parsers.

Lemma parseValues_steady : steady parseValues.
Proof. intros st r st' E. unfold parseValues in E. cursor. Qed.
#[export] Hint Resolve parseValues_steady : parsers.

Lemma parseEquals_steady r col kids : steady (parseEquals r col kids).
Proof. intros st res st' E. unfold parseEquals in E. cursor. Qed.

Lemma parseLike_steady r col kids : steady (parseLike r col kids).
Proof. intros st res st' E. unfold parseLike in E. cursor. Qed.

Lemma parseIn_steady r col kids : steady (parseIn r col kids).
Proof. intros st res st' E. unfold parseIn in E. cursor. Qed.

Lemma parseInterval_steady : steady parseInterval.
Proof. intros st res st' E. unfold parseInterval in E. cursor. Qed.

Lemma parseBetween_steady : steady parseBetween.
Proof. intros st res st' E. unfold parseBetween in E. cursor. Qed.
#[export] Hint Resolve parseEquals_steady parseLike_steady parseIn_steady
  parseInterval_steady parseBetween_steady : parsers.

Lemma reject_backtracksTo saved : backtracksTo saved reject.
Proof. intros st r st' Hpos E. inversion E; subst. settle. Qed.

Lemma orRestore_backtracksTo saved first next :
  steady first -> backtracksTo saved next ->
  backtracksTo saved (orRestore saved first next).
Proof.
  intros Hfirst Hnext st r st' Hpos E. unfold orRestore in E.
  destruct (first st) as [r1 st1] eqn:E1. apply Hfirst in E1.
  destruct r1.
  - inversion E; subst. settle.
  - apply Hnext in E; [|reflexivity]. settle.
Qed.

Lemma stringConditionLoop_backtracksTo saved cols :
  backtracksTo saved (stringConditionLoop saved cols).
Proof.
  induction cols as [|col cols IH]; intros st r st' Hpos E; cbn in E.
  - inversion E; subst. settle.
  - apply orRestore_backtracksTo in E; try reflexivity;
      auto using orRestore_backtracksTo with parsers.
Qed.

Lemma parseStringCondition_backtracks : backtracks parseStringCondition.
Proof.
  intros st r st' E. unfold parseStringCondition in E.
  apply stringConditionLoop_backtracksTo in E; [|reflexivity]. settle.
Qed.

Lemma numericConditionLoop_from saved cols st r st' :
  saved <= pos st ->
  numericConditionLoop saved cols st = (r, st') ->
  input st' = input st /\ saved <= pos st'.
Proof.
  revert st. induction cols as [|col cols IH]; intros st Hpos E; cbn in E.
  - inversion E; subst. auto.
  - repeat break_step;
      try (apply IH in E; [|use_calls; settle]);
      use_calls; settle.
Qed.

Lemma parseNumericCondition_backtracks : backtracks parseNumericCondition.
Proof.
  intros st r st' E. unfold parseNumericCondition in E.
  destruct (numericConditionLoop _ _ st) as [r1 st1] eqn:E1.
  apply numericConditionLoop_from in E1; [|reflexivity].
  destruct r1; inversion E; subst; settle.
Qed.

Lemma parseDatetimeCondition_backtracks : backtracks parseDatetimeCondition.
Proof.
  intros st r st' E. unfold parseDatetimeCondition in E.
  apply orRestore_backtracksTo in E; try reflexivity;
    auto using orRestore_backtracksTo, reject_backtracksTo with parsers.
Qed.

Lemma parseEnumCondition_backtracks : backtracks parseEnumCondition.
Proof.
  intros st r st' E. unfold parseEnumCondition in E.
  apply orRestore_backtracksTo in E; try reflexivity;
    auto 6 using orRestore_backtracksTo, reject_backtracksTo with parsers.
Qed.
#[export] Hint Resolve parseStringCondition_backtracks
  parseNumericCondition_backtracks parseDatetimeCondition_backtracks
  parseEnumCondition_backtracks : parsers.

Lemma orElse_backtracks a b :
  backtracks a -> backtracks b -> backtracks (orElse a b).
Proof.
  intros Ha Hb st r st' E. unfold orElse in E.
  destruct (a st) as [r1 st1] eqn:E1. apply Ha in E1.
  destruct r1.
  - inversion E; subst. settle.
  - apply Hb in E. settle.
Qed.
#[export] Hint Resolve orElse_backtracks : parsers.

Lemma parseCondition_backtracks : backtracks parseCondition.
Proof. unfold parseCondition. auto with parsers. Qed.
#[export] Hint Resolve parseCondition_backtracks : parsers.

Lemma parseWhereClause_backtracks : backtracks parseWhereClause.
Proof. apply listClause_backtracks. auto with parsers. Qed.

Lemma parseGroupItem_backtracks : backtracks parseGroupItem.
Proof. intros st r st' E. unfold parseGroupItem in E. cursor. Qed.
#[export] Hint Resolve parseGroupItem_backtracks : parsers.

Lemma parseGroupClause_backtracks : backtracks parseGroupClause.
Proof. apply listClause_backtracks. auto with parsers. Qed.

Lemma parseHavingClause_backtracks : backtracks parseHavingClause.
Proof. intros st r st' E. unfold parseHavingClause in E. cursor. Qed.

Lemma parseOrderBase_backtracks : backtracks parseOrderBase.
Proof. unfold parseOrderBase. auto with parsers. Qed.
#[export] Hint Resolve parseOrderBase_backtracks : parsers.

Lemma parseOrderItem_backtracks : backtracks parseOrderItem.
Proof. intros st r st' E. unfold parseOrderItem in E. cursor. Qed.
#[export] Hint Resolve parseOrderItem_backtracks : parsers.

Lemma parseOrderClause_backtracks : backtracks parseOrderClause.
Proof. apply listClause_backtracks. auto with parsers. Qed.

Lemma parseLimitClause_backtracks : backtracks parseLimitClause.
Proof. intros st r st' E. unfold parseLimitClause in E. cursor. Qed.
#[export] Hint Resolve parseWhereClause_backtracks parseGroupClause_backtracks
  parseHavingClause_backtracks parseOrderClause_backtracks
  parseLimitClause_backtracks : parsers.

(** ** The loops never run out of iterations *)

Lemma slice_length s n : String.length (slice s n) = String.length s - n.
Proof.
  revert s. induction n as [|n IH]; intros s; destruct s as [|c s]; cbn;
    auto; lia.
Qed.

Lemma isPrefix_length p s :
  isPrefix p s = true -> String.length p <= String.length s.
Proof.
  revert s. induction p as [|a p IH]; intros s H; cbn in *.
  - lia.
  - destruct s as [|b s]; [discriminate|].
    apply andb_true_iff in H. destruct H as [_ H]. apply IH in H. cbn. lia.
Qed.

Lemma matchLiteral_true str st st' :
  matchLiteral str st = (true, st') ->
  startsWith (input st) str (pos st) = true
  /\ st' = advance (String.length str) st
  /\ String.length str <= String.length (input st) - pos st.
Proof.
  unfold matchLiteral. destruct (startsWith _ _ _) eqn:H; [|discriminate].
  intros E. inversion E; subst. repeat split.
  unfold startsWith in H. apply isPrefix_length in H.
  now rewrite slice_length in H.
Qed.

(** Any two budgets above the length of the remaining input give the
    same run of the separator loop: the loop ends on a missing separator
    or a failed item, never on its budget. *)
Lemma sepLoop_fuel sep item :
  1 <= String.length sep -> steady item ->
  forall f1 f2 items st,
    String.length (input st) - pos st < f1 ->
    String.length (input st) - pos st < f2 ->
    sepLoop f1 sep item items st = sepLoop f2 sep item items st.
Proof.
  intros Hsep Hitem. induction f1 as [|f1 IH]; intros f2 items st H1 H2.
  - lia.
  - destruct f2 as [|f2]; [lia|]. cbn.
    destruct (matchLiteral sep st) as [ok st1] eqn:E1. destruct ok; auto.
    apply matchLiteral_true in E1. destruct E1 as (_ & -> & Hlen).
    destruct (item _) as [next st2] eqn:E2. destruct next; auto.
    apply Hitem in E2. cbn in E2. destruct E2 as [Hin Hpos].
    apply IH; rewrite Hin; lia.
Qed.

Lemma valueLoop_fuel f1 :
  forall f2 values st,
    String.length (input st) - pos st < f1 ->
    String.length (input st) - pos st < f2 ->
    valueLoop f1 values st = valueLoop f2 values st.
Proof.
  induction f1 as [|f1 IH]; intros f2 values st H1 H2.
  - lia.
  - destruct f2 as [|f2]; [lia|]. cbn.
    destruct (matchLiteral ", '" st) as [ok st1] eqn:E1. destruct ok; auto.
    apply matchLiteral_true in E1. destruct E1 as (_ & -> & Hlen). cbn in Hlen.
    destruct (parseStringValue _) as [next st2] eqn:E2. destruct next; auto.
    apply parseStringValue_backtracks in E2. cbn in E2.
    destruct E2 as (Hin & Hpos & _).
    destruct (matchLiteral "'" st2) as [ok st3] eqn:E3. destruct ok; auto.
    apply matchLiteral_steady in E3. destruct E3 as [Hin3 Hpos3].
    apply IH; rewrite Hin3, Hin; lia.
Qed.

(** [loopFuel] is such a budget, for the loops of every clause. *)
Lemma loopFuel_enough sep item items st fuel :
  1 <= String.length sep -> steady item -> loopFuel st <= fuel ->
  sepLoop fuel sep item items st = sepLoop (loopFuel st) sep item items st.
Proof.
  intros Hsep Hitem Hfuel. unfold loopFuel in *.
  apply sepLoop_fuel; auto; lia.
Qed.

Lemma loopFuel_enough_values values st fuel :
  loopFuel st <= fuel ->
  valueLoop fuel values st = valueLoop (loopFuel st) values st.
Proof.
  intros Hfuel. unfold loopFuel in *. apply valueLoop_fuel; lia.
Qed.

(** ** The parser on the strings of the repository's test script *)

Example sorted_columns :
  sortByLengthDesc KNOWN_COLUMNS =
  [ "actor_login"; "is_private"; "created_at"; "repo_name"; "number";
    "action"; "title"; "body"; "type"; "ref"; "id" ].
Proof. reflexivity. Qed.

Example sorted_agg_funcs :
  sortByLengthDesc AGG_FUNCS =
  ["uniqExact"; "count"; "uniq"; "sum"; "avg"; "min"; "max"].
Proof. reflexivity. Qed.

Example valid_query_having :
  isValidGrammarSQL
    "SELECT actor_login, count() AS prs FROM github_events WHERE type = 'PullRequestEvent' GROUP BY actor_login HAVING count() > 10 ORDER BY prs DESC LIMIT 20"
  = true.
Proof. vm_compute. reflexivity. Qed.

Example valid_query_interval :
  isValidGrammarSQL
    "SELECT repo_name, count() AS issues FROM github_events WHERE type = 'IssuesEvent' AND action = 'opened' AND created_at >= now() - INTERVAL 30 DAY GROUP BY repo_name ORDER BY issues DESC LIMIT 10"
  = true.
Proof. vm_compute. reflexivity. Qed.

Example dangerous_query_union :
  isValidGrammarSQL
    "SELECT repo_name FROM github_events UNION SELECT password FROM users"
  = false.
Proof. vm_compute. reflexivity. Qed.

Example trim_unicode :
  trim (String (byte 226) (String (byte 128) (String (byte 168) " a b "))
        ++ String (byte 194) (String (byte 160) EmptyString))
  = "a b".
Proof. vm_compute. reflexivity. Qed.

(** ** What a successful terminal has matched *)

Lemma In_insertByLength x y l : In x (insertByLength y l) -> x = y \/ In x l.
Proof.
  induction l as [|z l IH]; cbn.
  - intuition.
  - destruct (Nat.leb _ _); cbn; intuition.
Qed.

Lemma In_sortByLengthDesc x l : In x (sortByLengthDesc l) -> In x l.
Proof.
  induction l as [|y l IH]; cbn; auto.
  intros H. apply In_insertByLength in H. intuition.
Qed.

Lemma matchFirst_some cands st c st' :
  matchFirst cands st = (Some c, st') ->
  In c cands
  /\ startsWith (input st) c (pos st) = true
  /\ st' = advance (String.length c) st.
Proof.
  induction cands as [|d cands IH]; cbn; [discriminate|].
  destruct (matchLiteral d st) as [ok st1] eqn:E1. destruct ok.
  - intros E. inversion E; subst. apply matchLiteral_true in E1. intuition.
  - apply matchLiteral_false in E1. subst st1. intros E. apply IH in E.
    intuition.
Qed.

(* ================================================================ *)
(** ** Coverage of the verifier *)
(* ================================================================ *)

Lemma indexOf_head pat s : isPrefix pat s = true -> indexOf pat s = Some 0.
Proof. intros H. destruct s; cbn [indexOf]; now rewrite H. Qed.

Lemma startsWith_includes s str k :
  startsWith s str k = true -> includes s str = true.
Proof.
  unfold startsWith, includes. revert s.
  induction k as [|k IH]; intros s H.
  - destruct s; cbn [slice] in H; now rewrite (indexOf_head _ _ H).
  - destruct s as [|c s]; cbn [slice] in H.
    + now rewrite (indexOf_head _ _ H).
    + cbn [indexOf]. destruct (isPrefix str (String c s)); auto.
      specialize (IH s H). destruct (indexOf str s); [reflexivity|discriminate].
Qed.

(** Whatever the verifier accepts is, once trimmed, a [SELECT] statement
    over [github_events]: no other statement kind and no other table can
    be accepted. *)
Lemma accepted_shape sql :
  isValidGrammarSQL sql = true ->
  startsWith (trim sql) "SELECT " 0 = true
  /\ includes (trim sql) " FROM github_events" = true.
Proof.
  unfold isValidGrammarSQL, parseQuery, parseQueryRun, parseQueryFrom.
  destruct (parseSelectClause (newState (trim sql))) as [[sel|] st1] eqn:E1;
    cbn [fst]; try discriminate.
  destruct (parseFromClause st1) as [[frm|] st2] eqn:E2;
    cbn [fst]; try discriminate.
  intros _. split.
  - unfold parseSelectClause, listClause in E1.
    destruct (matchLiteral "SELECT " (newState (trim sql))) as [[|] st0] eqn:E0.
    + apply matchLiteral_true in E0. apply E0.
    + cbn [negb] in E1. discriminate E1.
  - apply parseSelectClause_backtracks in E1. destruct E1 as (Hin & _).
    unfold parseFromClause in E2.
    destruct (matchLiteral " FROM github_events" st1) as [[|] st3] eqn:E3;
      [|discriminate].
    apply matchLiteral_true in E3. destruct E3 as (Hstart & _).
    rewrite Hin in Hstart. cbn [input newState] in Hstart.
    eapply startsWith_includes; eauto.
Qed.

(** Claim C1.  Each of the six dangerous strings of the negative coverage
    list (DDL, [SELECT *], statement chaining, a join, a subquery in a
    [WITH], a system table) is rejected by [isValidGrammarSQL]. *)
Theorem C1_negative_coverage :
  Forall (fun sql => isValidGrammarSQL sql = false)
    [ "DROP TABLE github_events";
      "SELECT * FROM github_events";
      "SELECT 1; DROP TABLE github_events";
      "SELECT a.x FROM github_events a JOIN t b ON a.x=b.x";
      "WITH t AS (SELECT 1) SELECT * FROM t";
      "SELECT * FROM system.processes" ].
Proof. repeat constructor. Qed.

(** Claim C4.  Each of the three queries of the positive coverage list is
    consumed entirely by [parseQuery], which returns a node whose rule is
    ["query"], and is accepted by [isValidGrammarSQL]. *)
Theorem C4_positive_coverage :
  Forall (fun sql => fullyConsumed sql /\ isValidGrammarSQL sql = true)
    [ "SELECT count() AS total FROM github_events WHERE type = 'PushEvent'";
      "SELECT repo_name, count() AS pushes FROM github_events WHERE type = 'PushEvent' GROUP BY repo_name ORDER BY pushes DESC LIMIT 10";
      "SELECT toStartOfHour(created_at) AS hour, count() AS events FROM github_events GROUP BY hour ORDER BY hour ASC" ].
Proof.
  repeat constructor; unfold fullyConsumed;
    (do 2 eexists; split; [vm_compute; reflexivity|]; split; reflexivity).
Qed.

(** Claim C5.  The separator of a list is consumed before the next item
    is tried and is not given back when the item fails: on the query with
    a dangling [" AND "] (two spaces before [GROUP BY]) [parseWhereClause],
    entered after the FROM clause at offset 38, succeeds with the single
    condition [id = 5] and leaves the cursor at offset 56, after the
    separator; the query is accepted.  The [", "] loop of
    [parseSelectClause] accepts a dangling comma the same way. *)
Theorem C5_dangling_separator_accepted :
  let sql :=
    "SELECT count() AS c FROM github_events WHERE id = 5 AND  GROUP BY x" in
  isValidGrammarSQL sql = true
  /\ parseWhereClause (mkState sql 38)
     = (Some (node "where_clause" "WHERE id = 5"
                [node "numeric_condition" "id = 5"
                   [leaf "numeric_col" "id"; leaf "compare_op" "=";
                    leaf "number" "5"]]),
        mkState sql 56)
  /\ slice sql 56 = " GROUP BY x"
  /\ parseCondition (mkState sql 56) = (None, mkState sql 56)
  /\ isValidGrammarSQL "SELECT id,  FROM github_events" = true
  /\ parseSelectClause (newState "SELECT id,  FROM github_events")
     = (Some (node "select_clause" "SELECT id"
                [node "select_item" "id" [leaf "column_ref" "id"]]),
        mkState "SELECT id,  FROM github_events" 11).
Proof. vm_compute. repeat split. Qed.

(** Claim C10.  On a valid prefix followed by unconsumed input
    [parseQuery] returns a node of rule ["query (partial)"] over the clauses
    it matched, and [isValidGrammarSQL] rejects the input. *)
Theorem C10_partial_parse :
  let sql := "SELECT count() AS total FROM github_events EXTRA_GARBAGE" in
  parseQuery sql
  = Some (node "query (partial)" sql
            [ node "select_clause" "SELECT count() AS total"
                [node "select_item" "count() AS total"
                   [ node "agg_expr" "count()" [leaf "agg_func" "count"];
                     leaf "alias" "total" ]];
              leaf "from_clause" "FROM github_events" ])
  /\ isValidGrammarSQL sql = false.
Proof. vm_compute. split; reflexivity. Qed.

(* ================================================================ *)
(** ** The text of the root node *)
(* ================================================================ *)

(** Claim C3, as stated, fails: the root node carries the input as it was
    given, not the trimmed input.  A query with a trailing space is
    accepted, its root text is the query with the space, and trimming
    removes the space. *)
Lemma C3_root_text_is_not_trimmed :
  let sql := "SELECT id FROM github_events " in
  isValidGrammarSQL sql = true
  /\ option_map matchedText (parseQuery sql) = Some sql
  /\ trim sql = "SELECT id FROM github_events"
  /\ option_map matchedText (parseQuery sql) <> Some (trim sql).
Proof. vm_compute. repeat split. discriminate. Qed.

Lemma parseQuery_root_text sql n :
  parseQuery sql = Some n -> matchedText n = sql.
Proof.
  unfold parseQuery, parseQueryRun, parseQueryFrom. intros E.
  repeat break_step; cbn in E; try discriminate;
    inversion E; subst; reflexivity.
Qed.

(** Claim C3, amended.  For every string accepted by [isValidGrammarSQL]
    the root node has rule ["query"] and its [matchedText] is the original
    input, untrimmed; it is the trimmed input exactly when trimming leaves
    the input unchanged. *)
Theorem C3_root_text_is_input (sql : string) :
  isValidGrammarSQL sql = true ->
  exists n, parseQuery sql = Some n
            /\ rule n = "query"
            /\ matchedText n = sql
            /\ (matchedText n = trim sql <-> trim sql = sql).
Proof.
  unfold isValidGrammarSQL. destruct (parseQuery sql) as [n|] eqn:E;
    [|discriminate].
  intros H. apply String.eqb_eq in H. apply parseQuery_root_text in E.
  exists n. repeat split; auto; rewrite E; auto.
Qed.

Lemma C3_root_text_is_input_witness :
  exists n, parseQuery "  SELECT id FROM github_events" = Some n
            /\ rule n = "query"
            /\ matchedText n = "  SELECT id FROM github_events"
            /\ (matchedText n = trim "  SELECT id FROM github_events"
                <-> trim "  SELECT id FROM github_events"
                    = "  SELECT id FROM github_events").
Proof.
  apply (C3_root_text_is_input "  SELECT id FROM github_events").
  vm_compute. reflexivity.
Defined.

(* ================================================================ *)
(** ** Group and order items *)
(* ================================================================ *)

(** Claim C6, as stated, fails.  [parseGroupItem] also accepts an alias
    (as in [GROUP BY hour]); [parseOrderItem] accepts an aggregate
    expression or an alias, and of a date truncation it matches only the
    alias [to]. *)
Lemma C6_alias_and_aggregate_items :
  parseGroupItem (newState "hour")
  = (Some (node "group_item" "hour" [leaf "alias" "hour"]), mkState "hour" 4)
  /\ parseOrderItem (newState "count() DESC")
     = (Some (node "order_item" "count() DESC"
                [ node "agg_expr" "count()" [leaf "agg_func" "count"];
                  leaf "direction" "DESC" ]),
        mkState "count() DESC" 12)
  /\ parseOrderItem (newState "toStartOfHour(created_at)")
     = (Some (node "order_item" "to" [leaf "alias" "to"]),
        mkState "toStartOfHour(created_at)" 2)
  /\ ~ groupItemsAreColumnsOrDateTruncs
  /\ ~ orderItemsAreColumnsOrDateTruncs.
Proof.
  split; [vm_compute; reflexivity|].
  split; [vm_compute; reflexivity|].
  split; [vm_compute; reflexivity|].
  split.
  - intros H.
    destruct (H (newState "hour") _ _ eq_refl) as (c & Hc & [Hk|Hk]);
      cbn in Hc; inversion Hc; subst c;
      destruct Hk as (x & _ & Hx); discriminate Hx.
  - intros H.
    destruct (H (newState "count() DESC") _ _ eq_refl)
      as (c & dir & Hc & [Hk|Hk]);
      cbn in Hc; inversion Hc; subst c;
      destruct Hk as (x & _ & Hx); discriminate Hx.
Qed.

Lemma append_empty_r s : s ++ EmptyString = s.
Proof. induction s as [|c s IH]; cbn; congruence. Qed.

(* ================================================================ *)
(** ** Operator tie-break *)
(* ================================================================ *)

Lemma startsWith_head (s : string) (k : nat) (a : ascii) (rest : string) :
  startsWith s (String a rest) k = true ->
  exists r, slice s k = String a r /\ isPrefix rest r = true.
Proof.
  unfold startsWith. destruct (slice s k) as [|b r]; cbn; [discriminate|].
  intros H. apply andb_true_iff in H. destruct H as [Hab Hrest].
  apply Ascii.eqb_eq in Hab. subst b. eauto.
Qed.

(** Claim C8.  [COMPARE_OPS] lists the two-character operators first: on
    any input that begins with [!=], [>=] or [<=] at the cursor,
    [parseCompareOp] returns that operator whole and advances the cursor
    by two; so [id != 5] parses [!=] as one operator. *)
Theorem C8_longest_operator_first :
  (forall st op,
      In op ["!="; ">="; "<="] ->
      startsWith (input st) op (pos st) = true ->
      parseCompareOp st = (Some (leaf "compare_op" op), advance 2 st))
  /\ parseNumericCondition (newState "id != 5")
     = (Some (node "numeric_condition" "id != 5"
                [ leaf "numeric_col" "id"; leaf "compare_op" "!=";
                  leaf "number" "5" ]),
        mkState "id != 5" 7).
Proof.
  split; [|vm_compute; reflexivity].
  intros st op Hop H.
  unfold parseCompareOp, COMPARE_OPS. cbn [matchFirst]. unfold matchLiteral.
  destruct Hop as [<-|[<-|[<-|[]]]].
  - rewrite H. reflexivity.
  - assert (Hne : startsWith (input st) "!=" (pos st) = false).
    { destruct (startsWith_head _ _ _ _ H) as (r & Hr & _).
      unfold startsWith. rewrite Hr. reflexivity. }
    rewrite Hne. cbn iota. rewrite H. reflexivity.
  - assert (Hne : startsWith (input st) "!=" (pos st) = false
                  /\ startsWith (input st) ">=" (pos st) = false).
    { destruct (startsWith_head _ _ _ _ H) as (r & Hr & _).
      unfold startsWith. rewrite Hr. split; reflexivity. }
    destruct Hne as [Hne1 Hne2].
    rewrite Hne1. cbn iota. rewrite Hne2. cbn iota. rewrite H. reflexivity.
Qed.

Lemma C8_longest_operator_first_witness :
  parseCompareOp (mkState "id >= 5" 3)
  = (Some (leaf "compare_op" ">="), advance 2 (mkState "id >= 5" 3)).
Proof.
  apply (proj1 C8_longest_operator_first (mkState "id >= 5" 3) ">=").
  - cbn. auto.
  - vm_compute. reflexivity.
Defined.

(* ================================================================ *)
(** ** No side effects on failure *)
(* ================================================================ *)

Lemma backtracks_noSideEffects p : backtracks p -> noSideEffectsOnFailure p.
Proof.
  intros H st Hnone. destruct (p st) as [r st'] eqn:E. cbn in *.
  apply H in E. tauto.
Qed.

(** Claim C9.  Every rule function of the parser, the terminal parsers
    included, leaves the cursor at its entry value when it returns [None].
    The functions are total: rejection is a value, never an exception. *)
Theorem C9_no_side_effects_on_failure :
  Forall noSideEffectsOnFailure ruleFunctions.
Proof.
  unfold ruleFunctions.
  repeat (constructor; [apply backtracks_noSideEffects; auto with parsers|]).
  constructor.
Qed.

Lemma C9_no_side_effects_on_failure_witness :
  pos (snd (parseWhereClause (mkState "x WHERE id = " 1))) = 1.
Proof.
  pose proof C9_no_side_effects_on_failure as H.
  unfold ruleFunctions in H.
  do 17 (apply Forall_inv_tail in H). apply Forall_inv in H.
  apply (H (mkState "x WHERE id = " 1)).
  vm_compute. reflexivity.
Defined.

(* ================================================================ *)
(** ** Deciding the language of the grammar *)
(* ================================================================ *)

Module LarkFacts.
Import Lark.

Lemma append_nil_inv s1 s2 : s1 ++ s2 = EmptyString -> s1 = EmptyString /\ s2 = EmptyString.
Proof. destruct s1; cbn; intros H; [auto|discriminate]. Qed.

Lemma append_cons_inv s1 s2 x s :
  s1 ++ s2 = String x s ->
  (s1 = EmptyString /\ s2 = String x s)
  \/ (exists s1', s1 = String x s1' /\ s = s1' ++ s2).
Proof.
  destruct s1 as [|y s1]; cbn; intros H; [auto|].
  inversion H; subst. right. eauto.
Qed.

Lemma nullable_derives r : nullable r = true -> derives r EmptyString.
Proof.
  induction r; cbn; intros H; try discriminate.
  - constructor.
  - apply andb_true_iff in H. destruct H.
    change EmptyString with (EmptyString ++ EmptyString). constructor; auto.
  - apply orb_true_iff in H. destruct H; [apply d_alt_l|apply d_alt_r]; auto.
  - constructor.
Qed.

Lemma derives_nullable r s : derives r s -> s = EmptyString -> nullable r = true.
Proof.
  induction 1; cbn; intros Hs; auto; try discriminate.
  - apply append_nil_inv in Hs. destruct Hs. rewrite IHderives1, IHderives2; auto.
  - rewrite IHderives; auto.
  - rewrite IHderives; auto using orb_true_r.
Qed.

Lemma nullable_correct r : nullable r = true <-> derives r EmptyString.
Proof. split; eauto using nullable_derives, derives_nullable. Qed.

Lemma derives_Void s : ~ derives Void s.
Proof. intros H. inversion H. Qed.

Lemma derives_Eps s : derives Eps s -> s = EmptyString.
Proof. intros H. inversion H. reflexivity. Qed.

Ltac no_void :=
  match goal with
  | H : derives Void _ |- _ => inversion H
  end.

Lemma mkSeq_correct a b s : derives (mkSeq a b) s <-> derives (Seq a b) s.
Proof.
  split.
  - intros H.
    destruct a; cbn in H; try no_void;
      destruct b; cbn in H; try no_void; auto;
      change s with (EmptyString ++ s); constructor; auto using d_eps.
  - intros H. inversion H; subst.
    destruct a; try no_void; destruct b; try no_void; cbn;
      try (constructor; assumption);
      repeat match goal with
      | H1 : derives Eps _ |- _ => apply derives_Eps in H1; subst
      end;
      cbn; auto using d_eps.
Qed.

Lemma mkAlt_correct a b s : derives (mkAlt a b) s <-> derives (Alt a b) s.
Proof.
  split.
  - intros H.
    destruct a; cbn in H; auto using d_alt_r;
      destruct b; cbn in H; auto using d_alt_l.
  - intros H. inversion H; subst;
      destruct a; try no_void; destruct b; try no_void; cbn;
      auto using d_alt_l, d_alt_r.
Qed.

Lemma derives_Star_cons a x s :
  derives (Star a) (String x s) ->
  exists s1 s2, s = s1 ++ s2 /\ derives a (String x s1)
                /\ derives (Star a) s2.
Proof.
  intros H. remember (Star a) as r eqn:Hr. remember (String x s) as w eqn:Hw.
  revert s Hw.
  induction H; intros s0 Hw; try discriminate.
  inversion Hr; subst a0.
  apply append_cons_inv in Hw. destruct Hw as [[-> ->]|(s1' & -> & ->)].
  - apply IHderives2; auto.
  - eauto.
Qed.

Lemma derives_Seq_inv a b s :
  derives (Seq a b) s ->
  exists s1 s2, s = s1 ++ s2 /\ derives a s1 /\ derives b s2.
Proof. intros H. inversion H; subst. eauto. Qed.

Lemma derives_Alt_inv a b s :
  derives (Alt a b) s -> derives a s \/ derives b s.
Proof. intros H. inversion H; subst; auto. Qed.

Lemma derives_Chr_inv c s :
  derives (Chr c) s -> exists a, s = String a EmptyString /\ c a = true.
Proof. intros H. inversion H; subst. eauto. Qed.

Lemma deriv_correct x r : forall s,
  derives (deriv x r) s <-> derives r (String x s).
Proof.
  induction r as [| |c|a IHa b IHb|a IHa b IHb|a IHa]; intros s; cbn.
  - split; intros H; inversion H.
  - split; intros H; inversion H.
  - destruct (c x) eqn:Hc; split; intros H.
    + apply derives_Eps in H. subst. constructor. auto.
    + apply derives_Chr_inv in H. destruct H as (a & Ha & _).
      inversion Ha; subst. constructor.
    + inversion H.
    + apply derives_Chr_inv in H. destruct H as (a & Ha & Hca).
      inversion Ha; subst. congruence.
  - rewrite mkAlt_correct. split; intros H.
    + apply derives_Alt_inv in H. destruct H as [H|H].
      * apply mkSeq_correct, derives_Seq_inv in H.
        destruct H as (s1 & s2 & -> & H1 & H2).
        apply IHa in H1. change (derives (Seq a b) (String x s1 ++ s2)).
        constructor; auto.
      * destruct (nullable a) eqn:Hn; [|inversion H].
        apply IHb in H. apply nullable_derives in Hn.
        change (derives (Seq a b) (EmptyString ++ String x s)). constructor; auto.
    + apply derives_Seq_inv in H. destruct H as (s1 & s2 & Hs & H1 & H2).
      symmetry in Hs. apply append_cons_inv in Hs.
      destruct Hs as [[-> ->]|(s1' & -> & ->)].
      * apply d_alt_r. rewrite (derives_nullable H1 eq_refl).
        apply IHb. auto.
      * apply d_alt_l. apply mkSeq_correct. constructor; auto.
        apply IHa. auto.
  - rewrite mkAlt_correct. split; intros H;
      apply derives_Alt_inv in H; destruct H as [H|H].
    + apply d_alt_l. apply IHa. auto.
    + apply d_alt_r. apply IHb. auto.
    + apply d_alt_l. apply IHa. auto.
    + apply d_alt_r. apply IHb. auto.
  - rewrite mkSeq_correct. split; intros H.
    + apply derives_Seq_inv in H. destruct H as (s1 & s2 & -> & H1 & H2).
      apply IHa in H1.
      change (derives (Star a) (String x s1 ++ s2)). constructor; auto.
    + apply derives_Star_cons in H. destruct H as (s1 & s2 & -> & H1 & H2).
      constructor; auto. apply IHa. auto.
Qed.

(** [matches] decides [derives]. *)
Theorem matches_correct r s : matches r s = true <-> derives r s.
Proof.
  revert r. induction s as [|x s IH]; intros r; cbn.
  - apply nullable_correct.
  - rewrite IH. apply deriv_correct.
Qed.

Lemma matches_false r s : matches r s = false -> ~ derives r s.
Proof. intros H D. apply matches_correct in D. congruence. Qed.

End LarkFacts.

(* ================================================================ *)
(** ** The verifier against the materialized grammar *)
(* ================================================================ *)

Lemma aligned_schema_lists :
  injected ALIGNED_SCHEMA
  = Lark.mkInjected "github_events" STRING_COLS NUMERIC_COLS KNOWN_COLUMNS
      KNOWN_EVENT_TYPES KNOWN_ACTION_VALUES.
Proof. reflexivity. Qed.

Lemma grammarDerives_decide schema s :
  grammarDerives schema s <-> Lark.matches (Lark.start (injected schema)) s = true.
Proof. symmetry. apply LarkFacts.matches_correct. Qed.

(** Claim C2.  The verifier and the grammar differ, in both directions,
    for the static schema of the repository and for the schema aligned
    with the verifier's lists.  The verifier accepts an alias as a group
    item, which [group_item] does not derive (so the third query of the
    positive coverage list is not in the grammar); it accepts any string
    value as an event type; and it accepts a dangling separator.  The
    grammar derives an order item that is an alias starting with a column
    name, on which the verifier commits to the column and rejects. *)
Theorem C2_verifier_and_grammar_differ :
  Forall (fun schema =>
    (* accepted by the verifier, not derivable *)
    Forall (fun s => isValidGrammarSQL s = true /\ ~ grammarDerives schema s)
      [ "SELECT id FROM github_events GROUP BY x";
        "SELECT toStartOfHour(created_at) AS hour, count() AS events FROM github_events GROUP BY hour ORDER BY hour ASC";
        "SELECT id FROM github_events WHERE type = 'x'";
        "SELECT id,  FROM github_events" ]
    (* derivable, rejected by the verifier *)
    /\ Forall (fun s => isValidGrammarSQL s = false /\ grammarDerives schema s)
         [ "SELECT id FROM github_events ORDER BY idx";
           "SELECT count() AS n FROM github_events ORDER BY number_of" ]
    /\ ~ sameLanguage schema)
    [STATIC_SCHEMA; ALIGNED_SCHEMA].
Proof.
  assert (Hno : forall schema s,
             Lark.matches (Lark.start (injected schema)) s = false ->
             ~ grammarDerives schema s).
  { intros schema s H D. apply grammarDerives_decide in D. congruence. }
  assert (Hyes : forall schema s,
             Lark.matches (Lark.start (injected schema)) s = true ->
             grammarDerives schema s).
  { intros schema s H. apply grammarDerives_decide. exact H. }
  assert (Hdiff : forall schema s,
             isValidGrammarSQL s = true ->
             Lark.matches (Lark.start (injected schema)) s = false ->
             ~ sameLanguage schema).
  { intros schema s Hv Hm Hsame. apply (Hno schema s Hm). apply Hsame, Hv. }
  repeat apply Forall_cons; try apply Forall_nil.
  - split; [|split].
    + repeat apply Forall_cons; try apply Forall_nil;
        (split; [vm_compute; reflexivity|apply Hno; vm_compute; reflexivity]).
    + repeat apply Forall_cons; try apply Forall_nil;
        (split; [vm_compute; reflexivity|apply Hyes; vm_compute; reflexivity]).
    + apply (Hdiff _ "SELECT id FROM github_events GROUP BY x");
        vm_compute; reflexivity.
  - split; [|split].
    + repeat apply Forall_cons; try apply Forall_nil;
        (split; [vm_compute; reflexivity|apply Hno; vm_compute; reflexivity]).
    + repeat apply Forall_cons; try apply Forall_nil;
        (split; [vm_compute; reflexivity|apply Hyes; vm_compute; reflexivity]).
    + apply (Hdiff _ "SELECT id FROM github_events GROUP BY x");
        vm_compute; reflexivity.
Qed.

(* ================================================================ *)
(** ** The materialized grammar *)
(* ================================================================ *)

Lemma append_assoc (a b c : string) : (a ++ b) ++ c = a ++ b ++ c.
Proof. induction a as [|x a IH]; cbn; congruence. Qed.

Lemma plain_app a b : plain (a ++ b) = plain a && plain b.
Proof.
  induction a as [|x a IH]; cbn; auto.
  rewrite IH. now rewrite andb_assoc.
Qed.

Lemma getSubstitution_plain matched before after rep :
  plain rep = true -> getSubstitution matched before after rep = rep.
Proof.
  induction rep as [|c r IH]; cbn; auto.
  intros H. apply andb_true_iff in H. destruct H as [H Hr].
  apply andb_true_iff in H. destruct H as [Hd _].
  apply negb_true_iff in Hd. rewrite Hd. now rewrite IH.
Qed.

Lemma isPrefix_app p q : isPrefix p (p ++ q) = true.
Proof.
  induction p as [|a p IH]; cbn; auto.
  now rewrite Ascii.eqb_refl, IH.
Qed.

Lemma take_app pre x : take (String.length pre) (pre ++ x) = pre.
Proof. induction pre as [|a pre IH]; cbn; [destruct x|]; congruence. Qed.

Lemma slice_app pre x : slice (pre ++ x) (String.length pre) = x.
Proof. induction pre as [|a pre IH]; cbn; [destruct x|]; auto. Qed.

Lemma length_app (a b : string) :
  String.length (a ++ b) = String.length a + String.length b.
Proof. induction a as [|x a IH]; cbn; auto. Qed.

(** A pattern that starts with a brace is first found after a plain
    prefix. *)
Lemma indexOf_after_plain pre pat' rest :
  plain pre = true ->
  isPrefix (String "{" pat') rest = true ->
  indexOf (String "{" pat') (pre ++ rest) = Some (String.length pre).
Proof.
  intros Hpre Hrest. induction pre as [|c pre IH].
  - cbn [append String.length]. now apply indexOf_head.
  - cbn [plain] in Hpre. apply andb_true_iff in Hpre. destruct Hpre as [H Hpre].
    apply andb_true_iff in H. destruct H as [_ Hb].
    apply negb_true_iff in Hb. unfold isChar in Hb.
    cbn [append String.length indexOf isPrefix]. rewrite Hb. cbn [andb].
    rewrite (IH Hpre). reflexivity.
Qed.

Lemma replace_placeholder pre pat' post rep :
  plain pre = true -> plain rep = true ->
  replace (pre ++ String "{" pat' ++ post) (String "{" pat') rep
  = pre ++ rep ++ post.
Proof.
  intros Hpre Hrep. unfold replace.
  rewrite indexOf_after_plain by (auto using isPrefix_app).
  rewrite take_app, getSubstitution_plain by assumption.
  rewrite <- length_app, <- (append_assoc pre (String "{" pat') post).
  rewrite slice_app. reflexivity.
Qed.

Lemma indexOf_braces_after_plain pre s :
  plain pre = true -> indexOf "{{" s = None -> indexOf "{{" (pre ++ s) = None.
Proof.
  intros Hpre Hs. induction pre as [|c pre IH]; auto.
  cbn [plain] in Hpre. apply andb_true_iff in Hpre. destruct Hpre as [H Hpre].
  apply andb_true_iff in H. destruct H as [_ Hb].
  apply negb_true_iff in Hb. unfold isChar in Hb.
  cbn [append indexOf isPrefix]. rewrite Hb. cbn [andb].
  rewrite (IH Hpre). reflexivity.
Qed.

Lemma cat_app l x : cat l x = cat l EmptyString ++ x.
Proof.
  induction l as [|a l IH]; cbn; auto.
  rewrite IH at 1. now rewrite append_assoc.
Qed.

Lemma plain_cat l : Forall plainT l -> plain (cat l EmptyString) = true.
Proof.
  unfold cat, plainT. induction 1 as [|a l Ha _ IH]; cbn [fold_right]; auto.
  rewrite plain_app, Ha, IH. reflexivity.
Qed.

Lemma replace_cat l pat' post rep :
  Forall plainT l -> plain rep = true ->
  replace (cat l (String "{" pat' ++ post)) (String "{" pat') rep
  = cat l (rep ++ post).
Proof.
  intros Hl Hrep. rewrite cat_app.
  rewrite replace_placeholder by auto using plain_cat.
  now rewrite <- cat_app.
Qed.

(** Fill the hole that follows the plain pieces [l] with [rep]. *)
Ltac fill_hole l rep :=
  match goal with
  | |- context [replace ?s (String "{" ?p) rep] =>
      let E := fresh "E" in
      eassert (E : replace s (String "{" p) rep = _);
      [ refine (@replace_cat l p _ rep _ _); auto 14
      | rewrite E; clear E; cbn [cat fold_right] ]
  end.

(** The six replacements of [buildGrammar], each on the first occurrence
    of its placeholder, fill the six holes of the template in order when
    the text in front of each hole is plain. *)
Lemma render_chain s0 s1 s2 s3 s4 s5 s6 tn a1 a2 a3 a4 a5 :
  Forall plainT [s0; tn; s1; a1; s2; a2; s3; a3; s4; a4; s5; a5] ->
  replace (replace (replace (replace (replace (replace
    (s0 ++ "{{TABLE_NAME}}" ++ s1 ++ "{{STRING_COLS}}" ++ s2
        ++ "{{NUMERIC_COLS}}" ++ s3 ++ "{{COLUMN_REF}}" ++ s4
        ++ "{{EVENT_TYPES}}" ++ s5 ++ "{{ACTION_VALUES}}" ++ s6)
    "{{TABLE_NAME}}" tn) "{{STRING_COLS}}" a1) "{{NUMERIC_COLS}}" a2)
    "{{COLUMN_REF}}" a3) "{{EVENT_TYPES}}" a4) "{{ACTION_VALUES}}" a5
  = s0 ++ tn ++ s1 ++ a1 ++ s2 ++ a2 ++ s3 ++ a3 ++ s4 ++ a4 ++ s5 ++ a5 ++ s6.
Proof.
  intros H.
  repeat match goal with
  | H : Forall _ (_ :: _) |- _ => inversion H; subst; clear H
  | H : Forall _ [] |- _ => clear H
  end.
  fill_hole [s0] tn.
  fill_hole [s0; tn; s1] a1.
  fill_hole [s0; tn; s1; a1; s2] a2.
  fill_hole [s0; tn; s1; a1; s2; a2; s3] a3.
  fill_hole [s0; tn; s1; a1; s2; a2; s3; a3; s4] a4.
  fill_hole [s0; tn; s1; a1; s2; a2; s3; a3; s4; a4; s5] a5.
  reflexivity.
Qed.

(** *** What the classification keeps *)

Lemma Forall_snoc {A : Type} (P : A -> Prop) l x :
  Forall P l -> P x -> Forall P (l ++ [x])%list.
Proof. intros Hl Hx. apply Forall_app. auto. Qed.

Lemma forallb_plain l : forallb plain l = true -> Forall plainT l.
Proof. intros H. apply Forall_forall. apply forallb_forall. exact H. Qed.

Lemma classifyColumn_plain acc col :
  plainColumn col = true -> plainClassified acc ->
  plainClassified (classifyColumn acc col).
Proof.
  unfold plainColumn, classifyColumn, nonEmptyValues.
  intros Hcol (Hs & Hn & Hd & He).
  apply andb_true_iff in Hcol. destruct Hcol as [Hname Hvals].
  assert (Htyped :
    plainClassified
      (let all := (allCols acc ++ [name col])%list in
       if isDateTimeType (type col) then
         mkClassified (stringCols acc) (numericCols acc)
           (dateTimeCols acc ++ [name col])%list (enumCols acc) all
       else if isStringType (type col) then
         mkClassified (stringCols acc ++ [name col])%list (numericCols acc)
           (dateTimeCols acc) (enumCols acc) all
       else if isNumericType (type col) then
         mkClassified (stringCols acc) (numericCols acc ++ [name col])%list
           (dateTimeCols acc) (enumCols acc) all
       else
         mkClassified (stringCols acc) (numericCols acc) (dateTimeCols acc)
           (enumCols acc) all)).
  { cbv zeta.
    destruct (isDateTimeType (type col)), (isStringType (type col)),
      (isNumericType (type col));
      repeat split; cbn [stringCols numericCols dateTimeCols enumCols];
      auto using Forall_snoc. }
  destruct (enumValues col) as [[|v vs]|]; try exact Htyped.
  repeat split; cbn [stringCols numericCols dateTimeCols enumCols]; auto.
  apply Forall_snoc; auto.
  repeat split; cbn [fst snd]; auto using forallb_plain. discriminate.
Qed.

Lemma classifyColumns_plain_from cols acc :
  forallb plainColumn cols = true -> plainClassified acc ->
  plainClassified (fold_left classifyColumn cols acc).
Proof.
  revert acc. induction cols as [|col cols IH]; cbn; intros acc Hcols Hacc; auto.
  apply andb_true_iff in Hcols. destruct Hcols as [Hcol Hcols].
  apply IH; auto using classifyColumn_plain.
Qed.

Lemma classifyColumns_plain schema :
  plainSchema schema = true -> plainClassified (classifyColumns schema).
Proof.
  unfold plainSchema, classifyColumns. intros H.
  apply andb_true_iff in H. destruct H as [_ H].
  apply classifyColumns_plain_from; auto.
  repeat split; constructor.
Qed.

Lemma In_dedupe x seen l : In x (dedupe seen l) -> In x l.
Proof.
  revert seen. induction l as [|y l IH]; cbn; auto.
  intros seen. destruct (existsb _ seen); cbn; intros H.
  - right. eapply IH; eauto.
  - destruct H; eauto.
Qed.

Lemma uniqueColumnRef_plain c :
  plainClassified c -> Forall plainT (uniqueColumnRef c).
Proof.
  intros (Hs & Hn & Hd & He). unfold uniqueColumnRef.
  apply Forall_forall. intros x Hx.
  apply In_dedupe in Hx. apply filter_In in Hx. destruct Hx as [Hx _].
  repeat (apply in_app_or in Hx; destruct Hx as [Hx|Hx]);
    try (eapply Forall_forall in Hx; eauto; fail).
  apply in_map_iff in Hx. destruct Hx as (e & <- & Hx).
  eapply Forall_forall in He; eauto. apply He.
Qed.

Lemma eventTypes_plain c :
  plainClassified c -> Forall plainT (eventTypes c) /\ eventTypes c <> [].
Proof.
  intros (_ & _ & _ & He). unfold eventTypes.
  destruct (find _ (enumCols c)) as [e|] eqn:Hfind.
  - apply find_some in Hfind. destruct Hfind as [Hin _].
    eapply Forall_forall in He; eauto. destruct He as (_ & Hv & Hne). auto.
  - split; [|discriminate]. apply forallb_plain. reflexivity.
Qed.

Lemma orFallback_plain l fallback :
  Forall plainT l -> plainT fallback ->
  Forall plainT (orFallback l fallback) /\ orFallback l fallback <> [].
Proof.
  intros Hl Hf. destruct l; cbn.
  - split; [auto|discriminate].
  - split; [auto|discriminate].
Qed.

Lemma join_plain sep l :
  plain sep = true -> Forall plainT l -> plain (join sep l) = true.
Proof.
  intros Hsep. induction 1 as [|x l Hx Hl IH]; cbn [join]; auto.
  destruct l as [|y l]; auto.
  rewrite !plain_app, Hx, Hsep, IH. reflexivity.
Qed.

Lemma toLarkAlternatives_plain l :
  Forall plainT l -> plain (toLarkAlternatives l) = true.
Proof.
  intros Hl. unfold toLarkAlternatives. apply join_plain; [reflexivity|].
  apply Forall_forall. intros q Hq. apply in_map_iff in Hq.
  destruct Hq as (v & <- & Hv). rewrite Forall_forall in Hl.
  specialize (Hl v Hv). unfold plainT in *. rewrite !plain_app, Hl.
  reflexivity.
Qed.

Lemma toLarkAlternatives_literal l : l <> [] -> hasLiteral l.
Proof.
  intros Hne. split; auto. destruct l as [|x l]; [congruence|].
  unfold toLarkAlternatives. cbn [map join]. destruct (map _ l) as [|y m].
  - exists x, EmptyString. now rewrite append_empty_r.
  - exists x. eexists. rewrite !append_assoc. reflexivity.
Qed.

(** The fallbacks of [buildGrammar] are the one-name lists. *)
Lemma fallback_text l fallback :
  (if negb (isEmpty l) then toLarkAlternatives l else dq ++ fallback ++ dq)
  = toLarkAlternatives (orFallback l fallback).
Proof. destruct l; reflexivity. Qed.

(** *** The template around its placeholders *)

Lemma template_split :
  GRAMMAR_TEMPLATE
  = segment 0 ++ "{{TABLE_NAME}}" ++ segment 1 ++ "{{STRING_COLS}}"
    ++ segment 2 ++ "{{NUMERIC_COLS}}" ++ segment 3 ++ "{{COLUMN_REF}}"
    ++ segment 4 ++ "{{EVENT_TYPES}}" ++ segment 5 ++ "{{ACTION_VALUES}}"
    ++ segment 6.
Proof. vm_compute. reflexivity. Qed.

Lemma segments_plain :
  plainT (segment 0) /\ plainT (segment 1) /\ plainT (segment 2)
  /\ plainT (segment 3) /\ plainT (segment 4) /\ plainT (segment 5).
Proof. repeat split; vm_compute; reflexivity. Qed.

Lemma tail_has_no_placeholder : indexOf "{{" (segment 6) = None.
Proof. vm_compute. reflexivity. Qed.

(** The rule heads in front of the five injected bodies. *)
Lemma segment_heads :
  (exists body, segment 1 = body ++ "string_col: ")
  /\ segment 2 = nl ++ "numeric_col: "
  /\ segment 3 = nl ++ "column_ref: "
  /\ segment 4 = nl ++ nl ++ "event_type: "
  /\ segment 5 = nl ++ "action_value: ".
Proof.
  split; [|repeat split; vm_compute; reflexivity].
  exists (take (String.length (segment 1) - 12) (segment 1)).
  vm_compute. reflexivity.
Qed.
(** For a plain schema [buildGrammar] returns the template with its six
    holes filled by the injected alternatives. *)
Lemma buildGrammar_render schema :
  plainSchema schema = true ->
  let g := injected schema in
  buildGrammar schema
  = segment 0 ++ tableName schema
    ++ segment 1 ++ toLarkAlternatives (Lark.inj_string_cols g)
    ++ segment 2 ++ toLarkAlternatives (Lark.inj_numeric_cols g)
    ++ segment 3 ++ toLarkAlternatives (Lark.inj_column_ref g)
    ++ segment 4 ++ toLarkAlternatives (Lark.inj_event_types g)
    ++ segment 5 ++ toLarkAlternatives (Lark.inj_action_values g)
    ++ segment 6.
Proof.
  intros Hplain. pose proof (classifyColumns_plain _ Hplain) as Hc.
  pose proof Hc as (Hs & Hn & Hd & He).
  unfold plainSchema in Hplain. apply andb_true_iff in Hplain.
  destruct Hplain as [Htable _].
  unfold buildGrammar, injected. cbv zeta. cbn [Lark.inj_string_cols
    Lark.inj_numeric_cols Lark.inj_column_ref Lark.inj_event_types
    Lark.inj_action_values].
  rewrite !fallback_text. rewrite template_split at 1.
  destruct segments_plain as (P0 & P1 & P2 & P3 & P4 & P5).
  apply render_chain.
  repeat apply Forall_cons; try apply Forall_nil; try assumption.
  all: apply toLarkAlternatives_plain.
  all: first [ apply orFallback_plain;
               [first [assumption | auto using uniqueColumnRef_plain]
               | reflexivity]
             | apply eventTypes_plain; assumption
             | apply forallb_plain; reflexivity ].
Qed.

Lemma indexOf_longer p q s : indexOf p s = None -> indexOf (p ++ q) s = None.
Proof.
  assert (Hpre : forall t, isPrefix (p ++ q) t = true -> isPrefix p t = true).
  { induction p as [|a p IH]; cbn; auto. intros [|b t]; [discriminate|].
    intros H. apply andb_true_iff in H. destruct H as [-> H]. cbn. auto. }
  induction s as [|c s IH]; cbn [indexOf].
  - destruct (isPrefix p EmptyString) eqn:E; [discriminate|].
    destruct (isPrefix (p ++ q) EmptyString) eqn:F; auto. apply Hpre in F. congruence.
  - destruct (isPrefix p (String c s)) eqn:E; [discriminate|].
    destruct (isPrefix (p ++ q) (String c s)) eqn:F;
      [apply Hpre in F; congruence|].
    destruct (indexOf p s); [discriminate|]. intros _. now rewrite IH.
Qed.

(** Claim C7, as stated, fails.  The table name is substituted verbatim
    and each [replace] fills the first occurrence of its placeholder: a
    table named as a later placeholder takes that placeholder's
    replacement and leaves the rule of the template unfilled; a table
    named [$&] puts the table placeholder back. *)
Lemma C7_placeholder_survives :
  let schema := mkSchema "{{STRING_COLS}}" [mkColumn "id" "UInt64" None] in
  let dollar := mkSchema "$&" [mkColumn "id" "UInt64" None] in
  tableName schema <> EmptyString /\ columns schema <> []
  /\ placeholderFree (buildGrammar schema) = false
  /\ includes (buildGrammar schema) "string_col: {{STRING_COLS}}" = true
  /\ includes (buildGrammar dollar) " FROM {{TABLE_NAME}}" = true
  /\ ~ everySchemaIsCompleted.
Proof.
  cbv zeta.
  split; [cbn [tableName]; discriminate|].
  split; [cbn [columns]; discriminate|].
  split; [vm_compute; reflexivity|].
  split; [vm_compute; reflexivity|].
  split; [vm_compute; reflexivity|].
  intros H.
  specialize (H (mkSchema "{{STRING_COLS}}" [mkColumn "id" "UInt64" None])).
  assert (E : placeholderFree
                (buildGrammar
                   (mkSchema "{{STRING_COLS}}" [mkColumn "id" "UInt64" None]))
              = false) by (vm_compute; reflexivity).
  rewrite E in H.
  assert (Hfalse : false = true);
    [apply H; [cbn [tableName]|cbn [columns]]; discriminate|discriminate Hfalse].
Qed.

(** Claim C7, amended.  For every schema whose table name, column names
    and enum values hold neither [$] nor [{], [buildGrammar] returns a
    grammar text with no placeholder token left, in which each of the five
    injected rules has at least one double-quoted literal alternative; a
    schema with no numeric column gets the single literal ["id"] for
    [numeric_col]. *)
Theorem C7_grammar_is_complete (schema : TableSchema) :
  plainSchema schema = true ->
  let g := injected schema in
  placeholderFree (buildGrammar schema) = true
  /\ Forall (fun p => includes (buildGrammar schema) p = false)
       TEMPLATE_PLACEHOLDERS
  /\ (exists head body tail,
        buildGrammar schema
        = head ++ tableName schema ++ body
          ++ "string_col: " ++ toLarkAlternatives (Lark.inj_string_cols g)
          ++ nl ++ "numeric_col: "
          ++ toLarkAlternatives (Lark.inj_numeric_cols g)
          ++ nl ++ "column_ref: "
          ++ toLarkAlternatives (Lark.inj_column_ref g)
          ++ nl ++ nl ++ "event_type: "
          ++ toLarkAlternatives (Lark.inj_event_types g)
          ++ nl ++ "action_value: "
          ++ toLarkAlternatives (Lark.inj_action_values g)
          ++ tail)
  /\ hasLiteral (Lark.inj_string_cols g)
  /\ hasLiteral (Lark.inj_numeric_cols g)
  /\ hasLiteral (Lark.inj_column_ref g)
  /\ hasLiteral (Lark.inj_event_types g)
  /\ hasLiteral (Lark.inj_action_values g)
  /\ (numericCols (classifyColumns schema) = [] ->
      Lark.inj_numeric_cols g = ["id"]
      /\ toLarkAlternatives (Lark.inj_numeric_cols g) = dq ++ "id" ++ dq).
Proof.
  intros Hplain g.
  pose proof (buildGrammar_render _ Hplain) as Hrender. cbv zeta in Hrender.
  fold g in Hrender.
  pose proof (classifyColumns_plain _ Hplain) as Hc.
  pose proof Hc as (Hs & Hn & Hd & He).
  assert (Htable : plainT (tableName schema)).
  { unfold plainSchema in Hplain. apply andb_true_iff in Hplain. apply Hplain. }
  assert (Hfree : indexOf "{{" (buildGrammar schema) = None).
  { rewrite Hrender. destruct segments_plain as (P0 & P1 & P2 & P3 & P4 & P5).
    repeat (apply indexOf_braces_after_plain;
            [first [ assumption
                   | apply toLarkAlternatives_plain; subst g; cbn;
                     first [ apply orFallback_plain;
                             auto using uniqueColumnRef_plain; reflexivity
                           | apply eventTypes_plain; auto
                           | apply forallb_plain; reflexivity ] ]|]).
    apply tail_has_no_placeholder. }
  split; [unfold placeholderFree, includes; now rewrite Hfree|].
  split.
  { unfold TEMPLATE_PLACEHOLDERS.
    repeat (apply Forall_cons;
            [ unfold includes;
              match goal with
              | |- context [indexOf (String "{" (String "{" ?q)) ?s] =>
                  pose proof (@indexOf_longer "{{" q s Hfree) as E;
                  cbn [append] in E; rewrite E
              end; reflexivity |]).
    apply Forall_nil. }
  split.
  { destruct segment_heads as ((body & H1) & H2 & H3 & H4 & H5).
    exists (segment 0), body, (segment 6).
    rewrite Hrender, H1, H2, H3, H4, H5. rewrite !append_assoc. reflexivity. }
  subst g; cbn [injected Lark.inj_string_cols Lark.inj_numeric_cols
    Lark.inj_column_ref Lark.inj_event_types Lark.inj_action_values].
  split; [apply toLarkAlternatives_literal, orFallback_plain;
          [assumption|reflexivity]|].
  split; [apply toLarkAlternatives_literal, orFallback_plain;
          [assumption|reflexivity]|].
  split; [apply toLarkAlternatives_literal, orFallback_plain;
          [auto using uniqueColumnRef_plain|reflexivity]|].
  split; [apply toLarkAlternatives_literal, eventTypes_plain; assumption|].
  split; [apply toLarkAlternatives_literal; unfold KNOWN_ACTION_VALUES;
          discriminate|].
  intros Hnone. rewrite Hnone. split; reflexivity.
Qed.

Lemma C7_grammar_is_complete_witness :
  let schema := mkSchema "events"
                  [ mkColumn "title" "String" None;
                    mkColumn "created_at" "DateTime" None ] in
  placeholderFree (buildGrammar schema) = true
  /\ Lark.inj_numeric_cols (injected schema) = ["id"].
Proof.
  cbv zeta.
  destruct (@C7_grammar_is_complete
              (mkSchema "events"
                 [ mkColumn "title" "String" None;
                   mkColumn "created_at" "DateTime" None ]))
    as (Hfree & _ & _ & _ & _ & _ & _ & _ & Hnum).
  - vm_compute. reflexivity.
  - split; [exact Hfree|]. apply Hnum. vm_compute. reflexivity.
Defined.

(* ================================================================ *)
(** ** The alphabet of accepted queries *)
(* ================================================================ *)

Lemma classWithin_spec f g :
  classWithin f g = true -> forall c, f c = true -> g c = true.
Proof.
  unfold classWithin. intros H c Hf.
  rewrite forallb_forall in H.
  specialize (H (nat_of_ascii c)).
  rewrite ascii_nat_embedding in H. rewrite Hf in H. cbn [implb] in H.
  apply H. apply in_seq. pose proof (nat_ascii_bounded c). lia.
Qed.

Lemma allChars_app f a b : allChars f (a ++ b) = allChars f a && allChars f b.
Proof.
  induction a as [|x a IH]; cbn; auto. rewrite IH. now rewrite andb_assoc.
Qed.

Lemma isPrefix_split p s : isPrefix p s = true -> exists r, s = p ++ r.
Proof.
  revert s. induction p as [|a p IH]; intros s H; cbn in H.
  - exists s. reflexivity.
  - destruct s as [|b s]; [discriminate|].
    apply andb_true_iff in H. destruct H as [Hab H].
    apply Ascii.eqb_eq in Hab. subst b.
    destruct (IH _ H) as (r & ->). exists r. reflexivity.
Qed.

Lemma span_spec c n s m r :
  span c n s = (m, r) ->
  s = m ++ r /\ allChars c m = true /\ String.length m <= n.
Proof.
  revert s m r. induction n as [|n IH]; intros s m r H; cbn in H.
  - destruct s; inversion H; subst; cbn; auto.
  - destruct s as [|a s]; [inversion H; subst; cbn; auto with arith|].
    destruct (c a) eqn:Hc.
    + destruct (span c n s) as [m1 r1] eqn:E. inversion H; subst.
      destruct (IH _ _ _ E) as (-> & Hall & Hlen).
      cbn. rewrite Hc, Hall. repeat split; auto. lia.
    + inversion H; subst. cbn. auto with arith.
Qed.

(** What [exec] returns is a prefix of the subject, made of characters of
    the classes of the pattern. *)
Lemma exec_spec re g s m :
  patternWithin re g = true -> exec re s = Some m ->
  isPrefix m s = true /\ allChars g m = true.
Proof.
  revert s m. induction re as [|q re IH]; intros s m Hre H; cbn [exec] in H.
  - inversion H; subst. cbn. auto.
  - unfold patternWithin in Hre. cbn [forallb] in Hre.
    apply andb_true_iff in Hre. destruct Hre as [Hq Hre].
    fold (patternWithin re g) in Hre.
    destruct (span (qclass q) (qmax q) s) as [m1 r1] eqn:E.
    cbv iota beta in H.
    destruct (Nat.ltb (String.length m1) (qmin q)); [discriminate H|].
    destruct (exec re r1) as [m2|] eqn:E2; [|discriminate H].
    inversion H; subst. apply span_spec in E. destruct E as (-> & Hall & _).
    destruct (IH _ _ Hre E2) as (Hp & Hg).
    apply isPrefix_split in Hp. destruct Hp as (r & ->).
    rewrite <- append_assoc. split; [apply isPrefix_app|].
    rewrite allChars_app, Hg, andb_true_r.
    clear - Hall Hq. induction m1 as [|a m1 IHm]; cbn in *; auto.
    apply andb_true_iff in Hall. destruct Hall as [Ha Hall].
    rewrite (classWithin_spec _ _ Hq _ Ha). auto.
Qed.

Lemma countBad_slice s k n :
  countBad s (k + n) = countBad s k + countBad (slice s k) n.
Proof.
  revert s. induction k as [|k IH]; intros s.
  - destruct s; reflexivity.
  - destruct s as [|c s]; cbn [Nat.add countBad slice].
    + destruct n; reflexivity.
    + rewrite IH. lia.
Qed.

Lemma countBad_clean_prefix m r :
  allChars allowedChar m = true -> countBad (m ++ r) (String.length m) = 0.
Proof.
  induction m as [|c m IH]; cbn [allChars append String.length countBad]; auto.
  intros H. apply andb_true_iff in H. destruct H as [Hc H].
  rewrite Hc. auto.
Qed.

(** Moving the cursor over a clean prefix of the remaining input. *)
Lemma advance_clean st m :
  isPrefix m (remaining st) = true -> allChars allowedChar m = true ->
  countBad (input st) (pos st + String.length m) = countBad (input st) (pos st)
  /\ (pos st <= String.length (input st) ->
      pos st + String.length m <= String.length (input st)).
Proof.
  unfold remaining. intros Hp Hm. split.
  - rewrite countBad_slice. apply isPrefix_split in Hp. destruct Hp as (r & ->).
    rewrite countBad_clean_prefix; auto.
  - intros Hle. apply isPrefix_length in Hp. rewrite slice_length in Hp. lia.
Qed.

Create HintDb cleandb.

(** Turn the equation of a call into what a clean step guarantees. *)
Ltac use_clean E :=
  match type of E with
  | ?p ?s = (_, _) =>
      let H := fresh "Hp" in
      assert (H : clean p) by (eauto with cleandb nocore);
      apply H in E; clear H
  end.

Ltac use_cleans :=
  repeat match goal with
  | E : _ _ = (_, _) |- _ => use_clean E
  end.

Ltac settle_clean :=
  unfold save, restore, advance in *; cbn [input pos] in *;
  repeat match goal with
  | H : _ /\ _ |- _ => destruct H
  end;
  repeat match goal with
  | H : input ?a = input ?b |- _ => rewrite H in *; clear H
  end;
  repeat split; intros; try congruence; try lia;
  try (intuition (congruence || lia)).

Ltac scrub := repeat break_step; use_cleans; settle_clean.

#[export] Hint Extern 1 (allChars allowedChar _ = true) =>
  (vm_compute; reflexivity) : cleandb.
#[export] Hint Extern 1 (forallb (allChars allowedChar) _ = true) =>
  (vm_compute; reflexivity) : cleandb.
#[export] Hint Extern 1 (patternWithin _ allowedChar = true) =>
  (vm_compute; reflexivity) : cleandb.

Lemma matchLiteral_clean str :
  allChars allowedChar str = true -> clean (matchLiteral str).
Proof.
  intros Hstr st r st' E. unfold matchLiteral in E.
  destruct (startsWith (input st) str (pos st)) eqn:Hs;
    inversion E; subst; cbn [input pos advance]; [|auto].
  destruct (@advance_clean st str Hs Hstr). auto.
Qed.
#[export] Hint Resolve matchLiteral_clean : cleandb.

Lemma matchFirst_clean cands :
  forallb (allChars allowedChar) cands = true -> clean (matchFirst cands).
Proof.
  induction cands as [|c cands IH]; intros Hc st r st' E; cbn [matchFirst] in E.
  - inversion E; subst. auto.
  - cbn [forallb] in Hc. apply andb_true_iff in Hc. destruct Hc as [Hc Hcs].
    destruct (matchLiteral c st) as [[|] st1] eqn:E1.
    + inversion E; subst. apply matchLiteral_clean in E1; auto.
    + apply matchLiteral_false in E1. subst st1. apply (IH Hcs) in E. exact E.
Qed.
#[export] Hint Resolve matchFirst_clean : cleandb.

Lemma regexTerminal_clean r re :
  patternWithin re allowedChar = true -> clean (regexTerminal r re).
Proof.
  intros Hre st res st' E. unfold regexTerminal, matchRegex in E.
  destruct (exec re (remaining st)) as [m|] eqn:Hm.
  - destruct (@exec_spec re allowedChar _ _ Hre Hm) as (Hp & Hall).
    destruct (@advance_clean st m Hp Hall) as (Hc & Hb).
    destruct m; inversion E; subst; cbn [input pos advance]; auto.
  - inversion E; subst. auto.
Qed.
#[export] Hint Resolve regexTerminal_clean : cleandb.

Lemma parseColumnRef_clean : clean parseColumnRef.
Proof. intros st r st' E. unfold parseColumnRef in E. scrub. Qed.

Lemma parseAggFunc_clean : clean parseAggFunc.
Proof. intros st r st' E. unfold parseAggFunc in E. scrub. Qed.

Lemma parseDateTruncExpr_clean : clean parseDateTruncExpr.
Proof. intros st r st' E. unfold parseDateTruncExpr in E. scrub. Qed.

Lemma parseCompareOp_clean : clean parseCompareOp.
Proof. intros st r st' E. unfold parseCompareOp in E. scrub. Qed.

Lemma parseFromClause_clean : clean parseFromClause.
Proof. intros st r st' E. unfold parseFromClause in E. scrub. Qed.

Lemma parseNumber_clean : clean parseNumber.
Proof. apply regexTerminal_clean. vm_compute. reflexivity. Qed.
Lemma parseAlias_clean : clean parseAlias.
Proof. apply regexTerminal_clean. vm_compute. reflexivity. Qed.
Lemma parseStringValue_clean : clean parseStringValue.
Proof. apply regexTerminal_clean. vm_compute. reflexivity. Qed.
Lemma parseDateLiteral_clean : clean parseDateLiteral.
Proof. apply regexTerminal_clean. vm_compute. reflexivity. Qed.
#[export] Hint Resolve parseColumnRef_clean parseAggFunc_clean
  parseDateTruncExpr_clean parseCompareOp_clean parseFromClause_clean
  parseNumber_clean parseAlias_clean parseStringValue_clean
  parseDateLiteral_clean : cleandb.

Lemma parseAggExpr_clean : clean parseAggExpr.
Proof. intros st r st' E. unfold parseAggExpr in E. scrub. Qed.
#[export] Hint Resolve parseAggExpr_clean : cleandb.

Lemma aliased_clean expr : clean (aliased expr).
Proof. intros st r st' E. unfold aliased in E. scrub. Qed.
#[export] Hint Resolve aliased_clean : cleandb.

Lemma parseSelectItem_clean : clean parseSelectItem.
Proof. intros st r st' E. unfold parseSelectItem in E. scrub. Qed.
#[export] Hint Resolve parseSelectItem_clean : cleandb.

Lemma sepLoop_clean fuel sep item items :
  allChars allowedChar sep = true -> clean item ->
  clean (sepLoop fuel sep item items).
Proof.
  intros Hsep Hitem. revert items.
  induction fuel as [|fuel IH]; intros items st r st' E; cbn [sepLoop] in E.
  - inversion E; subst. auto.
  - destruct (matchLiteral sep st) as [ok st1] eqn:E1.
    apply matchLiteral_clean in E1; auto. destruct ok.
    + destruct (item st1) as [next st2] eqn:E2. apply Hitem in E2.
      destruct next.
      * apply IH in E. settle_clean.
      * inversion E; subst. settle_clean.
    + inversion E; subst. settle_clean.
Qed.

Lemma listClause_clean r keyword head sep item :
  allChars allowedChar keyword = true -> allChars allowedChar sep = true ->
  clean item -> clean (listClause r keyword head sep item).
Proof.
  intros Hk Hsep Hitem st res st' E. unfold listClause in E.
  assert (Hloop : forall fuel items, clean (sepLoop fuel sep item items))
    by auto using sepLoop_clean.
  scrub.
Qed.

Lemma parseSelectClause_clean : clean parseSelectClause.
Proof. apply listClause_clean; auto with cleandb. Qed.
#[export] Hint Resolve parseSelectClause_clean : cleandb.

Lemma valueLoop_clean fuel values : clean (valueLoop fuel values).
Proof.
  revert values.
  induction fuel as [|fuel IH]; intros values st r st' E; cbn [valueLoop] in E.
  - inversion E; subst. auto.
  - destruct (matchLiteral ", '" st) as [ok st1] eqn:E1.
    apply matchLiteral_clean in E1; [|reflexivity]. destruct ok.
    + destruct (parseStringValue st1) as [next st2] eqn:E2.
      apply parseStringValue_clean in E2. destruct next.
      * destruct (matchLiteral "'" st2) as [ok st3] eqn:E3.
        apply matchLiteral_clean in E3; [|reflexivity]. destruct ok.
        -- apply IH in E. settle_clean.
        -- inversion E; subst. settle_clean.
      * inversion E; subst. settle_clean.
    + inversion E; subst. settle_clean.
Qed.
#[export] Hint Resolve valueLoop_clean : cleandb.

Lemma parseValues_clean : clean parseValues.
Proof. intros st r st' E. unfold parseValues in E. scrub. Qed.
#[export] Hint Resolve parseValues_clean : cleandb.

Lemma parseEquals_clean r col kids :
  allChars allowedChar col = true -> clean (parseEquals r col kids).
Proof.
  intros Hcol st res st' E. unfold parseEquals in E.
  assert (allChars allowedChar (col ++ " = '") = true)
    by (rewrite allChars_app, Hcol; reflexivity).
  scrub.
Qed.

Lemma parseLike_clean r col kids :
  allChars allowedChar col = true -> clean (parseLike r col kids).
Proof.
  intros Hcol st res st' E. unfold parseLike in E.
  assert (allChars allowedChar (col ++ " LIKE '%") = true)
    by (rewrite allChars_app, Hcol; reflexivity).
  scrub.
Qed.

Lemma parseIn_clean r col kids :
  allChars allowedChar col = true -> clean (parseIn r col kids).
Proof.
  intros Hcol st res st' E. unfold parseIn in E.
  assert (allChars allowedChar (col ++ " IN (") = true)
    by (rewrite allChars_app, Hcol; reflexivity).
  scrub.
Qed.

Lemma parseInterval_clean : clean parseInterval.
Proof. intros st res st' E. unfold parseInterval in E. scrub. Qed.

Lemma parseBetween_clean : clean parseBetween.
Proof. intros st res st' E. unfold parseBetween in E. scrub. Qed.
#[export] Hint Resolve parseEquals_clean parseLike_clean parseIn_clean
  parseInterval_clean parseBetween_clean : cleandb.

Lemma reject_cleanTo saved : cleanTo saved reject.
Proof. intros st r st' Hpos E. inversion E; subst. auto. Qed.

Lemma orRestore_cleanTo saved first next :
  clean first -> cleanTo saved next ->
  cleanTo saved (orRestore saved first next).
Proof.
  intros Hfirst Hnext st r st' Hpos E. unfold orRestore in E.
  destruct (first st) as [r1 st1] eqn:E1. apply Hfirst in E1.
  destruct r1.
  - inversion E; subst. settle_clean.
  - apply Hnext in E; [|reflexivity]. subst saved. settle_clean.
Qed.

Lemma stringConditionLoop_cleanTo saved cols :
  forallb (allChars allowedChar) cols = true ->
  cleanTo saved (stringConditionLoop saved cols).
Proof.
  induction cols as [|col cols IH]; intros Hcols st r st' Hpos E;
    cbn [stringConditionLoop] in E.
  - inversion E; subst. auto.
  - cbn [forallb] in Hcols. apply andb_true_iff in Hcols.
    destruct Hcols as [Hcol Hcols].
    apply orRestore_cleanTo in E; try reflexivity;
      auto using orRestore_cleanTo with cleandb.
Qed.

Lemma parseStringCondition_clean : clean parseStringCondition.
Proof.
  intros st r st' E. unfold parseStringCondition in E.
  apply stringConditionLoop_cleanTo in E; [|reflexivity|reflexivity]. exact E.
Qed.

Lemma numericConditionLoop_clean saved cols st r st' :
  forallb (allChars allowedChar) cols = true ->
  pos st = saved ->
  numericConditionLoop saved cols st = (r, st') ->
  input st' = input st
  /\ countBad (input st) (pos st') = countBad (input st) saved
  /\ (saved <= String.length (input st) ->
      pos st' <= String.length (input st)).
Proof.
  intros Hcols Hpos. subst saved. revert Hcols.
  assert (Hgen : forall st0,
    input st0 = input st ->
    countBad (input st) (pos st0) = countBad (input st) (pos st) ->
    (pos st <= String.length (input st) -> pos st0 <= String.length (input st)) ->
    forallb (allChars allowedChar) cols = true ->
    numericConditionLoop (pos st) cols st0 = (r, st') ->
    input st' = input st
    /\ countBad (input st) (pos st') = countBad (input st) (pos st)
    /\ (pos st <= String.length (input st) ->
        pos st' <= String.length (input st))).
  { induction cols as [|col cols IH]; intros st0 Hin Hbad Hlen Hcols E;
      cbn [numericConditionLoop] in E.
    - inversion E; subst. auto.
    - cbn [forallb] in Hcols. apply andb_true_iff in Hcols.
      destruct Hcols as [Hcol Hcols].
      assert (allChars allowedChar (col ++ " ") = true)
        by (rewrite allChars_app, Hcol; reflexivity).
      repeat break_step;
        try (apply IH in E; [exact E| | | |exact Hcols];
             use_cleans; settle_clean);
        use_cleans; settle_clean. }
  intros Hcols E. apply Hgen in E; auto.
Qed.

Lemma parseNumericCondition_clean : clean parseNumericCondition.
Proof.
  intros st r st' E. unfold parseNumericCondition in E.
  destruct (numericConditionLoop _ _ st) as [r1 st1] eqn:E1.
  apply numericConditionLoop_clean in E1; [|reflexivity|reflexivity].
  destruct r1; inversion E; subst; settle_clean.
Qed.

Lemma parseDatetimeCondition_clean : clean parseDatetimeCondition.
Proof.
  intros st r st' E. unfold parseDatetimeCondition in E.
  apply orRestore_cleanTo in E; try reflexivity;
    auto using orRestore_cleanTo, reject_cleanTo with cleandb.
Qed.

Lemma parseEnumCondition_clean : clean parseEnumCondition.
Proof.
  intros st r st' E. unfold parseEnumCondition in E.
  apply orRestore_cleanTo in E; try reflexivity;
    auto 6 using orRestore_cleanTo, reject_cleanTo with cleandb.
Qed.
#[export] Hint Resolve parseStringCondition_clean parseNumericCondition_clean
  parseDatetimeCondition_clean parseEnumCondition_clean : cleandb.

Lemma orElse_clean a b : clean a -> clean b -> clean (orElse a b).
Proof.
  intros Ha Hb st r st' E. unfold orElse in E.
  destruct (a st) as [r1 st1] eqn:E1. apply Ha in E1.
  destruct r1.
  - inversion E; subst. settle_clean.
  - apply Hb in E. settle_clean.
Qed.
#[export] Hint Resolve orElse_clean : cleandb.

Lemma parseCondition_clean : clean parseCondition.
Proof. unfold parseCondition. auto with cleandb. Qed.
#[export] Hint Resolve parseCondition_clean : cleandb.

Lemma parseWhereClause_clean : clean parseWhereClause.
Proof. apply listClause_clean; auto with cleandb. Qed.

Lemma parseGroupItem_clean : clean parseGroupItem.
Proof. intros st r st' E. unfold parseGroupItem in E. scrub. Qed.
#[export] Hint Resolve parseGroupItem_clean : cleandb.

Lemma parseGroupClause_clean : clean parseGroupClause.
Proof. apply listClause_clean; auto with cleandb. Qed.

Lemma parseHavingClause_clean : clean parseHavingClause.
Proof. intros st r st' E. unfold parseHavingClause in E. scrub. Qed.

Lemma parseOrderBase_clean : clean parseOrderBase.
Proof. unfold parseOrderBase. auto with cleandb. Qed.
#[export] Hint Resolve parseOrderBase_clean : cleandb.

Lemma parseOrderItem_clean : clean parseOrderItem.
Proof. intros st r st' E. unfold parseOrderItem in E. scrub. Qed.
#[export] Hint Resolve parseOrderItem_clean : cleandb.

Lemma parseOrderClause_clean : clean parseOrderClause.
Proof. apply listClause_clean; auto with cleandb. Qed.

Lemma parseLimitClause_clean : clean parseLimitClause.
Proof. intros st r st' E. unfold parseLimitClause in E. scrub. Qed.
#[export] Hint Resolve parseWhereClause_clean parseGroupClause_clean
  parseHavingClause_clean parseOrderClause_clean parseLimitClause_clean
  : cleandb.

Lemma optionalClause_clean clause kids :
  clean clause -> clean (optionalClause clause kids).
Proof. intros Hc st r st' E. unfold optionalClause in E. scrub. Qed.
#[export] Hint Resolve optionalClause_clean : cleandb.

Lemma parseQueryFrom_clean sql : clean (parseQueryFrom sql).
Proof. intros st r st' E. unfold parseQueryFrom in E. scrub. Qed.

Lemma countBad_all s n :
  countBad s n = 0 -> String.length s <= n -> allChars allowedChar s = true.
Proof.
  revert n. induction s as [|c s IH]; intros n H Hlen;
    cbn [allChars String.length] in *; auto.
  destruct n as [|n]; [lia|]. cbn [countBad] in H.
  destruct (allowedChar c); [|discriminate H].
  cbn [andb]. apply (IH n); [exact H|lia].
Qed.

Lemma allChars_weaken f g s :
  classWithin f g = true -> allChars f s = true -> allChars g s = true.
Proof.
  intros Hfg. induction s as [|c s IH]; cbn [allChars]; auto.
  intros H. apply andb_true_iff in H. destruct H as [Hc H].
  rewrite (classWithin_spec _ _ Hfg _ Hc). auto.
Qed.

(** The root has rule ["query"] exactly when the cursor ended at or after
    the end of the input. *)
Lemma parseQueryFrom_rule sql st n st' :
  parseQueryFrom sql st = (Some n, st') ->
  (rule n = "query" <-> isAtEnd st' = true).
Proof.
  unfold parseQueryFrom. intros E.
  repeat break_step; try discriminate;
    match goal with
    | H : negb _ = _ |- _ => rewrite ?negb_true_iff, ?negb_false_iff in H
    end; cbn [rule]; split; intros; try congruence; try discriminate.
Qed.

(** X1.  Every query the verifier accepts is, once trimmed, written in
    the alphabet of the parser: the characters of a string value and the
    punctuation of the literals.  No accepted query holds a semicolon, an
    asterisk, a double quote, a backslash, a bracket or a line break. *)
Theorem accepted_alphabet (sql : string) :
  isValidGrammarSQL sql = true ->
  allChars allowedChar (trim sql) = true
  /\ Forall (fun c => lacks c (trim sql) = true) forbiddenChars.
Proof.
  intros Hvalid.
  assert (Hall : allChars allowedChar (trim sql) = true).
  { unfold isValidGrammarSQL, parseQuery, parseQueryRun in Hvalid.
    destruct (parseQueryFrom sql (newState (trim sql))) as [[n|] st] eqn:E;
      cbn [fst] in Hvalid; [|discriminate].
    apply String.eqb_eq in Hvalid.
    apply (@parseQueryFrom_rule _ _ _ _ E) in Hvalid.
    apply parseQueryFrom_clean in E. cbn [input pos newState] in E.
    destruct E as (Hin & Hbad & _).
    unfold isAtEnd in Hvalid. rewrite Hin in Hvalid.
    apply Nat.leb_le in Hvalid.
    apply countBad_all with (n := pos st); [|exact Hvalid].
    rewrite Hbad. reflexivity. }
  split; [exact Hall|].
  unfold forbiddenChars, lacks.
  repeat (apply Forall_cons;
          [apply allChars_weaken with (f := allowedChar);
           [vm_compute; reflexivity|exact Hall]|]).
  apply Forall_nil.
Qed.

Lemma accepted_alphabet_witness :
  allChars allowedChar
    (trim " SELECT count() AS n FROM github_events WHERE id != 5 ") = true
  /\ Forall (fun c =>
       lacks c (trim " SELECT count() AS n FROM github_events WHERE id != 5 ")
       = true) forbiddenChars.
Proof.
  apply (accepted_alphabet
           " SELECT count() AS n FROM github_events WHERE id != 5 ").
  vm_compute. reflexivity.
Defined.

(** X2.  The cursor of [parseQuery] never leaves the trimmed input, and a
    non-null result has rule ["query"] exactly when the cursor reached the
    end of it. *)
Theorem cursor_stays_within_input (sql : string) :
  let '(result, st) := parseQueryRun sql in
  input st = trim sql
  /\ pos st <= String.length (trim sql)
  /\ match result with
     | Some n => rule n = "query" <-> pos st = String.length (trim sql)
     | None => True
     end.
Proof.
  unfold parseQueryRun.
  destruct (parseQueryFrom sql (newState (trim sql))) as [result st] eqn:E.
  pose proof (@parseQueryFrom_clean sql _ _ _ E) as (Hin & _ & Hlen).
  cbn [input pos newState] in *. specialize (Hlen (Nat.le_0_l _)).
  repeat split; auto.
  destruct result as [n|]; [|exact I].
  rewrite (@parseQueryFrom_rule _ _ _ _ E). unfold isAtEnd. rewrite Hin.
  rewrite Nat.leb_le. lia.
Qed.

(* ================================================================ *)
(** ** The shape of the root *)
(* ================================================================ *)

Lemma listClause_rule r keyword head sep item st n st' :
  listClause r keyword head sep item st = (Some n, st') -> rule n = r.
Proof.
  unfold listClause. intros E.
  repeat break_step; try discriminate; reflexivity.
Qed.

Lemma parseHavingClause_rule st n st' :
  parseHavingClause st = (Some n, st') -> rule n = "having_clause".
Proof.
  unfold parseHavingClause. intros E.
  repeat break_step; try discriminate; reflexivity.
Qed.

Lemma parseLimitClause_rule st n st' :
  parseLimitClause st = (Some n, st') -> rule n = "limit_clause".
Proof.
  unfold parseLimitClause. intros E.
  repeat break_step; try discriminate; reflexivity.
Qed.

Lemma optionalClause_rules clause r kids st kids' st' :
  (forall s n s', clause s = (Some n, s') -> rule n = r) ->
  optionalClause clause kids st = (kids', st') ->
  exists present,
    map rule kids' = (map rule kids ++ optionalRule present r)%list.
Proof.
  unfold optionalClause. intros Hr E.
  destruct (clause st) as [[c|] st1] eqn:E1; inversion E; subst.
  - exists true. rewrite map_app. cbn. now rewrite (Hr _ _ _ E1).
  - exists false. cbn. now rewrite app_nil_r.
Qed.

(** X3.  Whatever [parseQuery] returns, complete or partial, has the
    select clause as first child, the from clause as second, and after
    them the optional clauses that matched, each at most once and in the
    order WHERE, GROUP BY, HAVING, ORDER BY, LIMIT. *)
Theorem root_children_order (sql : string) (n : GrammarDerivationNode) :
  parseQuery sql = Some n ->
  (rule n = "query" \/ rule n = "query (partial)")
  /\ exists w g h o l,
       map rule (children n)
       = ([ "select_clause"; "from_clause" ]
          ++ optionalRule w "where_clause" ++ optionalRule g "group_clause"
          ++ optionalRule h "having_clause" ++ optionalRule o "order_clause"
          ++ optionalRule l "limit_clause")%list.
Proof.
  unfold parseQuery, parseQueryRun, parseQueryFrom. intros E.
  destruct (parseSelectClause _) as [[sel|] s1] eqn:E1; [|discriminate].
  destruct (parseFromClause s1) as [[frm|] s2] eqn:E2; [|discriminate].
  destruct (optionalClause parseWhereClause _ s2) as [k1 s3] eqn:E3.
  destruct (optionalClause parseGroupClause _ s3) as [k2 s4] eqn:E4.
  destruct (optionalClause parseHavingClause _ s4) as [k3 s5] eqn:E5.
  destruct (optionalClause parseOrderClause _ s5) as [k4 s6] eqn:E6.
  destruct (optionalClause parseLimitClause _ s6) as [k5 s7] eqn:E7.
  apply listClause_rule in E1.
  assert (Hfrm : rule frm = "from_clause").
  { unfold parseFromClause in E2.
    destruct (matchLiteral _ s1) as [[|] ?]; inversion E2; reflexivity. }
  eapply optionalClause_rules in E3; [|intros; eapply listClause_rule; eauto].
  eapply optionalClause_rules in E4; [|intros; eapply listClause_rule; eauto].
  eapply optionalClause_rules in E5; [|apply parseHavingClause_rule].
  eapply optionalClause_rules in E6; [|intros; eapply listClause_rule; eauto].
  eapply optionalClause_rules in E7; [|apply parseLimitClause_rule].
  destruct E3 as (w & H3), E4 as (g & H4), E5 as (h & H5), E6 as (o & H6),
    E7 as (l & H7).
  assert (Hkids : map rule k5
    = ([ "select_clause"; "from_clause" ]
       ++ optionalRule w "where_clause" ++ optionalRule g "group_clause"
       ++ optionalRule h "having_clause" ++ optionalRule o "order_clause"
       ++ optionalRule l "limit_clause")%list).
  { rewrite H7, H6, H5, H4, H3. cbn [map app]. rewrite E1, Hfrm.
    rewrite <- !app_assoc. reflexivity. }
  destruct (negb (isAtEnd s7)); cbn [fst] in E; inversion E; subst;
    cbn [rule children]; split; auto; exists w, g, h, o, l; exact Hkids.
Qed.

Lemma root_children_order_witness :
  exists w g h o l,
    map rule
      [ node "select_clause" "SELECT id"
          [node "select_item" "id" [leaf "column_ref" "id"]];
        leaf "from_clause" "FROM github_events";
        node "limit_clause" "LIMIT 5" [leaf "number" "5"] ]
    = ([ "select_clause"; "from_clause" ]
       ++ optionalRule w "where_clause" ++ optionalRule g "group_clause"
       ++ optionalRule h "having_clause" ++ optionalRule o "order_clause"
       ++ optionalRule l "limit_clause")%list.
Proof.
  apply (@root_children_order "SELECT id FROM github_events LIMIT 5"
           (node "query" "SELECT id FROM github_events LIMIT 5"
              [ node "select_clause" "SELECT id"
                  [node "select_item" "id" [leaf "column_ref" "id"]];
                leaf "from_clause" "FROM github_events";
                node "limit_clause" "LIMIT 5" [leaf "number" "5"] ])).
  vm_compute. reflexivity.
Defined.

(* ================================================================ *)
(** ** Longest literal first *)
(* ================================================================ *)

Lemma insertByLength_sorted x l :
  StronglySorted notShorter l -> StronglySorted notShorter (insertByLength x l).
Proof.
  unfold notShorter. induction 1 as [|y l Hs IH Hy]; cbn [insertByLength].
  - repeat constructor.
  - destruct (Nat.leb (String.length y) (String.length x)) eqn:Hle.
    + apply Nat.leb_le in Hle. constructor; [constructor; auto|].
      constructor; [exact Hle|].
      eapply Forall_impl; [|exact Hy]. cbn. intros z Hz. lia.
    + apply Nat.leb_gt in Hle. constructor; [exact IH|].
      apply Forall_forall. intros z Hz. apply In_insertByLength in Hz.
      destruct Hz as [->|Hz]; [lia|].
      rewrite Forall_forall in Hy. auto.
Qed.

Lemma sortByLengthDesc_sorted l :
  StronglySorted notShorter (sortByLengthDesc l).
Proof.
  induction l as [|x l IH]; cbn; [constructor|].
  apply insertByLength_sorted. exact IH.
Qed.

Lemma insertByLength_In x y l : x = y \/ In x l -> In x (insertByLength y l).
Proof.
  induction l as [|z l IH]; cbn [insertByLength]; intros H.
  - destruct H as [->|[]]. now left.
  - destruct (Nat.leb _ _); cbn [In] in *; intuition.
Qed.

Lemma sortByLengthDesc_In x l : In x l <-> In x (sortByLengthDesc l).
Proof.
  split; [|apply In_sortByLengthDesc].
  induction l as [|y l IH]; cbn [sortByLengthDesc fold_right]; [tauto|].
  intros [->|H]; apply insertByLength_In; auto.
Qed.

(** [matchFirst] returns the first literal of its list that is at the
    cursor. *)
Lemma matchFirst_first cands st :
  match matchFirst cands st with
  | (Some c, st') =>
      exists l1 l2, cands = (l1 ++ c :: l2)%list
                    /\ Forall (fun d => ~ atCursor st d) l1
                    /\ atCursor st c
                    /\ st' = advance (String.length c) st
  | (None, st') => st' = st /\ Forall (fun d => ~ atCursor st d) cands
  end.
Proof.
  unfold atCursor.
  induction cands as [|d cands IH]; cbn [matchFirst]; [auto|].
  unfold matchLiteral at 1.
  destruct (startsWith (input st) d (pos st)) eqn:Hd.
  - exists [], cands. cbn. auto.
  - destruct (matchFirst cands st) as [[c|] st'].
    + destruct IH as (l1 & l2 & -> & Hl1 & Hc & Hst).
      exists (d :: l1), l2. repeat split; auto. constructor; auto. congruence.
    + destruct IH as [-> Hall]. split; auto. constructor; auto. congruence.
Qed.

Lemma matchFirst_longest cands st :
  StronglySorted notShorter cands ->
  match matchFirst cands st with
  | (Some c, st') =>
      In c cands /\ atCursor st c
      /\ st' = advance (String.length c) st
      /\ forall d, In d cands -> atCursor st d ->
                   String.length d <= String.length c
  | (None, st') => forall d, In d cands -> ~ atCursor st d
  end.
Proof.
  intros Hsorted. pose proof (matchFirst_first cands st) as H.
  destruct (matchFirst cands st) as [[c|] st'].
  - destruct H as (l1 & l2 & -> & Hl1 & Hc & Hst).
    repeat split; auto; [apply in_elt|].
    intros d Hd Hat. apply in_app_or in Hd. destruct Hd as [Hd|[->|Hd]].
    + rewrite Forall_forall in Hl1. now apply Hl1 in Hd.
    + lia.
    + clear - Hsorted Hd. induction l1 as [|x l1 IH]; cbn in Hsorted.
      * inversion Hsorted; subst.
        match goal with H : Forall _ l2 |- _ => rewrite Forall_forall in H;
          apply H in Hd end. exact Hd.
      * inversion Hsorted; subst. auto.
  - destruct H as [_ Hall]. rewrite Forall_forall in Hall. exact Hall.
Qed.

Lemma matchFirst_sorted_longest cands st :
  match matchFirst (sortByLengthDesc cands) st with
  | (Some c, st') =>
      In c cands /\ atCursor st c
      /\ st' = advance (String.length c) st
      /\ forall d, In d cands -> atCursor st d ->
                   String.length d <= String.length c
  | (None, st') => forall d, In d cands -> ~ atCursor st d
  end.
Proof.
  pose proof (@matchFirst_longest (sortByLengthDesc cands) st
                (sortByLengthDesc_sorted cands)) as H.
  destruct (matchFirst (sortByLengthDesc cands) st) as [[c|] st'].
  - destruct H as (Hin & Hat & Hst & Hmax).
    split; [apply (proj2 (@sortByLengthDesc_In c cands)); exact Hin|].
    split; [exact Hat|]. split; [exact Hst|].
    intros d Hd. apply Hmax.
    apply (proj1 (@sortByLengthDesc_In d cands)). exact Hd.
  - intros d Hd. apply H.
    apply (proj1 (@sortByLengthDesc_In d cands)). exact Hd.
Qed.

Lemma COMPARE_OPS_sorted : StronglySorted notShorter COMPARE_OPS.
Proof.
  unfold COMPARE_OPS.
  repeat (apply SSorted_cons;
          [|repeat (apply Forall_cons; [unfold notShorter; cbn; lia|]);
            apply Forall_nil]).
  apply SSorted_nil.
Qed.

(** X4.  Among the known columns, the aggregate functions, the date
    truncations and the comparison operators, the parser returns the
    longest one that is at the cursor, and it fails only when none is. *)
Theorem longest_literal_first :
  longestOf KNOWN_COLUMNS parseColumnRef
  /\ longestOf AGG_FUNCS parseAggFunc
  /\ longestOf DATE_TRUNC_EXPRS parseDateTruncExpr
  /\ longestOf COMPARE_OPS parseCompareOp.
Proof.
  split; [|split; [|split]]; intros st.
  - pose proof (matchFirst_sorted_longest KNOWN_COLUMNS st) as H.
    unfold parseColumnRef. cbv zeta.
    destruct (matchFirst (sortByLengthDesc KNOWN_COLUMNS) st) as [[c|] st'];
      exact H.
  - pose proof (matchFirst_sorted_longest AGG_FUNCS st) as H.
    unfold parseAggFunc. cbv zeta.
    destruct (matchFirst (sortByLengthDesc AGG_FUNCS) st) as [[c|] st'];
      exact H.
  - pose proof (matchFirst_sorted_longest DATE_TRUNC_EXPRS st) as H.
    unfold parseDateTruncExpr. cbv zeta.
    destruct (matchFirst (sortByLengthDesc DATE_TRUNC_EXPRS) st) as [[c|] st'];
      exact H.
  - pose proof (@matchFirst_longest COMPARE_OPS st COMPARE_OPS_sorted) as H.
    unfold parseCompareOp.
    destruct (matchFirst COMPARE_OPS st) as [[c|] st']; exact H.
Qed.

Lemma longest_literal_first_witness :
  exists n st',
    parseAggFunc (newState "uniqExact(id)") = (Some n, st')
    /\ In "uniq" AGG_FUNCS
    /\ atCursor (newState "uniqExact(id)") "uniq"
    /\ String.length "uniq" <= String.length (matchedText n).
Proof.
  pose proof (proj1 (proj2 longest_literal_first) (newState "uniqExact(id)"))
    as H.
  assert (Hin : In "uniq" AGG_FUNCS) by (vm_compute; tauto).
  assert (Hat : atCursor (newState "uniqExact(id)") "uniq") by reflexivity.
  destruct (parseAggFunc (newState "uniqExact(id)")) as [[n|] st'].
  - exists n, st'. destruct H as (_ & _ & _ & H). auto.
  - destruct (H "uniq" Hin Hat).
Defined.

(* ================================================================ *)
(** ** The text of a node *)
(* ================================================================ *)

Lemma slice_slice s a b : slice (slice s a) b = slice s (a + b).
Proof.
  revert s. induction a as [|a IH]; intros s.
  - destruct s; reflexivity.
  - destruct s as [|c s]; [destruct b; reflexivity|]. apply IH.
Qed.

Lemma matchLiteral_text str st st' :
  matchLiteral str st = (true, st') ->
  remaining st = str ++ remaining st'.
Proof.
  intros E. apply matchLiteral_true in E. destruct E as (H & -> & _).
  unfold startsWith in H. apply isPrefix_split in H. destruct H as (r & Hr).
  unfold remaining, advance. cbn [input pos].
  rewrite <- slice_slice, Hr, slice_app. reflexivity.
Qed.

Lemma matchFirst_text cands st c st' :
  matchFirst cands st = (Some c, st') ->
  remaining st = c ++ remaining st'.
Proof.
  induction cands as [|d cands IH]; cbn [matchFirst]; [discriminate|].
  destruct (matchLiteral d st) as [[|] s1] eqn:E1; intros E.
  - inversion E; subst. now apply matchLiteral_text.
  - apply matchLiteral_false in E1. subst s1. auto.
Qed.

Lemma exec_split re s m : exec re s = Some m -> exists r, s = m ++ r.
Proof.
  revert s m. induction re as [|q re IH]; intros s m H; cbn [exec] in H.
  - inversion H; subst. exists s. reflexivity.
  - destruct (span (qclass q) (qmax q) s) as [m1 r1] eqn:E1.
    apply span_spec in E1. destruct E1 as (-> & _ & _).
    destruct (Nat.ltb _ _); [discriminate|].
    destruct (exec re r1) as [m2|] eqn:E2; [|discriminate].
    inversion H; subst. destruct (IH _ _ E2) as (r & ->).
    exists r. now rewrite append_assoc.
Qed.

Lemma matchRegex_text re st m st' :
  matchRegex re st = (Some m, st') ->
  remaining st = m ++ remaining st'.
Proof.
  unfold matchRegex. destruct (exec re (remaining st)) as [m1|] eqn:E;
    [|discriminate].
  intros H. inversion H; subst. destruct (exec_split _ _ E) as (r & Hr).
  unfold remaining in *. unfold advance. cbn [input pos].
  rewrite <- slice_slice, Hr, slice_app. reflexivity.
Qed.

Create HintDb textdb.

(** Record what the text of a successful call is, then what the call
    does to the cursor. *)
Ltac use_text E :=
  lazymatch type of E with
  | matchLiteral _ _ = (false, _) => apply matchLiteral_false in E; subst
  | matchLiteral _ _ = (true, _) =>
      pose proof (matchLiteral_text _ _ E); use_call E
  | matchFirst _ _ = (Some _, _) =>
      pose proof (matchFirst_text _ _ E); use_call E
  | matchFirst _ _ = (None, _) =>
      apply matchFirst_backtracks_gen in E;
      destruct E as (_ & _ & E); specialize (E eq_refl); subst
  | ?p _ = (Some _, _) =>
      let H := fresh "Hp" in
      assert (H : faithful p) by (eauto with textdb nocore);
      pose proof (proj2 (H _ _ _ E)); clear H; use_call E
  | _ => use_call E
  end.

Ltac use_texts :=
  repeat match goal with
  | E : _ _ = (_, _) |- _ => use_text E
  end.

Lemma state_eta st : mkState (input st) (pos st) = st.
Proof. destruct st; reflexivity. Qed.

(** Follow the successful calls from the entry cursor to the exit
    cursor. *)
Ltac chain :=
  solve
    [ repeat first [rewrite append_assoc | progress (cbn [append])];
      reflexivity
    | match goal with
      | H : slice ?i ?p = _ |- context [slice ?i ?p] =>
          rewrite H; clear H; chain
      end ].

Ltac same_input :=
  repeat match goal with
  | H : ?x = ?x |- _ => clear H
  | H : input ?a = input ?b |- _ => rewrite H in *; clear H
  | H : pos ?a = pos ?b |- _ => rewrite H in *; clear H
  end.

Ltac tests :=
  repeat match goal with
  | H : negb ?b = _ |- _ =>
      destruct b; cbn [negb] in H; try discriminate H; clear H
  end.

Ltac text :=
  repeat break_step; try discriminate; tests; use_texts;
  unfold remaining, save, restore, advance in *;
  cbn [input pos matchedText leaf] in *;
  repeat match goal with
  | H : _ /\ _ |- _ => destruct H
  | H : ?x = ?x -> _ |- _ => specialize (H eq_refl)
  | H : Some _ = None -> _ |- _ => clear H
  | H : _ <= _ |- _ => clear H
  end;
  same_input;
  (split; [reflexivity|chain]).

Lemma regexTerminal_faithful r re : faithful (regexTerminal r re).
Proof.
  intros st n st' E. split; [apply regexTerminal_backtracks in E; tauto|].
  unfold regexTerminal in E.
  destruct (matchRegex re st) as [[[|c m]|] s1] eqn:E1; inversion E; subst.
  cbn [matchedText leaf]. exact (matchRegex_text _ _ E1).
Qed.
#[export] Hint Resolve regexTerminal_faithful : textdb.

Lemma parseNumber_faithful : faithful parseNumber.
Proof. apply regexTerminal_faithful. Qed.
Lemma parseAlias_faithful : faithful parseAlias.
Proof. apply regexTerminal_faithful. Qed.
Lemma parseStringValue_faithful : faithful parseStringValue.
Proof. apply regexTerminal_faithful. Qed.
Lemma parseDateLiteral_faithful : faithful parseDateLiteral.
Proof. apply regexTerminal_faithful. Qed.
#[export] Hint Resolve parseNumber_faithful parseAlias_faithful
  parseStringValue_faithful parseDateLiteral_faithful : textdb.

Lemma parseColumnRef_faithful : faithful parseColumnRef.
Proof. intros st n st' E. unfold parseColumnRef in E. text. Qed.

Lemma parseAggFunc_faithful : faithful parseAggFunc.
Proof. intros st n st' E. unfold parseAggFunc in E. text. Qed.

Lemma parseDateTruncExpr_faithful : faithful parseDateTruncExpr.
Proof. intros st n st' E. unfold parseDateTruncExpr in E. text. Qed.

Lemma parseCompareOp_faithful : faithful parseCompareOp.
Proof. intros st n st' E. unfold parseCompareOp in E. text. Qed.
#[export] Hint Resolve parseColumnRef_faithful parseAggFunc_faithful
  parseDateTruncExpr_faithful parseCompareOp_faithful : textdb.

Lemma parseAggExpr_faithful : faithful parseAggExpr.
Proof. intros st n st' E. unfold parseAggExpr in E. text. Qed.
#[export] Hint Resolve parseAggExpr_faithful : textdb.

Lemma parseSelectItem_faithful : faithful parseSelectItem.
Proof. intros st n st' E. unfold parseSelectItem, aliased in E. text. Qed.

Lemma parseGroupItem_faithful : faithful parseGroupItem.
Proof. intros st n st' E. unfold parseGroupItem in E. text. Qed.

Lemma parseOrderBase_faithful : faithful parseOrderBase.
Proof. intros st n st' E. unfold parseOrderBase, orElse in E. text. Qed.
#[export] Hint Resolve parseOrderBase_faithful : textdb.

Lemma parseOrderItem_faithful : faithful parseOrderItem.
Proof. intros st n st' E. unfold parseOrderItem in E. text. Qed.
#[export] Hint Resolve parseSelectItem_faithful parseGroupItem_faithful
  parseOrderItem_faithful : textdb.

Lemma numericConditionLoop_faithfulTo saved cols :
  faithfulTo saved (numericConditionLoop saved cols).
Proof.
  induction cols as [|col cols IH]; intros st n st' E;
    cbn [numericConditionLoop] in E; [discriminate|].
  repeat break_step;
    try (apply IH in E; cbn [restore input] in E; use_texts;
         unfold restore in *; cbn [input] in *;
         repeat match goal with H : _ /\ _ |- _ => destruct H end;
         split; congruence).
  text.
Qed.

Lemma parseNumericCondition_faithful : faithful parseNumericCondition.
Proof.
  intros st n st' E. unfold parseNumericCondition in E.
  destruct (numericConditionLoop _ _ st) as [[m|] s1] eqn:E1;
    inversion E; subst.
  apply numericConditionLoop_faithfulTo in E1. exact E1.
Qed.

Lemma parseInterval_faithful : faithful parseInterval.
Proof. intros st n st' E. unfold parseInterval in E. text. Qed.

Lemma parseBetween_faithful : faithful parseBetween.
Proof. intros st n st' E. unfold parseBetween in E. text. Qed.
#[export] Hint Resolve parseInterval_faithful parseBetween_faithful : textdb.

Lemma parseDatetimeCondition_faithful : faithful parseDatetimeCondition.
Proof.
  intros st n st' E. unfold parseDatetimeCondition, orRestore, reject in E.
  text.
Qed.

Lemma parseFromClause_text : faithfulAfterSpace parseFromClause.
Proof. intros st n st' E. unfold parseFromClause in E. text. Qed.

Lemma parseHavingClause_text : faithfulAfterSpace parseHavingClause.
Proof. intros st n st' E. unfold parseHavingClause in E. text. Qed.

Lemma parseLimitClause_text : faithfulAfterSpace parseLimitClause.
Proof. intros st n st' E. unfold parseLimitClause in E. text. Qed.

(** X5.  The text of a node is the input its rule function consumed:
    for the terminals, the items of the lists and the numeric and
    date-time conditions, the input at the entry cursor is the text of the
    node followed by the input at the exit cursor; for the FROM, HAVING
    and LIMIT clauses it is a space, the text, and the input at the exit
    cursor. *)
Theorem node_text_is_consumed_input :
  Forall faithful faithfulFunctions
  /\ faithfulAfterSpace parseFromClause
  /\ faithfulAfterSpace parseHavingClause
  /\ faithfulAfterSpace parseLimitClause.
Proof.
  split; [|split; [|split]];
    auto using parseFromClause_text, parseHavingClause_text,
      parseLimitClause_text.
  unfold faithfulFunctions.
  repeat (apply Forall_cons; [auto with textdb nocore|]);
    auto using parseNumericCondition_faithful,
      parseDatetimeCondition_faithful.
Qed.

Lemma node_text_is_consumed_input_witness :
  remaining (mkState "SELECT count(id) AS n FROM github_events" 7)
  = "count(id)"
    ++ remaining (mkState "SELECT count(id) AS n FROM github_events" 16).
Proof.
  pose proof (proj1 node_text_is_consumed_input) as H.
  unfold faithfulFunctions in H.
  do 8 (apply Forall_inv_tail in H). apply Forall_inv in H.
  apply (H (mkState "SELECT count(id) AS n FROM github_events" 7)
           (node "agg_expr" "count(id)"
              [leaf "agg_func" "count"; leaf "column_ref" "id"])).
  vm_compute. reflexivity.
Defined.

(* ================================================================ *)
(** ** The verdict and the surrounding white space *)
(* ================================================================ *)

(** [sql] itself is only the text of the root: the run is that of its
    trimmed form. *)
Lemma parseQueryFrom_root a b st :
  match parseQueryFrom a st, parseQueryFrom b st with
  | (Some m, s1), (Some n, s2) =>
      rule m = rule n /\ children m = children n
      /\ matchedText m = a /\ matchedText n = b /\ s1 = s2
  | (None, s1), (None, s2) => s1 = s2
  | _, _ => False
  end.
Proof.
  unfold parseQueryFrom.
  destruct (parseSelectClause st) as [[sel|] s1]; [|reflexivity].
  destruct (parseFromClause s1) as [[frm|] s2]; [|reflexivity].
  destruct (optionalClause parseWhereClause _ s2) as [k1 s3].
  destruct (optionalClause parseGroupClause _ s3) as [k2 s4].
  destruct (optionalClause parseHavingClause _ s4) as [k3 s5].
  destruct (optionalClause parseOrderClause _ s5) as [k4 s6].
  destruct (optionalClause parseLimitClause _ s6) as [k5 s7].
  destruct (negb (isAtEnd s7)); cbn [rule children matchedText]; auto.
Qed.

Lemma same_trim_same_run (a b : string) :
  trim a = trim b ->
  isValidGrammarSQL a = isValidGrammarSQL b
  /\ option_map rule (parseQuery a) = option_map rule (parseQuery b)
  /\ option_map children (parseQuery a) = option_map children (parseQuery b)
  /\ option_map matchedText (parseQuery a)
     = option_map (fun _ => a) (parseQuery b)
  /\ snd (parseQueryRun a) = snd (parseQueryRun b).
Proof.
  intros Htrim. unfold isValidGrammarSQL, parseQuery, parseQueryRun.
  rewrite Htrim.
  pose proof (parseQueryFrom_root a b (newState (trim b))) as H.
  destruct (parseQueryFrom a (newState (trim b))) as [[m|] s1],
    (parseQueryFrom b (newState (trim b))) as [[n|] s2];
    cbn [fst snd option_map]; try contradiction; auto.
  destruct H as (Hr & Hc & Ha & Hb & Hs).
  rewrite Hr, Hc, Ha, Hs. auto.
Qed.

(** X6.  Two inputs with the same trimmed form get the same verdict, the
    same rule at the root, the same children and the same final cursor:
    of the input as given, only the text of the root is kept. *)
Theorem verdict_of_trimmed_input (a b : string) :
  trim a = trim b ->
  isValidGrammarSQL a = isValidGrammarSQL b
  /\ option_map rule (parseQuery a) = option_map rule (parseQuery b)
  /\ option_map children (parseQuery a) = option_map children (parseQuery b)
  /\ option_map matchedText (parseQuery a)
     = option_map (fun _ => a) (parseQuery b)
  /\ snd (parseQueryRun a) = snd (parseQueryRun b).
Proof. apply same_trim_same_run. Qed.

Lemma verdict_of_trimmed_input_witness :
  isValidGrammarSQL ("  SELECT id FROM github_events" ++ nl) = true
  /\ option_map children
       (parseQuery ("  SELECT id FROM github_events" ++ nl))
     = option_map children (parseQuery "SELECT id FROM github_events").
Proof.
  destruct (@verdict_of_trimmed_input
              ("  SELECT id FROM github_events" ++ nl)
              "SELECT id FROM github_events")
    as (Hv & _ & Hc & _); [vm_compute; reflexivity|].
  split; [rewrite Hv; vm_compute; reflexivity|exact Hc].
Defined.


(** *** [trim] is idempotent *)

Section StripFacts.
Variable w1 : ascii -> bool.
Variable w2 : ascii -> ascii -> bool.
Variable w3 : ascii -> ascii -> ascii -> bool.

Lemma strip_spec n s :
  String.length s <= n ->
  exists p, s = p ++ strip w1 w2 w3 s
            /\ headWs w1 w2 w3 (strip w1 w2 w3 s) = false.
Proof.
  revert s. induction n as [|n IH]; intros s Hn.
  - destruct s; [|cbn in Hn; lia]. exists EmptyString. auto.
  - destruct s as [|c1 r1]; [exists EmptyString; auto|].
    cbn [strip]. cbn [String.length] in Hn.
    destruct (w1 c1) eqn:H1.
    { destruct (IH r1) as (p & Hp & Hh); [lia|].
      exists (String c1 p). cbn [append]. now rewrite <- Hp. }
    destruct r1 as [|c2 r2].
    { exists EmptyString. cbn. auto. }
    cbn [String.length] in Hn.
    destruct (w2 c1 c2) eqn:H2.
    { destruct (IH r2) as (p & Hp & Hh); [lia|].
      exists (String c1 (String c2 p)). cbn [append]. now rewrite <- Hp. }
    destruct r2 as [|c3 r3].
    { exists EmptyString. cbn. rewrite H1, H2. auto. }
    cbn [String.length] in Hn.
    destruct (w3 c1 c2 c3) eqn:H3.
    { destruct (IH r3) as (p & Hp & Hh); [lia|].
      exists (String c1 (String c2 (String c3 p))). cbn [append].
      now rewrite <- Hp. }
    exists EmptyString. cbn. rewrite H1, H2, H3. auto.
Qed.

Lemma strip_fixed s : headWs w1 w2 w3 s = false -> strip w1 w2 w3 s = s.
Proof.
  destruct s as [|c1 [|c2 [|c3 r3]]]; cbn; intros H;
    repeat (apply orb_false_iff in H; destruct H as [H ?]);
    repeat match goal with Hw : _ = false |- _ => rewrite Hw; clear Hw end;
    reflexivity.
Qed.

Lemma strip_idempotent s :
  strip w1 w2 w3 (strip w1 w2 w3 s) = strip w1 w2 w3 s.
Proof.
  destruct (@strip_spec (String.length s) s (le_n _)) as (p & _ & H).
  now apply strip_fixed.
Qed.

Lemma headWs_prefix y z :
  headWs w1 w2 w3 (y ++ z) = false -> headWs w1 w2 w3 y = false.
Proof.
  destruct y as [|c1 [|c2 [|c3 r3]]]; cbn; auto.
  - destruct z as [|d1 [|d2 z]]; intros H;
      repeat (apply orb_false_iff in H; destruct H as [H ?]); auto.
  - destruct z as [|d1 z]; intros H;
      repeat (apply orb_false_iff in H; destruct H as [H ?]);
      apply orb_false_iff; auto.
Qed.

End StripFacts.

Lemma rev_onto_app s acc : rev_onto s acc = rev s ++ acc.
Proof.
  unfold rev. revert acc. induction s as [|c s IH]; intros acc; cbn.
  - reflexivity.
  - rewrite IH, (IH (String c EmptyString)), append_assoc. reflexivity.
Qed.

Lemma rev_app a b : rev (a ++ b) = rev b ++ rev a.
Proof.
  induction a as [|c a IH]; cbn [append].
  - now rewrite append_empty_r.
  - unfold rev at 1 3. cbn [rev_onto]. rewrite !rev_onto_app, IH.
    now rewrite append_assoc.
Qed.

Lemma rev_involutive s : rev (rev s) = s.
Proof.
  induction s as [|c s IH]; [reflexivity|].
  unfold rev at 2. cbn [rev_onto]. rewrite rev_onto_app, rev_app, IH.
  reflexivity.
Qed.

Lemma trim_idempotent s : trim (trim s) = trim s.
Proof.
  unfold trim, trimEnd, trimStart.
  set (x := strip ws1 ws2 ws3 s).
  set (w2' := fun a b => ws2 b a). set (w3' := fun a b c => ws3 c b a).
  set (t := strip ws1 w2' w3' (rev x)).
  assert (Hx : headWs ws1 ws2 ws3 x = false).
  { destruct (@strip_spec ws1 ws2 ws3 (String.length s) s (le_n _))
      as (p & _ & H). exact H. }
  destruct (@strip_spec ws1 w2' w3' (String.length (rev x)) (rev x) (le_n _))
    as (p & Hp & _). fold t in Hp.
  assert (Hxt : x = rev t ++ rev p).
  { rewrite <- rev_app, <- Hp, rev_involutive. reflexivity. }
  rewrite (@strip_fixed ws1 ws2 ws3 (rev t)).
  - rewrite rev_involutive. unfold t. now rewrite strip_idempotent.
  - apply headWs_prefix with (z := rev p). now rewrite <- Hxt.
Qed.

(** X7.  The verdict on an input is the verdict on its trimmed form. *)
Theorem verdict_ignores_outer_space (sql : string) :
  isValidGrammarSQL (trim sql) = isValidGrammarSQL sql.
Proof.
  apply same_trim_same_run. apply trim_idempotent.
Qed.

(* ================================================================ *)
(** ** What is parsed at all *)
(* ================================================================ *)

(** X8.  [parseQuery] returns a node, complete or partial, only for an
    input whose trimmed form starts with [SELECT ] and holds
    [ FROM github_events]: any other statement gets [null]. *)
Theorem parsed_only_select_from (sql : string) (n : GrammarDerivationNode) :
  parseQuery sql = Some n ->
  startsWith (trim sql) "SELECT " 0 = true
  /\ includes (trim sql) " FROM github_events" = true.
Proof.
  unfold parseQuery, parseQueryRun, parseQueryFrom.
  destruct (parseSelectClause (newState (trim sql))) as [[sel|] st1] eqn:E1;
    cbn [fst]; try discriminate.
  destruct (parseFromClause st1) as [[frm|] st2] eqn:E2;
    cbn [fst]; try discriminate.
  intros _. split.
  - unfold parseSelectClause, listClause in E1.
    destruct (matchLiteral "SELECT " (newState (trim sql))) as [[|] st0] eqn:E0.
    + apply matchLiteral_true in E0. apply E0.
    + cbn [negb] in E1. discriminate E1.
  - apply parseSelectClause_backtracks in E1. destruct E1 as (Hin & _).
    unfold parseFromClause in E2.
    destruct (matchLiteral " FROM github_events" st1) as [[|] st3] eqn:E3;
      [|discriminate].
    apply matchLiteral_true in E3. destruct E3 as (Hstart & _).
    rewrite Hin in Hstart. cbn [input newState] in Hstart.
    eapply startsWith_includes; eauto.
Qed.

Lemma parsed_only_select_from_witness :
  startsWith (trim " SELECT id FROM github_events; DROP TABLE t") "SELECT " 0
  = true
  /\ includes (trim " SELECT id FROM github_events; DROP TABLE t")
       " FROM github_events" = true.
Proof.
  apply (@parsed_only_select_from
           " SELECT id FROM github_events; DROP TABLE t"
           (node "query (partial)"
              " SELECT id FROM github_events; DROP TABLE t"
              [ node "select_clause" "SELECT id"
                  [node "select_item" "id" [leaf "column_ref" "id"]];
                leaf "from_clause" "FROM github_events" ])).
  vm_compute. reflexivity.
Defined.

(* ================================================================ *)
(** ** The text of a terminal *)
(* ================================================================ *)

Lemma exec_shaped re s m : exec re s = Some m -> shaped re m.
Proof.
  revert s m. induction re as [|q re IH]; intros s m H; cbn [exec] in H.
  - inversion H; subst. reflexivity.
  - destruct (span (qclass q) (qmax q) s) as [m1 r1] eqn:E1.
    apply span_spec in E1. destruct E1 as (-> & Hc & Hmax).
    destruct (Nat.ltb (String.length m1) (qmin q)) eqn:Hmin; [discriminate|].
    apply Nat.ltb_ge in Hmin.
    destruct (exec re r1) as [m2|] eqn:E2; [|discriminate].
    inversion H; subst. exists m1, m2.
    split; [reflexivity|]. split; [exact Hc|]. split; [lia|eauto].
Qed.

(** X9.  A regex terminal returns a leaf whose text is not empty and
    has the shape of its pattern: for a number one to six digits, for a
    string value one to a hundred characters of [[a-zA-Z0-9_.-/]], for an
    alias a character of [[a-z_]] and up to 29 of [[a-z0-9_]], for a date
    literal four digits, a hyphen, two digits, a hyphen and two digits. *)
Theorem terminal_text_has_pattern_shape (r : string) (re : RegExp)
    (st : ParseState) (n : GrammarDerivationNode) (st' : ParseState) :
  regexTerminal r re st = (Some n, st') ->
  n = leaf r (matchedText n)
  /\ matchedText n <> EmptyString
  /\ shaped re (matchedText n).
Proof.
  unfold regexTerminal, matchRegex. intros E.
  destruct (exec re (remaining st)) as [[|c m]|] eqn:Em;
    inversion E; subst.
  cbn [matchedText leaf]. split; [reflexivity|]. split; [discriminate|].
  eapply exec_shaped; eauto.
Qed.

Lemma terminal_text_has_pattern_shape_witness :
  parseNumber (newState "1234567890")
  = (Some (leaf "number" "123456"), mkState "1234567890" 6)
  /\ shaped reNumber "123456".
Proof.
  split; [vm_compute; reflexivity|].
  apply (@terminal_text_has_pattern_shape "number" reNumber
           (newState "1234567890") (leaf "number" "123456")
           (mkState "1234567890" 6)).
  vm_compute. reflexivity.
Defined.

(* ================================================================ *)
(** ** The classification of the columns *)
(* ================================================================ *)

Lemma startsWith_split t lit :
  startsWith t lit 0 = true -> exists r, t = lit ++ r.
Proof.
  unfold startsWith. destruct t; cbn [slice]; apply isPrefix_split.
Qed.

(** Name the shape of a type of which a type test holds. *)
Ltac type_shape H :=
  repeat (apply orb_true_iff in H; destruct H as [H|H]);
  first [ apply String.eqb_eq in H; subst
        | apply startsWith_split in H; destruct H as (? & ->) ].

Lemma exclusiveTypes_all (t : string) : exclusiveTypes t.
Proof.
  unfold exclusiveTypes.
  split; [|split]; intros H.
  - unfold isStringType in H. type_shape H; repeat split; reflexivity.
  - unfold isNumericType in H. type_shape H; repeat split; reflexivity.
  - unfold isDateTimeType in H. type_shape H; reflexivity.
Qed.

(** X10.  The type tests of the schema registry are exclusive: a type
    is at most one of string, numeric, date-time and enum. *)
Theorem type_tests_are_exclusive (t : string) : exclusiveTypes t.
Proof. apply exclusiveTypes_all. Qed.


Lemma classifyColumns_from cols acc :
  let keep f :=
    map name
      (filter (fun col => f (type col))
         (filter (fun col => negb (hasValues col)) cols)) in
  fold_left classifyColumn cols acc
  = mkClassified
      (stringCols acc ++ keep isStringType)%list
      (numericCols acc ++ keep isNumericType)%list
      (dateTimeCols acc ++ keep isDateTimeType)%list
      (enumCols acc ++ valued cols)%list
      (allCols acc ++ map name cols)%list.
Proof.
  cbv zeta. revert acc.
  induction cols as [|col cols IH]; intros acc; cbn [fold_left].
  - cbn. rewrite !app_nil_r. destruct acc; reflexivity.
  - rewrite IH. clear IH.
    unfold classifyColumn, valued, hasValues.
    cbn [filter map flat_map].
    destruct (nonEmptyValues col) as [values|];
      cbn [negb filter map app
           stringCols numericCols dateTimeCols enumCols allCols].
    + rewrite <- !app_assoc. reflexivity.
    + destruct (exclusiveTypes_all (type col)) as (Hs & Hn & Hd).
      destruct (isDateTimeType (type col)) eqn:Ed,
        (isStringType (type col)) eqn:Es,
        (isNumericType (type col)) eqn:En;
        try (destruct (Hs eq_refl) as (? & ? & ?); discriminate);
        try (destruct (Hn eq_refl) as (? & ?); discriminate);
        cbn [map app stringCols numericCols dateTimeCols enumCols allCols];
        rewrite <- ?app_assoc; reflexivity.
Qed.

(** X11.  [classifyColumns] keeps every column name in [allCols] and
    the columns that carry enum values in [enumCols]; of the others, its
    string, numeric and date-time lists are those of [getStringColumns],
    [getNumericColumns] and [getDateTimeColumns]: the order of its type
    tests decides nothing. *)
Theorem classifyColumns_lists (schema : TableSchema) :
  allCols (classifyColumns schema) = map name (columns schema)
  /\ enumCols (classifyColumns schema) = valued (columns schema)
  /\ stringCols (classifyColumns schema)
     = getStringColumns (withoutValues schema)
  /\ numericCols (classifyColumns schema)
     = getNumericColumns (withoutValues schema)
  /\ dateTimeCols (classifyColumns schema)
     = getDateTimeColumns (withoutValues schema).
Proof.
  unfold classifyColumns. rewrite classifyColumns_from.
  cbn [allCols enumCols stringCols numericCols dateTimeCols app].
  unfold getStringColumns, getNumericColumns, getDateTimeColumns,
    withoutValues. cbn [columns].
  repeat split; reflexivity.
Qed.

(** *** The column references *)

Lemma existsb_eqb_In x l : existsb (String.eqb x) l = true <-> In x l.
Proof.
  rewrite existsb_exists. split.
  - intros (y & Hy & Hxy). apply String.eqb_eq in Hxy. now subst.
  - intros H. exists x. split; [exact H|apply String.eqb_refl].
Qed.

Lemma dedupe_spec seen l :
  NoDup (dedupe seen l)
  /\ forall x, In x (dedupe seen l) <-> In x l /\ ~ In x seen.
Proof.
  revert seen. induction l as [|y l IH]; intros seen; cbn [dedupe].
  - split; [constructor|]. cbn. tauto.
  - destruct (existsb (String.eqb y) seen) eqn:E.
    + apply existsb_eqb_In in E. destruct (IH seen) as (Hn & Hin).
      split; [exact Hn|]. intros x. rewrite Hin. cbn [In].
      split; [tauto|]. intros [[->|H] Hs]; tauto.
    + assert (Hy : ~ In y seen).
      { intros H. apply existsb_eqb_In in H. congruence. }
      destruct (IH (y :: seen)) as (Hn & Hin). split.
      * constructor; [|exact Hn]. rewrite Hin. cbn [In]. tauto.
      * intros x. cbn [In]. rewrite Hin. cbn [In].
        destruct (string_dec y x) as [->|Hne]; tauto.
Qed.

Lemma In_valued x cols :
  In x (map fst (valued cols))
  <-> exists col, In col cols /\ name col = x /\ hasValues col = true.
Proof.
  unfold valued, hasValues. rewrite in_map_iff. split.
  - intros ([n vs] & <- & H). apply in_flat_map in H.
    destruct H as (col & Hcol & H).
    destruct (nonEmptyValues col) as [values|] eqn:E; [|destruct H].
    destruct H as [H|[]]. inversion H; subst. exists col. rewrite E. auto.
  - intros (col & Hcol & <- & H).
    destruct (nonEmptyValues col) as [values|] eqn:E; [|discriminate].
    exists (name col, values). split; [reflexivity|].
    apply in_flat_map. exists col. rewrite E. cbn. auto.
Qed.

Lemma In_kept f x cols :
  In x (map name
          (filter (fun col => f (type col))
             (filter (fun col => negb (hasValues col)) cols)))
  <-> exists col, In col cols /\ name col = x
                  /\ hasValues col = false /\ f (type col) = true.
Proof.
  rewrite in_map_iff. split.
  - intros (col & <- & H). apply filter_In in H. destruct H as [H Hf].
    apply filter_In in H. destruct H as [H Hv].
    apply negb_true_iff in Hv. eauto.
  - intros (col & H & <- & Hv & Hf). exists col. split; [reflexivity|].
    apply filter_In. split; [|exact Hf]. apply filter_In. split; [exact H|].
    now rewrite Hv.
Qed.

(** X12.  The alternatives of [column_ref] are, without repetition, the
    names of the columns that [classifyColumns] puts in one of its lists:
    the columns that carry enum values and those of a string, numeric or
    date-time type.  A column of another type is never a column
    reference. *)
Theorem column_refs_are_classified_columns (schema : TableSchema) :
  NoDup (uniqueColumnRef (classifyColumns schema))
  /\ forall x,
       In x (uniqueColumnRef (classifyColumns schema))
       <-> exists col, In col (columns schema) /\ name col = x
                       /\ classified col = true.
Proof.
  unfold uniqueColumnRef.
  match goal with
  | |- context [dedupe [] ?l] => destruct (dedupe_spec [] l) as (Hn & Hin)
  end.
  split; [exact Hn|]. intros x. rewrite Hin. clear Hn Hin.
  rewrite filter_In, existsb_eqb_In.
  unfold classifyColumns. rewrite classifyColumns_from.
  cbn [allCols enumCols stringCols numericCols dateTimeCols app].
  rewrite !in_app_iff, !In_kept, In_valued, in_map_iff.
  unfold classified. split.
  - intros [[H _] _].
    destruct H as [H|[H|[H|H]]];
      [ destruct H as (col & Hc & Hx & Hv & Hf)
      | destruct H as (col & Hc & Hx & Hv & Hf)
      | destruct H as (col & Hc & Hx & Hv & Hf)
      | destruct H as (col & Hc & Hx & Hv) ];
      exists col; (split; [exact Hc|]); (split; [exact Hx|]);
      rewrite Hv, ?Hf, ?orb_true_r; reflexivity.
  - intros (col & Hc & Hx & H). split; [|intros []].
    split; [|exists col; auto].
    destruct (hasValues col) eqn:Hv.
    { right. right. right. exists col. auto. }
    cbn [orb] in H.
    destruct (isDateTimeType (type col)) eqn:Ed.
    { right. right. left. exists col. auto. }
    destruct (isStringType (type col)) eqn:Es.
    { left. exists col. auto. }
    cbn [orb] in H. right. left. exists col. auto.
Qed.

(* ================================================================ *)
(** ** The grammar evals *)
(* ================================================================ *)

Lemma runCases_passed {A : Type} (body : A -> Z -> EvalCaseResult.t)
    (cases : list A) (now : Clock) (tick : nat) :
  (forall tc d, EvalCaseResult.passed (body tc d)
                = EvalCaseResult.passed (body tc 0%Z)) ->
  forallb (fun tc => EvalCaseResult.passed (body tc 0%Z)) cases = true ->
  Forall (fun r => EvalCaseResult.passed r = true)
    (fst (runCases body cases now tick))
  /\ List.length (fst (runCases body cases now tick)) = List.length cases.
Proof.
  intros Hd. revert tick.
  induction cases as [|tc cases IH]; intros tick H; cbn [runCases].
  - split; [constructor|reflexivity].
  - cbn [forallb] in H. apply andb_true_iff in H. destruct H as [Htc H].
    specialize (IH (S (S tick)) H).
    destruct (runCases body cases now (S (S tick))) as [rs tick'].
    cbn [fst List.length] in *. destruct IH as [IH Hlen].
    split; [|now rewrite Hlen].
    constructor; [now rewrite Hd|exact IH].
Qed.

Lemma coverage_cases_pass :
  forallb (fun tc => EvalCaseResult.passed (coverageResult tc 0%Z))
    COVERAGE_CASES = true.
Proof. vm_compute. reflexivity. Qed.

Lemma safety_cases_pass :
  forallb (fun tc => EvalCaseResult.passed (safetyResult tc 0%Z))
    SAFETY_CASES = true.
Proof. vm_compute. reflexivity. Qed.

(** X13.  Whatever the category filter and the clock, every result of
    [runGrammarEvals] has passed: the verifier accepts the 25 coverage
    cases and rejects the 18 safety cases.  Without a filter there are 43
    results. *)
Theorem grammar_evals_pass (categoryFilter : option string) (now : Clock) :
  Forall (fun r => EvalCaseResult.passed r = true)
    (runGrammarEvals categoryFilter now)
  /\ List.length (runGrammarEvals None now) = 43.
Proof.
  assert (Hc : forall tick,
    Forall (fun r => EvalCaseResult.passed r = true)
      (fst (runCases coverageResult COVERAGE_CASES now tick))
    /\ List.length (fst (runCases coverageResult COVERAGE_CASES now tick))
       = 25).
  { intros tick. apply runCases_passed; [reflexivity|].
    exact coverage_cases_pass. }
  assert (Hs : forall tick,
    Forall (fun r => EvalCaseResult.passed r = true)
      (fst (runCases safetyResult SAFETY_CASES now tick))
    /\ List.length (fst (runCases safetyResult SAFETY_CASES now tick))
       = 18).
  { intros tick. apply runCases_passed; [reflexivity|].
    exact safety_cases_pass. }
  split.
  - unfold runGrammarEvals.
    destruct (selected categoryFilter "grammar-coverage").
    + specialize (Hc 0).
      destruct (runCases coverageResult COVERAGE_CASES now 0) as [cov tick].
      destruct (selected categoryFilter "grammar-safety").
      * specialize (Hs tick).
        destruct (runCases safetyResult SAFETY_CASES now tick) as [saf ?].
        apply Forall_app. split; [apply Hc|apply Hs].
      * rewrite app_nil_r. apply Hc.
    + destruct (selected categoryFilter "grammar-safety").
      * specialize (Hs 0).
        destruct (runCases safetyResult SAFETY_CASES now 0) as [saf ?].
        apply Hs.
      * constructor.
  - unfold runGrammarEvals. cbn [selected].
    specialize (Hc 0).
    destruct (runCases coverageResult COVERAGE_CASES now 0) as [cov tick].
    specialize (Hs tick).
    destruct (runCases safetyResult SAFETY_CASES now tick) as [saf ?].
    rewrite List.length_app. cbn [fst] in *.
    destruct Hc as [_ ->], Hs as [_ ->]. reflexivity.
Qed.

(* ================================================================ *)
(** ** The shape of a derivation tree *)
(* ================================================================ *)

Lemma wellFormed_node r t kids :
  wellFormed (node r t kids)
  = match production r with
    | Some (Literals l) =>
        match kids with [] => existsb (String.eqb t) l | _ => false end
    | Some (Pattern re) =>
        match kids with [] => fullMatch re t | _ => false end
    | Some (Children ok) => ok (map rule kids) && forallb wellFormed kids
    | None => false
    end.
Proof. reflexivity. Qed.

(** *** A match of a pattern is matched whole by the pattern *)

Lemma span_stop c n s m r :
  span c n s = (m, r) ->
  String.length m = n \/ r = EmptyString
  \/ exists a r', r = String a r' /\ c a = false.
Proof.
  revert s m r. induction n as [|n IH]; intros s m r H; cbn [span] in H.
  - destruct s; inversion H; subst; auto.
  - destruct s as [|a s]; [inversion H; subst; auto|].
    destruct (c a) eqn:Hc.
    + destruct (span c n s) as [m1 r1] eqn:E. inversion H; subst.
      destruct (IH _ _ _ E) as [Hl|Hr]; [left; cbn; lia|right; exact Hr].
    + inversion H; subst. right. right. eauto.
Qed.

Lemma span_run c n m r :
  allChars c m = true -> String.length m <= n ->
  (String.length m = n \/ r = EmptyString
   \/ exists a r', r = String a r' /\ c a = false) ->
  span c n (m ++ r) = (m, r).
Proof.
  revert n. induction m as [|a m IH]; intros n Hall Hlen Hstop.
  - cbn [append]. destruct n as [|n].
    + destruct r; reflexivity.
    + cbn [String.length] in Hstop.
      destruct Hstop as [Hn|[->|(b & r' & -> & Hb)]];
        [discriminate|reflexivity|].
      cbn [span]. now rewrite Hb.
  - cbn [allChars] in Hall. apply andb_true_iff in Hall.
    destruct Hall as [Ha Hall]. cbn [String.length] in *.
    destruct n as [|n]; [lia|].
    cbn [append span]. rewrite Ha, IH; auto; [lia|].
    destruct Hstop as [Hn|Hstop]; [left; lia|right; exact Hstop].
Qed.

Lemma exec_whole re s m : exec re s = Some m -> exec re m = Some m.
Proof.
  revert s m. induction re as [|q re IH]; intros s m H; cbn [exec] in H.
  - inversion H; subst. reflexivity.
  - destruct (span (qclass q) (qmax q) s) as [m1 r1] eqn:E1.
    pose proof (span_stop _ _ _ E1) as Hstop.
    apply span_spec in E1. destruct E1 as (-> & Hc & Hmax).
    destruct (Nat.ltb (String.length m1) (qmin q)) eqn:Hmin; [discriminate|].
    destruct (exec re r1) as [m2|] eqn:E2; [|discriminate].
    inversion H; subst. cbn [exec].
    destruct (exec_split _ _ E2) as (r' & Hr').
    rewrite span_run; auto.
    + rewrite Hmin, (IH _ _ E2). reflexivity.
    + destruct Hstop as [Hl|[->|(a & r2 & -> & Ha)]]; [left; exact Hl| |].
      * right. left. destruct m2; [reflexivity|discriminate Hr'].
      * right. destruct m2 as [|b m2]; [left; reflexivity|].
        right. cbn [append] in Hr'. inversion Hr'; subst. eauto.
Qed.

Lemma regexTerminal_forms r re :
  production r = Some (Pattern re) -> forms [r] (regexTerminal r re).
Proof.
  intros Hr st n st' E. unfold regexTerminal, matchRegex in E.
  destruct (exec re (remaining st)) as [[|c m]|] eqn:Em;
    inversion E; subst.
  split; [|cbn; auto].
  unfold leaf. rewrite wellFormed_node, Hr. unfold fullMatch.
  rewrite (exec_whole _ _ Em), String.eqb_refl. reflexivity.
Qed.

Create HintDb formdb.

Lemma parseNumber_forms : forms ["number"] parseNumber.
Proof. now apply regexTerminal_forms. Qed.
Lemma parseAlias_forms : forms ["alias"] parseAlias.
Proof. now apply regexTerminal_forms. Qed.
Lemma parseStringValue_forms : forms ["string_value"] parseStringValue.
Proof. now apply regexTerminal_forms. Qed.
Lemma parseDateLiteral_forms : forms ["date_literal"] parseDateLiteral.
Proof. now apply regexTerminal_forms. Qed.
#[export] Hint Resolve parseNumber_forms parseAlias_forms
  parseStringValue_forms parseDateLiteral_forms : formdb.

(** *** The leaves over a list of literals *)

Lemma literal_leaf r l c :
  production r = Some (Literals l) -> In c l ->
  wellFormed (leaf r c) = true.
Proof.
  intros Hr Hc. unfold leaf. rewrite wellFormed_node, Hr.
  now apply existsb_eqb_In.
Qed.

Lemma matchFirst_leaf r l cands st c st' :
  production r = Some (Literals l) -> incl cands l ->
  matchFirst cands st = (Some c, st') ->
  wellFormed (leaf r c) = true.
Proof.
  intros Hr Hincl E. apply matchFirst_some in E. destruct E as (Hc & _).
  eapply literal_leaf; eauto.
Qed.

Lemma sorted_incl l : incl (sortByLengthDesc l) l.
Proof. intros x. apply In_sortByLengthDesc. Qed.

Lemma parseColumnRef_forms : forms ["column_ref"] parseColumnRef.
Proof.
  intros st n st' E. unfold parseColumnRef in E.
  repeat break_step; try discriminate. split; [|cbn; auto].
  eapply matchFirst_leaf; eauto using sorted_incl. reflexivity.
Qed.

Lemma parseAggFunc_forms : forms ["agg_func"] parseAggFunc.
Proof.
  intros st n st' E. unfold parseAggFunc in E.
  repeat break_step; try discriminate. split; [|cbn; auto].
  eapply matchFirst_leaf; eauto using sorted_incl. reflexivity.
Qed.

Lemma parseDateTruncExpr_forms : forms ["date_trunc_expr"] parseDateTruncExpr.
Proof.
  intros st n st' E. unfold parseDateTruncExpr in E.
  repeat break_step; try discriminate. split; [|cbn; auto].
  eapply matchFirst_leaf; eauto using sorted_incl. reflexivity.
Qed.

Lemma parseCompareOp_forms : forms ["compare_op"] parseCompareOp.
Proof.
  intros st n st' E. unfold parseCompareOp in E.
  repeat break_step; try discriminate. split; [|cbn; auto].
  eapply matchFirst_leaf; eauto using incl_refl. reflexivity.
Qed.

Lemma parseFromClause_forms : forms ["from_clause"] parseFromClause.
Proof.
  intros st n st' E. unfold parseFromClause in E.
  repeat break_step; try discriminate. split; [reflexivity|cbn; auto].
Qed.
#[export] Hint Resolve parseColumnRef_forms parseAggFunc_forms
  parseDateTruncExpr_forms parseCompareOp_forms parseFromClause_forms : formdb.

(** Turn the equation of a successful call into the shape of its node,
    and forget the other calls. *)
Ltac use_form E :=
  lazymatch type of E with
  | matchFirst _ _ = (Some _, _) => idtac
  | ?p _ = (Some _, _) =>
      let H := fresh "Hp" in
      eassert (H : forms _ p) by (eauto with formdb nocore);
      apply H in E; clear H
  | _ => clear E
  end.

Ltac use_forms :=
  repeat match goal with
  | E : ?p _ = (_, _) |- _ =>
      lazymatch p with
      | matchFirst _ => fail
      | _ => use_form E
      end
  end.

(** Settle the shape of a node built from nodes of known shape. *)
Ltac formed :=
  unfold orderBaseRules, conditionRules in *;
  repeat match goal with
  | H : _ /\ _ |- _ => destruct H
  | H : In _ (_ :: _) |- _ => destruct H as [H|H]
  | H : In _ [] |- _ => destruct H
  end;
  try match goal with
  | |- wellFormed (node ?r ?t ?k) = true /\ _ =>
      rewrite (wellFormed_node r t k)
  end;
  cbn [map rule forallb];
  repeat match goal with
  | H : _ = rule _ |- _ => rewrite <- H; clear H
  end;
  repeat match goal with
  | H : wellFormed _ = true |- _ => rewrite H; clear H
  end;
  (split; [reflexivity|cbn; tauto]).

Ltac form := repeat break_step; try discriminate; tests; use_forms; formed.

Lemma parseAggExpr_forms : forms ["agg_expr"] parseAggExpr.
Proof. intros st n st' E. unfold parseAggExpr in E. form. Qed.
#[export] Hint Resolve parseAggExpr_forms : formdb.

Lemma parseSelectItem_forms : forms ["select_item"] parseSelectItem.
Proof. intros st n st' E. unfold parseSelectItem, aliased in E. form. Qed.

Lemma parseGroupItem_forms : forms ["group_item"] parseGroupItem.
Proof. intros st n st' E. unfold parseGroupItem in E. form. Qed.

Lemma parseOrderBase_forms : forms orderBaseRules parseOrderBase.
Proof. intros st n st' E. unfold parseOrderBase, orElse in E. form. Qed.
#[export] Hint Resolve parseOrderBase_forms : formdb.

Lemma parseOrderItem_forms : forms ["order_item"] parseOrderItem.
Proof. intros st n st' E. unfold parseOrderItem in E. form. Qed.

Lemma parseHavingClause_forms : forms ["having_clause"] parseHavingClause.
Proof. intros st n st' E. unfold parseHavingClause in E. form. Qed.

Lemma parseLimitClause_forms : forms ["limit_clause"] parseLimitClause.
Proof. intros st n st' E. unfold parseLimitClause in E. form. Qed.
#[export] Hint Resolve parseSelectItem_forms parseGroupItem_forms
  parseOrderItem_forms parseHavingClause_forms parseLimitClause_forms : formdb.

(** *** The lists *)

Lemma listOf_rules rules items :
  items <> [] -> itemsFormed rules items ->
  listOf rules (map rule items) = true
  /\ forallb wellFormed items = true.
Proof.
  intros Hne Hall.
  assert (H : forallb (fun k => existsb (String.eqb k) rules)
                (map rule items) = true
              /\ forallb wellFormed items = true).
  { clear Hne. unfold itemsFormed in Hall.
    induction Hall as [|x l Hx Hl IH]; [auto|].
    destruct Hx as [Hwf Hx], IH as [IH1 IH2].
    cbn [map forallb]. rewrite IH1, IH2, Hwf.
    rewrite (proj2 (existsb_eqb_In _ _) Hx). auto. }
  destruct H as [H1 H2]. split; [|exact H2].
  unfold listOf. rewrite H1.
  destruct items; [congruence|reflexivity].
Qed.

Lemma sepLoop_forms rules fuel sep item items st items' st' :
  forms rules item -> itemsFormed rules items ->
  sepLoop fuel sep item items st = (items', st') ->
  itemsFormed rules items' /\ (items <> [] -> items' <> []).
Proof.
  intros Hitem. revert items st.
  induction fuel as [|fuel IH]; intros items st Hitems E; cbn [sepLoop] in E.
  - inversion E; subst. auto.
  - destruct (matchLiteral sep st) as [[|] st1]; [|inversion E; subst; auto].
    destruct (item st1) as [[next|] st2] eqn:E2; [|inversion E; subst; auto].
    apply Hitem in E2. apply IH in E.
    + destruct E as [Hall Hne]. split; [exact Hall|].
      intros _. apply Hne. now destruct items.
    + apply Forall_app. split; [exact Hitems|]. constructor; auto.
Qed.

Lemma listClause_forms rules r keyword head sep item :
  production r = Some (Children (listOf rules)) -> forms rules item ->
  forms [r] (listClause r keyword head sep item).
Proof.
  intros Hr Hitem st n st' E. unfold listClause in E.
  destruct (matchLiteral keyword st) as [[|] st1]; [|discriminate].
  cbn [negb] in E.
  destruct (item st1) as [[first|] st2] eqn:E1; [|discriminate].
  destruct (sepLoop (loopFuel st2) sep item [first] st2) as [items st3] eqn:E2.
  inversion E; subst. split; [|cbn; auto].
  apply Hitem in E1.
  eapply sepLoop_forms in E2; eauto; [|constructor; auto].
  destruct E2 as [Hall Hne].
  rewrite wellFormed_node, Hr.
  destruct (@listOf_rules rules items) as [-> ->]; auto.
  apply Hne. discriminate.
Qed.

Lemma parseSelectClause_forms : forms ["select_clause"] parseSelectClause.
Proof.
  eapply listClause_forms; [reflexivity|apply parseSelectItem_forms].
Qed.

Lemma parseGroupClause_forms : forms ["group_clause"] parseGroupClause.
Proof.
  eapply listClause_forms; [reflexivity|apply parseGroupItem_forms].
Qed.

Lemma parseOrderClause_forms : forms ["order_clause"] parseOrderClause.
Proof.
  eapply listClause_forms; [reflexivity|apply parseOrderItem_forms].
Qed.

(** *** The conditions *)

Lemma parseStringValue_value st v st' :
  parseStringValue st = (Some v, st') ->
  wellFormed v = true /\ rule v = "string_value".
Proof.
  intros E. apply parseStringValue_forms in E. destruct E as [Hwf [H|[]]].
  auto.
Qed.

Lemma parseEquals_node r col kids st n st' :
  parseEquals r col kids st = (Some n, st') -> valueNode r kids n.
Proof.
  unfold parseEquals. intros E. repeat break_step; try discriminate.
  match goal with
  | H : parseStringValue _ = _ |- _ => apply parseStringValue_value in H
  end.
  eexists _, [_]. split; [reflexivity|]. split; [discriminate|].
  constructor; auto.
Qed.

Lemma parseLike_node r col kids st n st' :
  parseLike r col kids st = (Some n, st') -> valueNode r kids n.
Proof.
  unfold parseLike. intros E. repeat break_step; try discriminate.
  match goal with
  | H : parseStringValue _ = _ |- _ => apply parseStringValue_value in H
  end.
  eexists _, [_]. split; [reflexivity|]. split; [discriminate|].
  constructor; auto.
Qed.

Lemma valueLoop_formed fuel values st values' st' :
  valuesFormed values ->
  valueLoop fuel values st = (values', st') -> valuesFormed values'.
Proof.
  revert values st.
  induction fuel as [|fuel IH]; intros values st Hv E; cbn [valueLoop] in E.
  - inversion E; subst. exact Hv.
  - destruct (matchLiteral ", '" st) as [[|] st1]; [|inversion E; subst; auto].
    destruct (parseStringValue st1) as [[next|] st2] eqn:E2;
      [|inversion E; subst; auto].
    destruct (matchLiteral "'" st2) as [[|] st3]; [|inversion E; subst; auto].
    apply parseStringValue_value in E2. apply IH in E; auto.
    apply Forall_app. split; [exact Hv|]. constructor; auto.
Qed.

Lemma parseValues_formed st values st' :
  parseValues st = (values, st') -> valuesFormed values.
Proof.
  unfold parseValues. intros E.
  destruct (matchLiteral "'" st) as [[|] st1];
    [|inversion E; subst; constructor].
  destruct (parseStringValue st1) as [[v|] st2] eqn:E2;
    [|inversion E; subst; constructor].
  destruct (matchLiteral "'" st2) as [[|] st3];
    [|inversion E; subst; constructor].
  apply parseStringValue_value in E2.
  eapply valueLoop_formed; eauto. constructor; auto.
Qed.

Lemma parseIn_node r col kids st n st' :
  parseIn r col kids st = (Some n, st') -> valueNode r kids n.
Proof.
  unfold parseIn. intros E.
  destruct (matchLiteral (col ++ " IN (") st) as [[|] st1]; [|discriminate].
  destruct (parseValues st1) as [values st2] eqn:E2.
  destruct (matchLiteral ")" st2) as [[|] st3]; cbn [andb] in E;
    [|discriminate].
  destruct values as [|v values]; [discriminate|]. cbn in E.
  inversion E; subst. apply parseValues_formed in E2.
  eexists _, (v :: values). split; [reflexivity|]. split; [discriminate|auto].
Qed.

Lemma valuesFormed_listOf values :
  values <> [] -> valuesFormed values ->
  listOf ["string_value"] (map rule values) = true
  /\ forallb wellFormed values = true.
Proof.
  intros Hne Hv. apply listOf_rules; [exact Hne|].
  eapply Forall_impl; [|exact Hv]. cbn. intros v [Hwf ->]. auto.
Qed.

Lemma valueNode_string col n :
  In col STRING_COLS ->
  valueNode "string_condition" [leaf "string_col" col] n ->
  wellFormed n = true /\ In (rule n) ["string_condition"].
Proof.
  intros Hcol (t & values & -> & Hne & Hv). split; [|cbn; auto].
  destruct (valuesFormed_listOf Hne Hv) as [Hl Hwf].
  rewrite wellFormed_node.
  change (production "string_condition")
    with (Some (Children (fun kids =>
            match kids with
            | col :: values =>
                String.eqb col "string_col" && listOf ["string_value"] values
            | [] => false
            end))).
  cbn [app map rule leaf forallb String.eqb].
  rewrite Hl, Hwf, (@literal_leaf "string_col" STRING_COLS col); auto.
Qed.

Lemma valueNode_enum n :
  valueNode "enum_condition" [] n ->
  wellFormed n = true /\ In (rule n) ["enum_condition"].
Proof.
  intros (t & values & -> & Hne & Hv). split; [|cbn; auto].
  destruct (valuesFormed_listOf Hne Hv) as [Hl Hwf].
  rewrite wellFormed_node.
  change (production "enum_condition")
    with (Some (Children (listOf ["string_value"]))).
  cbn [app]. now rewrite Hl, Hwf.
Qed.

Lemma stringConditionLoop_forms saved cols :
  incl cols STRING_COLS ->
  forms ["string_condition"] (stringConditionLoop saved cols).
Proof.
  induction cols as [|col cols IH]; intros Hincl st n st' E;
    cbn [stringConditionLoop] in E; [discriminate|].
  assert (Hcol : In col STRING_COLS) by (apply Hincl; now left).
  unfold orRestore in E.
  repeat break_step;
    try (apply valueNode_string with (col := col); [exact Hcol|];
         eauto using parseEquals_node, parseLike_node, parseIn_node; fail).
  eapply IH; eauto. intros x Hx. apply Hincl. now right.
Qed.

Lemma parseStringCondition_forms :
  forms ["string_condition"] parseStringCondition.
Proof.
  intros st n st' E. unfold parseStringCondition in E.
  eapply stringConditionLoop_forms; eauto using sorted_incl.
Qed.

Lemma parseEnumCondition_forms : forms ["enum_condition"] parseEnumCondition.
Proof.
  intros st n st' E. unfold parseEnumCondition, orRestore, reject in E.
  repeat break_step; try discriminate; apply valueNode_enum;
    eauto using parseEquals_node, parseIn_node.
Qed.

Lemma numericConditionLoop_forms saved cols :
  incl cols NUMERIC_COLS ->
  forms ["numeric_condition"] (numericConditionLoop saved cols).
Proof.
  induction cols as [|col cols IH]; intros Hincl st n st' E;
    cbn [numericConditionLoop] in E; [discriminate|].
  assert (Hcol : wellFormed (leaf "numeric_col" col) = true).
  { eapply literal_leaf; [reflexivity|]. apply Hincl. now left. }
  assert (Hcols : incl cols NUMERIC_COLS).
  { intros x Hx. apply Hincl. now right. }
  repeat break_step; try (eapply IH; eauto; fail).
  use_forms. formed.
Qed.

Lemma parseNumericCondition_forms :
  forms ["numeric_condition"] parseNumericCondition.
Proof.
  intros st n st' E. unfold parseNumericCondition in E.
  destruct (numericConditionLoop _ _ st) as [[m|] s1] eqn:E1;
    inversion E; subst.
  eapply numericConditionLoop_forms; eauto using sorted_incl.
Qed.

Lemma parseInterval_forms : forms ["datetime_condition"] parseInterval.
Proof.
  intros st n st' E. unfold parseInterval in E.
  repeat break_step; try discriminate.
  match goal with
  | H : matchFirst TIME_UNITS _ = _ |- _ =>
      eapply matchFirst_leaf with (r := "time_unit") in H;
        [|reflexivity|apply incl_refl]
  end.
  use_forms. formed.
Qed.

Lemma parseBetween_forms : forms ["datetime_condition"] parseBetween.
Proof. intros st n st' E. unfold parseBetween in E. form. Qed.
#[export] Hint Resolve parseInterval_forms parseBetween_forms : formdb.

Lemma parseDatetimeCondition_forms :
  forms ["datetime_condition"] parseDatetimeCondition.
Proof.
  intros st n st' E. unfold parseDatetimeCondition, orRestore, reject in E.
  repeat break_step; try discriminate;
    eauto using parseInterval_forms, parseBetween_forms.
Qed.

Lemma parseCondition_forms : forms conditionRules parseCondition.
Proof.
  intros st n st' E. unfold parseCondition, orElse in E.
  unfold conditionRules.
  repeat break_step;
    [ apply parseDatetimeCondition_forms in Heqp
    | apply parseEnumCondition_forms in Heqp0
    | apply parseStringCondition_forms in Heqp1
    | apply parseNumericCondition_forms in E ];
    cbn [In] in *; intuition.
Qed.

Lemma parseWhereClause_forms : forms ["where_clause"] parseWhereClause.
Proof.
  eapply listClause_forms; [reflexivity|apply parseCondition_forms].
Qed.


(** *** The root *)

Lemma optionalClause_formed clause r kids st kids' st' :
  forms [r] clause -> forallb wellFormed kids = true ->
  optionalClause clause kids st = (kids', st') ->
  forallb wellFormed kids' = true
  /\ exists present,
       map rule kids' = (map rule kids ++ optionalRule present r)%list.
Proof.
  unfold optionalClause. intros Hc Hk E.
  destruct (clause st) as [[c|] st1] eqn:E1; inversion E; subst.
  - apply Hc in E1. destruct E1 as [Hwf [Hr|[]]]. split.
    + rewrite forallb_app, Hk. cbn. now rewrite Hwf.
    + exists true. rewrite map_app. cbn. now rewrite <- Hr.
  - split; [exact Hk|]. exists false. cbn. now rewrite app_nil_r.
Qed.

Lemma parseQueryFrom_forms sql :
  forms ["query"; "query (partial)"] (parseQueryFrom sql).
Proof.
  intros st n st' E. unfold parseQueryFrom in E.
  destruct (parseSelectClause st) as [[sel|] s1] eqn:E1; [|discriminate].
  destruct (parseFromClause s1) as [[frm|] s2] eqn:E2; [|discriminate].
  destruct (optionalClause parseWhereClause _ s2) as [k1 s3] eqn:E3.
  destruct (optionalClause parseGroupClause _ s3) as [k2 s4] eqn:E4.
  destruct (optionalClause parseHavingClause _ s4) as [k3 s5] eqn:E5.
  destruct (optionalClause parseOrderClause _ s5) as [k4 s6] eqn:E6.
  destruct (optionalClause parseLimitClause _ s6) as [k5 s7] eqn:E7.
  apply parseSelectClause_forms in E1. destruct E1 as [Hsel [Rsel|[]]].
  apply parseFromClause_forms in E2. destruct E2 as [Hfrm [Rfrm|[]]].
  eapply optionalClause_formed in E3;
    [|apply parseWhereClause_forms|cbn; now rewrite Hsel, Hfrm].
  destruct E3 as (F3 & w & H3).
  eapply optionalClause_formed in E4; [|apply parseGroupClause_forms|exact F3].
  destruct E4 as (F4 & g & H4).
  eapply optionalClause_formed in E5; [|apply parseHavingClause_forms|exact F4].
  destruct E5 as (F5 & h & H5).
  eapply optionalClause_formed in E6; [|apply parseOrderClause_forms|exact F5].
  destruct E6 as (F6 & o & H6).
  eapply optionalClause_formed in E7; [|apply parseLimitClause_forms|exact F6].
  destruct E7 as (F7 & l & H7).
  assert (Hkids : queryChildren (map rule k5) = true).
  { rewrite H7, H6, H5, H4, H3. cbn [map app]. rewrite <- Rsel, <- Rfrm.
    destruct w, g, h, o, l; reflexivity. }
  destruct (negb (isAtEnd s7)); inversion E; subst;
    rewrite wellFormed_node;
    [ change (production "query (partial)")
        with (Some (Children queryChildren))
    | change (production "query") with (Some (Children queryChildren)) ];
    cbv beta iota; rewrite Hkids, F7; cbn; auto.
Qed.

(** X14.  Every node of the tree [parseQuery] returns is made as its
    rule says: a leaf holds a literal of its rule's list or a whole match
    of its rule's pattern, and the rules of the children of any other node
    are a sequence its rule allows. *)
Theorem derivation_tree_is_well_formed (sql : string)
    (n : GrammarDerivationNode) :
  parseQuery sql = Some n -> wellFormed n = true.
Proof.
  unfold parseQuery, parseQueryRun. intros E.
  destruct (parseQueryFrom sql (newState (trim sql))) as [r st'] eqn:E1.
  cbn [fst] in E. subst r. apply parseQueryFrom_forms in E1. apply E1.
Qed.

Lemma derivation_tree_is_well_formed_witness :
  wellFormed
    (node "query" "SELECT id FROM github_events LIMIT 5"
       [ node "select_clause" "SELECT id"
           [node "select_item" "id" [leaf "column_ref" "id"]];
         leaf "from_clause" "FROM github_events";
         node "limit_clause" "LIMIT 5" [leaf "number" "5"] ])
  = true.
Proof.
  apply (@derivation_tree_is_well_formed
           "SELECT id FROM github_events LIMIT 5").
  vm_compute. reflexivity.
Defined.

(* ================================================================ *)
(** ** The lines of a printed tree *)
(* ================================================================ *)

Lemma countChar_app c a b :
  countChar c (a ++ b) = countChar c a + countChar c b.
Proof. induction a as [|x a IH]; cbn; [reflexivity|]. rewrite IH. lia. Qed.

Lemma countChar_none s :
  allChars notNewline s = true -> countChar (byte 10) s = 0.
Proof.
  induction s as [|a s IH]; cbn [allChars countChar]; [reflexivity|].
  intros H. apply andb_true_iff in H. destruct H as [Ha Hs].
  unfold notNewline in Ha. apply negb_true_iff in Ha. rewrite Ha.
  now rewrite IH.
Qed.

Lemma countChar_repeat s n :
  countChar (byte 10) s = 0 -> countChar (byte 10) (repeatString s n) = 0.
Proof.
  intros H. induction n as [|n IH]; cbn [repeatString]; [reflexivity|].
  now rewrite countChar_app, H, IH.
Qed.

Lemma productions_oneLine : forallb oneLine productions = true.
Proof. vm_compute. reflexivity. Qed.

Lemma production_oneLine r p :
  production r = Some p -> oneLine (r, p) = true.
Proof.
  unfold production. intros H.
  destruct (find (fun q => String.eqb (fst q) r) productions)
    as [[r' p']|] eqn:E; [|discriminate].
  cbn in H. inversion H; subst. apply find_some in E. destruct E as [Hin Hr].
  cbn [fst] in Hr. apply String.eqb_eq in Hr. subst r'.
  pose proof productions_oneLine as Hall.
  rewrite forallb_forall in Hall. now apply Hall.
Qed.

Lemma fullMatch_chars re g t :
  patternWithin re g = true -> fullMatch re t = true -> allChars g t = true.
Proof.
  unfold fullMatch. intros Hre H.
  destruct (exec re t) as [m|] eqn:E; [|discriminate].
  apply andb_true_iff in H. destruct H as [H _].
  apply String.eqb_eq in H. subst m.
  eapply exec_spec in E; eauto. apply E.
Qed.

(** The first line of a node: its rule and, for a leaf, its text. *)
Lemma head_line_count indent r t kids :
  wellFormed (node r t kids) = true ->
  countChar (byte 10) (headLine indent r t kids) = 0.
Proof.
  rewrite wellFormed_node. intros H. unfold headLine. cbv zeta.
  destruct (production r) as [p|] eqn:Hp; [|discriminate].
  apply production_oneLine in Hp. unfold oneLine in Hp. cbn [fst snd] in Hp.
  apply andb_true_iff in Hp. destruct Hp as [Hr Hp].
  apply countChar_none in Hr.
  assert (Hprefix : countChar (byte 10)
            (if Nat.eqb indent 0 then EmptyString
             else repeatString "│   " (indent - 1) ++ "├── ") = 0).
  { destruct (Nat.eqb indent 0); [reflexivity|].
    rewrite countChar_app, countChar_repeat; reflexivity. }
  destruct kids as [|k kids].
  - assert (Ht : countChar (byte 10) t = 0).
    { apply countChar_none. destruct p as [l|re|ok].
      - apply existsb_eqb_In in H. rewrite forallb_forall in Hp. auto.
      - eapply fullMatch_chars; eauto.
      - cbn [map] in H. apply andb_true_iff in H. destruct H as [H _].
        rewrite H in Hp. discriminate Hp. }
    rewrite !countChar_app, Hprefix, Hr, Ht. reflexivity.
  - rewrite countChar_app, Hprefix, Hr. reflexivity.
Qed.

Lemma fold_lines (f : GrammarDerivationNode -> string) kids acc :
  countChar (byte 10)
    (fold_left (fun result child => result ++ nl ++ f child) kids acc)
  = countChar (byte 10) acc
    + fold_right (fun k n => S (countChar (byte 10) (f k)) + n) 0 kids.
Proof.
  revert acc. induction kids as [|k kids IH]; intros acc; cbn [fold_left fold_right].
  - lia.
  - rewrite IH, !countChar_app. cbn [countChar nl]. cbn. lia.
Qed.

Lemma wellFormed_kids r t kids :
  wellFormed (node r t kids) = true -> forallb wellFormed kids = true.
Proof.
  rewrite wellFormed_node. intros H.
  destruct (production r) as [[l|re|ok]|]; try discriminate.
  - destruct kids; [reflexivity|discriminate].
  - destruct kids; [reflexivity|discriminate].
  - apply andb_true_iff in H. apply H.
Qed.

Lemma formatDerivationTree_lines n :
  wellFormed n = true ->
  forall indent, lineCount (formatDerivationTree n indent) = size n.
Proof.
  induction n as [r t kids IH] using node_induction. intros Hwf indent.
  unfold lineCount.
  change (formatDerivationTree (node r t kids) indent)
    with (fold_left
            (fun result child =>
               result ++ nl ++ formatDerivationTree child (indent + 1))
            kids (headLine indent r t kids)).
  cbn [size]. rewrite fold_lines.
  rewrite (@head_line_count indent r t kids Hwf). cbn [Nat.add]. f_equal.
  apply wellFormed_kids in Hwf.
  induction IH as [|k kids Hk Hkids IHk]; [reflexivity|].
  cbn [forallb] in Hwf. apply andb_true_iff in Hwf. destruct Hwf as [Hwk Hwf].
  cbn [fold_right]. rewrite IHk; auto.
  specialize (Hk Hwk (indent + 1)). unfold lineCount in Hk. lia.
Qed.

(** X15.  Printed from the root, a tree [parseQuery] returns takes one
    line per node: no rule and no text of a leaf holds a line break, and
    the text of the root, which may, is not printed. *)
Theorem printed_tree_has_one_line_per_node (sql : string)
    (n : GrammarDerivationNode) :
  parseQuery sql = Some n ->
  lineCount (formatDerivationTree n 0) = size n.
Proof.
  unfold parseQuery, parseQueryRun. intros E.
  destruct (parseQueryFrom sql (newState (trim sql))) as [r st'] eqn:E1.
  cbn [fst] in E. subst r. apply parseQueryFrom_forms in E1.
  apply formatDerivationTree_lines. apply E1.
Qed.

Lemma printed_tree_has_one_line_per_node_witness :
  lineCount
    (formatDerivationTree
       (node "query" ("SELECT id FROM github_events LIMIT 5" ++ nl)
          [ node "select_clause" "SELECT id"
              [node "select_item" "id" [leaf "column_ref" "id"]];
            leaf "from_clause" "FROM github_events";
            node "limit_clause" "LIMIT 5" [leaf "number" "5"] ]) 0)
  = 7.
Proof.
  apply (@printed_tree_has_one_line_per_node
           ("SELECT id FROM github_events LIMIT 5" ++ nl)).
  vm_compute. reflexivity.
Defined.

(* ================================================================ *)
(** ** A value without its closing quote *)
(* ================================================================ *)

Lemma cursorAt_step pre lit post :
  advance (String.length lit) (cursorAt pre (lit ++ post))
  = cursorAt (pre ++ lit) post.
Proof.
  unfold cursorAt, advance. cbn [input pos].
  now rewrite append_assoc, length_app.
Qed.

Lemma remaining_cursorAt pre post : remaining (cursorAt pre post) = post.
Proof. unfold remaining, cursorAt. cbn [input pos]. apply slice_app. Qed.

Lemma matchLiteral_here lit pre post :
  matchLiteral lit (cursorAt pre (lit ++ post))
  = (true, cursorAt (pre ++ lit) post).
Proof.
  unfold matchLiteral.
  change (startsWith (input (cursorAt pre (lit ++ post))) lit
            (pos (cursorAt pre (lit ++ post))))
    with (isPrefix lit (remaining (cursorAt pre (lit ++ post)))).
  now rewrite remaining_cursorAt, isPrefix_app, cursorAt_step.
Qed.

Lemma matchLiteral_miss lit pre post :
  isPrefix lit post = false ->
  matchLiteral lit (cursorAt pre post) = (false, cursorAt pre post).
Proof.
  intros H. unfold matchLiteral.
  change (startsWith (input (cursorAt pre post)) lit (pos (cursorAt pre post)))
    with (isPrefix lit (remaining (cursorAt pre post))).
  now rewrite remaining_cursorAt, H.
Qed.

Lemma parseStringValue_here v pre (a : ascii) post :
  fullMatch reStringValue v = true -> valueChar a = false ->
  parseStringValue (cursorAt pre (v ++ String a post))
  = (Some (leaf "string_value" v), cursorAt (pre ++ v) (String a post)).
Proof.
  intros Hv Ha. unfold fullMatch in Hv.
  destruct (exec reStringValue v) as [m|] eqn:E; [|discriminate].
  apply andb_true_iff in Hv. destruct Hv as [Hm Hne].
  apply String.eqb_eq in Hm. subst m.
  apply negb_true_iff in Hne.
  assert (Hshape := exec_shaped _ _ E). cbn [shaped reStringValue] in Hshape.
  destruct Hshape as (x & y & -> & Hall & Hlen & ->).
  rewrite append_empty_r in *. cbn [qclass qmin qmax] in *.
  unfold parseStringValue, regexTerminal, matchRegex.
  rewrite remaining_cursorAt. cbn [exec reStringValue qclass qmin qmax].
  rewrite span_run; [|exact Hall|lia|right; right; eauto].
  destruct (Nat.ltb (String.length x) 1) eqn:Hlt;
    [apply Nat.ltb_lt in Hlt; lia|].
  rewrite append_empty_r, cursorAt_step.
  destruct x; [discriminate|reflexivity].
Qed.

Lemma parseStringValue_miss pre (a : ascii) post :
  valueChar a = false ->
  parseStringValue (cursorAt pre (String a post))
  = (None, cursorAt pre (String a post)).
Proof.
  intros Ha. unfold parseStringValue, regexTerminal, matchRegex.
  rewrite remaining_cursorAt. cbn [exec reStringValue qclass qmin qmax span].
  rewrite Ha. reflexivity.
Qed.


Lemma parseStringValue_run w pre (a : ascii) post :
  valueRun w -> valueChar a = false ->
  parseStringValue (cursorAt pre (w ++ String a post))
  = (match w with
     | EmptyString => None
     | String _ _ => Some (leaf "string_value" w)
     end, cursorAt (pre ++ w) (String a post)).
Proof.
  intros [Hall Hlen] Ha. unfold parseStringValue, regexTerminal, matchRegex.
  rewrite remaining_cursorAt. cbn [exec reStringValue qclass qmin qmax].
  rewrite span_run; [|exact Hall|exact Hlen|right; right; eauto].
  destruct w as [|c w].
  - cbn. now rewrite append_empty_r.
  - cbn [String.length Nat.ltb Nat.leb].
    rewrite append_empty_r, cursorAt_step. reflexivity.
Qed.

(** The loop of a value list over a last value without its closing
    quote: the separator and the value are consumed, the value is not
    kept. *)
Lemma valueLoop_unclosed fuel values w pre rest :
  valueRun w ->
  valueLoop (S fuel) values (cursorAt pre (", '" ++ w ++ ")" ++ rest))
  = (values, cursorAt (pre ++ ", '" ++ w) (")" ++ rest)).
Proof.
  intros Hw. cbn [valueLoop].
  rewrite matchLiteral_here.
  change (")" ++ rest) with (String ")" rest).
  rewrite (@parseStringValue_run w (pre ++ ", '") ")"%char rest Hw eq_refl).
  rewrite <- append_assoc.
  destruct w as [|c w]; [reflexivity|].
  rewrite matchLiteral_miss; reflexivity.
Qed.

Lemma parseValues_unclosed v w pre rest :
  fullMatch reStringValue v = true -> valueRun w ->
  parseValues (cursorAt pre ("'" ++ v ++ "', '" ++ w ++ ")" ++ rest))
  = ([leaf "string_value" v],
     cursorAt (pre ++ "'" ++ v ++ "', '" ++ w) (")" ++ rest)).
Proof.
  intros Hv Hw. unfold parseValues.
  rewrite matchLiteral_here.
  change ("', '" ++ w ++ ")" ++ rest)
    with (String "'" (", '" ++ w ++ ")" ++ rest)).
  rewrite (@parseStringValue_here v (pre ++ "'") "'"%char
             (", '" ++ w ++ ")" ++ rest) Hv eq_refl).
  change (String "'" (", '" ++ w ++ ")" ++ rest))
    with ("'" ++ ", '" ++ w ++ ")" ++ rest).
  rewrite matchLiteral_here.
  unfold loopFuel. rewrite valueLoop_unclosed; [|exact Hw].
  rewrite !append_assoc. reflexivity.
Qed.

(** X16.  [parseEnumCondition] accepts a list of types whose last value
    has no closing quote: the separator and the value are consumed, and
    neither the text nor the children of the node keep them. *)
Theorem unclosed_value_is_dropped (v w rest : string) :
  fullMatch reStringValue v = true -> valueRun w ->
  parseEnumCondition
    (newState ("type IN ('" ++ v ++ "', '" ++ w ++ ")" ++ rest))
  = (Some (node "enum_condition" ("type IN ('" ++ v ++ "')")
             [leaf "string_value" v]),
     cursorAt ("type IN ('" ++ v ++ "', '" ++ w ++ ")") rest).
Proof.
  intros Hv Hw.
  change (newState ("type IN ('" ++ v ++ "', '" ++ w ++ ")" ++ rest))
    with (cursorAt EmptyString
            ("type IN (" ++ "'" ++ v ++ "', '" ++ w ++ ")" ++ rest)).
  unfold parseEnumCondition, orRestore.
  unfold parseEquals at 1.
  rewrite matchLiteral_miss; [|reflexivity].
  change (restore (save (cursorAt EmptyString
            ("type IN (" ++ "'" ++ v ++ "', '" ++ w ++ ")" ++ rest)))
            (cursorAt EmptyString
            ("type IN (" ++ "'" ++ v ++ "', '" ++ w ++ ")" ++ rest)))
    with (cursorAt EmptyString
            ("type IN (" ++ "'" ++ v ++ "', '" ++ w ++ ")" ++ rest)).
  unfold parseIn.
  change ("type" ++ " IN (") with "type IN (".
  rewrite matchLiteral_here.
  rewrite parseValues_unclosed; [|exact Hv|exact Hw].
  rewrite matchLiteral_here. cbn [andb List.length Nat.ltb Nat.leb].
  unfold quoted. cbn [map matchedText leaf join app].
  rewrite !append_assoc. reflexivity.
Qed.

Lemma unclosed_value_is_dropped_witness :
  parseEnumCondition
    (newState "type IN ('PushEvent', 'ForkEvent) LIMIT 5")
  = (Some (node "enum_condition" "type IN ('PushEvent')"
             [leaf "string_value" "PushEvent"]),
     cursorAt "type IN ('PushEvent', 'ForkEvent)" " LIMIT 5").
Proof.
  apply (@unclosed_value_is_dropped "PushEvent" "ForkEvent" " LIMIT 5").
  - vm_compute. reflexivity.
  - split; [vm_compute; reflexivity|cbn; lia].
Defined.

(* ================================================================ *)
(** ** The loops end *)
(* ================================================================ *)

(** X17.  The loops of the list clauses and of the value lists end
    before their bound: an iteration that goes on has consumed its
    separator, so a loop started at a cursor makes fewer iterations than
    there are characters left, plus one; any two bounds above that number
    give the same result, and the bound the clauses use is above it. *)
Theorem loops_end_within_input :
  (forall sep item, 1 <= String.length sep -> steady item ->
   forall f1 f2 items st,
     String.length (input st) - pos st < f1 ->
     String.length (input st) - pos st < f2 ->
     sepLoop f1 sep item items st = sepLoop f2 sep item items st)
  /\ (forall f1 f2 values st,
        String.length (input st) - pos st < f1 ->
        String.length (input st) - pos st < f2 ->
        valueLoop f1 values st = valueLoop f2 values st)
  /\ (forall st, String.length (input st) - pos st < loopFuel st).
Proof.
  split; [|split].
  - intros sep item Hsep Hitem f1 f2 items st H1 H2.
    now apply sepLoop_fuel.
  - intros f1 f2 values st H1 H2. now apply valueLoop_fuel.
  - intros st. unfold loopFuel. lia.
Qed.

Lemma loops_end_within_input_witness :
  sepLoop 8 ", " parseSelectItem [] (mkState "id, title" 2)
  = sepLoop 1000 ", " parseSelectItem [] (mkState "id, title" 2)
  /\ fst (sepLoop 8 ", " parseSelectItem [] (mkState "id, title" 2))
     = [node "select_item" "title" [leaf "column_ref" "title"]].
Proof.
  split; [|vm_compute; reflexivity].
  apply (proj1 loops_end_within_input ", " parseSelectItem);
    [cbn; lia|apply backtracks_steady, parseSelectItem_backtracks
    |cbn; lia|cbn; lia].
Defined.

(* ================================================================ *)
(** ** The parentheses of an accepted query *)
(* ================================================================ *)

Lemma countIn_slice c s k n :
  countIn c s (k + n) = countIn c s k + countIn c (slice s k) n.
Proof.
  revert s. induction k as [|k IH]; intros s.
  - destruct s; reflexivity.
  - destruct s as [|a s]; cbn [Nat.add countIn slice].
    + destruct n; reflexivity.
    + rewrite IH. lia.
Qed.

Lemma countIn_prefix c m r :
  countIn c (m ++ r) (String.length m) = countChar c m.
Proof.
  induction m as [|a m IH]; cbn [append String.length countIn countChar];
    auto.
Qed.

Lemma countIn_all c s : countIn c s (String.length s) = countChar c s.
Proof.
  rewrite <- (append_empty_r s) at 1. apply countIn_prefix.
Qed.

(** Moving the cursor over a prefix of the remaining input. *)
Lemma advance_count c st m :
  isPrefix m (remaining st) = true ->
  countIn c (input st) (pos st + String.length m)
  = countIn c (input st) (pos st) + countChar c m.
Proof.
  unfold remaining. intros Hp. rewrite countIn_slice.
  apply isPrefix_split in Hp. destruct Hp as (r & ->).
  now rewrite countIn_prefix.
Qed.

Lemma matchLiteral_count c str st st' :
  matchLiteral str st = (true, st') ->
  countIn c (input st) (pos st')
  = countIn c (input st) (pos st) + countChar c str.
Proof.
  intros E. apply matchLiteral_true in E. destruct E as (H & -> & _).
  cbn [advance pos]. now apply advance_count.
Qed.

Lemma level_refl s a : level s a a.
Proof. unfold level. lia. Qed.

Lemma level_even st m :
  isPrefix m (remaining st) = true -> evenParens m = true ->
  level (input st) (pos st) (pos st + String.length m).
Proof.
  intros Hp Hm. unfold level. rewrite !advance_count; auto.
  apply Nat.eqb_eq in Hm. lia.
Qed.

Lemma notParen_even m : allChars notParen m = true -> evenParens m = true.
Proof.
  unfold evenParens. intros H. apply Nat.eqb_eq.
  induction m as [|a m IH]; [reflexivity|].
  cbn [allChars] in H. apply andb_true_iff in H. destruct H as [Ha H].
  unfold notParen in Ha. apply andb_true_iff in Ha. destruct Ha as [Ho Hc].
  apply negb_true_iff in Ho, Hc. cbn [countChar]. rewrite Ho, Hc.
  cbn. auto.
Qed.

Lemma matchFirst_balanced cands :
  forallb evenParens cands = true -> balanced isSome (matchFirst cands).
Proof.
  intros Hc st r st' E Hok. destruct r as [c|]; [|discriminate].
  apply matchFirst_some in E. destruct E as (Hin & Hs & ->).
  rewrite forallb_forall in Hc. cbn [advance pos].
  apply level_even; auto.
Qed.

Lemma regexTerminal_balanced r re :
  patternWithin re notParen = true -> balanced isSome (regexTerminal r re).
Proof.
  intros Hre st res st' E Hok. unfold regexTerminal, matchRegex in E.
  destruct (exec re (remaining st)) as [m|] eqn:Hm.
  - destruct (@exec_spec re notParen _ _ Hre Hm) as (Hp & Hall).
    destruct m as [|a m]; inversion E; subst; [discriminate|].
    cbn [advance pos].
    apply (@level_even st (String a m)); auto using notParen_even.
  - inversion E; subst. discriminate.
Qed.

Create HintDb paren.

#[export] Hint Extern 1 (forallb evenParens _ = true) =>
  (vm_compute; reflexivity) : paren.
#[export] Hint Extern 1 (patternWithin _ notParen = true) =>
  (vm_compute; reflexivity) : paren.
#[export] Hint Resolve matchFirst_balanced regexTerminal_balanced : paren.

Lemma parseNumber_balanced : balanced isSome parseNumber.
Proof. apply regexTerminal_balanced. vm_compute. reflexivity. Qed.
Lemma parseAlias_balanced : balanced isSome parseAlias.
Proof. apply regexTerminal_balanced. vm_compute. reflexivity. Qed.
Lemma parseStringValue_balanced : balanced isSome parseStringValue.
Proof. apply regexTerminal_balanced. vm_compute. reflexivity. Qed.
Lemma parseDateLiteral_balanced : balanced isSome parseDateLiteral.
Proof. apply regexTerminal_balanced. vm_compute. reflexivity. Qed.
#[export] Hint Resolve parseNumber_balanced parseAlias_balanced
  parseStringValue_balanced parseDateLiteral_balanced : paren.

(** Record how a call has moved the cursor over the parentheses, then
    what it does to the cursor. *)
Ltac use_paren E :=
  lazymatch type of E with
  | matchLiteral _ _ = (false, _) => apply matchLiteral_false in E; subst
  | matchLiteral _ _ = (true, _) =>
      pose proof (matchLiteral_count "(" _ _ E);
      pose proof (matchLiteral_count ")" _ _ E);
      use_call E
  | ?p _ = (Some _, _) =>
      let H := fresh "Hp" in
      assert (H : balanced isSome p) by (eauto with paren nocore);
      pose proof (H _ _ _ E eq_refl); clear H; use_call E
  | ?p _ = (None, _) => use_call E
  | ?p _ = (_, _) =>
      let H := fresh "Hp" in
      assert (H : balanced always p) by (eauto with paren nocore);
      pose proof (H _ _ _ E eq_refl); clear H; use_call E
  end.

Ltac use_parens :=
  repeat match goal with
  | E : _ _ = (_, _) |- _ => use_paren E
  end.

Ltac weigh :=
  repeat break_step; try discriminate; tests;
  repeat match goal with
  | H : isSome ?r = true |- _ =>
      destruct r; [clear H|discriminate H]
  end;
  use_parens;
  unfold level, save, restore, advance in *;
  rewrite ?countChar_app in *;
  cbn [input pos countChar Ascii.eqb Bool.eqb Nat.add] in *;
  repeat match goal with
  | H : _ /\ _ |- _ => destruct H
  | H : ?x = ?x -> _ |- _ => specialize (H eq_refl)
  | H : Some _ = None -> _ |- _ => clear H
  end;
  same_input; lia.

Lemma parseColumnRef_balanced : balanced isSome parseColumnRef.
Proof. intros st r st' E Hok. unfold parseColumnRef in E. weigh. Qed.

Lemma parseAggFunc_balanced : balanced isSome parseAggFunc.
Proof. intros st r st' E Hok. unfold parseAggFunc in E. weigh. Qed.

Lemma parseDateTruncExpr_balanced : balanced isSome parseDateTruncExpr.
Proof. intros st r st' E Hok. unfold parseDateTruncExpr in E. weigh. Qed.

Lemma parseCompareOp_balanced : balanced isSome parseCompareOp.
Proof. intros st r st' E Hok. unfold parseCompareOp in E. weigh. Qed.

Lemma parseFromClause_balanced : balanced isSome parseFromClause.
Proof. intros st r st' E Hok. unfold parseFromClause in E. weigh. Qed.
#[export] Hint Resolve parseColumnRef_balanced parseAggFunc_balanced
  parseDateTruncExpr_balanced parseCompareOp_balanced
  parseFromClause_balanced : paren.

Lemma parseAggExpr_balanced : balanced isSome parseAggExpr.
Proof. intros st r st' E Hok. unfold parseAggExpr in E. weigh. Qed.
#[export] Hint Resolve parseAggExpr_balanced : paren.

Lemma parseSelectItem_balanced : balanced isSome parseSelectItem.
Proof. intros st r st' E Hok. unfold parseSelectItem, aliased in E. weigh. Qed.

Lemma parseGroupItem_balanced : balanced isSome parseGroupItem.
Proof. intros st r st' E Hok. unfold parseGroupItem in E. weigh. Qed.

Lemma parseOrderBase_balanced : balanced isSome parseOrderBase.
Proof. intros st r st' E Hok. unfold parseOrderBase, orElse in E. weigh. Qed.
#[export] Hint Resolve parseOrderBase_balanced : paren.

Lemma parseOrderItem_balanced : balanced isSome parseOrderItem.
Proof. intros st r st' E Hok. unfold parseOrderItem in E. weigh. Qed.

Lemma parseHavingClause_balanced : balanced isSome parseHavingClause.
Proof. intros st r st' E Hok. unfold parseHavingClause in E. weigh. Qed.

Lemma parseLimitClause_balanced : balanced isSome parseLimitClause.
Proof. intros st r st' E Hok. unfold parseLimitClause in E. weigh. Qed.
#[export] Hint Resolve parseSelectItem_balanced parseGroupItem_balanced
  parseOrderItem_balanced parseHavingClause_balanced
  parseLimitClause_balanced : paren.

(** *** The lists *)

Lemma sepLoop_balanced fuel sep item items :
  evenParens sep = true -> backtracks item -> balanced isSome item ->
  balanced always (sepLoop fuel sep item items).
Proof.
  intros Hsep Hback Hitem. apply Nat.eqb_eq in Hsep. revert items.
  induction fuel as [|fuel IH]; intros items st r st' E _;
    cbn [sepLoop] in E.
  - inversion E; subst. apply level_refl.
  - destruct (matchLiteral sep st) as [[|] st1] eqn:E1.
    + pose proof (matchLiteral_count "(" _ _ E1) as Ho.
      pose proof (matchLiteral_count ")" _ _ E1) as Hc.
      apply matchLiteral_steady in E1. destruct E1 as [Hin _].
      destruct (item st1) as [[next|] st2] eqn:E2.
      * pose proof (Hitem _ _ _ E2 eq_refl) as Hl.
        apply Hback in E2. destruct E2 as (Hin2 & _).
        pose proof (IH _ _ _ _ E eq_refl) as Hl2. unfold level in *.
        rewrite Hin2, Hin in Hl2. rewrite Hin in Hl. lia.
      * apply Hback in E2. destruct E2 as (_ & _ & Hpos).
        inversion E; subst. unfold level. rewrite (Hpos eq_refl). lia.
    + apply matchLiteral_false in E1. subst st1. inversion E; subst.
      apply level_refl.
Qed.

Lemma listClause_balanced r keyword head sep item :
  evenParens keyword = true -> evenParens sep = true ->
  backtracks item -> balanced isSome item ->
  balanced isSome (listClause r keyword head sep item).
Proof.
  intros Hk Hsep Hback Hitem st res st' E Hok. unfold listClause in E.
  apply Nat.eqb_eq in Hk.
  destruct (matchLiteral keyword st) as [[|] st1] eqn:E1;
    cbn [negb] in E; [|inversion E; subst; discriminate].
  pose proof (matchLiteral_count "(" _ _ E1) as Ho.
  pose proof (matchLiteral_count ")" _ _ E1) as Hc.
  apply matchLiteral_steady in E1. destruct E1 as [Hin _].
  destruct (item st1) as [[first|] st2] eqn:E2;
    [|inversion E; subst; discriminate].
  pose proof (Hitem _ _ _ E2 eq_refl) as Hl.
  apply Hback in E2. destruct E2 as (Hin2 & _).
  destruct (sepLoop (loopFuel st2) sep item [first] st2) as [items st3] eqn:E3.
  pose proof (@sepLoop_balanced _ sep item [first] Hsep Hback Hitem
                _ _ _ E3 eq_refl) as Hl3.
  inversion E; subst. unfold level in *.
  rewrite Hin2, Hin in Hl3. rewrite Hin in Hl. lia.
Qed.

Lemma parseSelectClause_balanced : balanced isSome parseSelectClause.
Proof.
  apply listClause_balanced;
    auto using parseSelectItem_backtracks with paren.
Qed.

Lemma parseGroupClause_balanced : balanced isSome parseGroupClause.
Proof.
  apply listClause_balanced;
    auto using parseGroupItem_backtracks with paren.
Qed.

Lemma parseOrderClause_balanced : balanced isSome parseOrderClause.
Proof.
  apply listClause_balanced;
    auto using parseOrderItem_backtracks with paren.
Qed.

(** *** The conditions *)

Lemma valueLoop_balanced fuel values :
  balanced always (valueLoop fuel values).
Proof.
  revert values.
  induction fuel as [|fuel IH]; intros values st r st' E _;
    cbn [valueLoop] in E.
  - inversion E; subst. apply level_refl.
  - destruct (matchLiteral ", '" st) as [[|] st1] eqn:E1;
      [|weigh].
    destruct (parseStringValue st1) as [[next|] st2] eqn:E2; [|weigh].
    destruct (matchLiteral "'" st2) as [[|] st3] eqn:E3; [|weigh].
    pose proof (IH _ _ _ _ E eq_refl) as Hl. clear E. weigh.
Qed.
#[export] Hint Resolve valueLoop_balanced : paren.

Lemma parseValues_balanced : balanced always parseValues.
Proof. intros st r st' E _. unfold parseValues in E. weigh. Qed.
#[export] Hint Resolve parseValues_balanced : paren.

Lemma parseEquals_balanced r col kids :
  countChar "(" col = countChar ")" col ->
  balanced isSome (parseEquals r col kids).
Proof. intros Hcol st res st' E Hok. unfold parseEquals in E. weigh. Qed.

Lemma parseLike_balanced r col kids :
  countChar "(" col = countChar ")" col ->
  balanced isSome (parseLike r col kids).
Proof. intros Hcol st res st' E Hok. unfold parseLike in E. weigh. Qed.

Lemma parseIn_balanced r col kids :
  countChar "(" col = countChar ")" col ->
  balanced isSome (parseIn r col kids).
Proof.
  intros Hcol st res st' E Hok. unfold parseIn in E.
  repeat break_step; try discriminate.
  match goal with
  | H : _ && _ = true |- _ => apply andb_true_iff in H; destruct H as [-> _]
  end.
  weigh.
Qed.
#[export] Hint Resolve parseEquals_balanced parseLike_balanced
  parseIn_balanced : paren.

Lemma evens_In cols col :
  forallb evenParens cols = true -> In col cols ->
  countChar "(" col = countChar ")" col.
Proof.
  intros H Hin. rewrite forallb_forall in H. apply H in Hin.
  now apply Nat.eqb_eq in Hin.
Qed.

Lemma stringConditionLoop_level saved cols st n st' :
  forallb evenParens cols = true ->
  stringConditionLoop saved cols st = (Some n, st') ->
  level (input st) saved (pos st').
Proof.
  revert st. induction cols as [|col cols IH]; intros st Hcols E;
    cbn [stringConditionLoop] in E; [discriminate|].
  cbn [forallb] in Hcols. apply andb_true_iff in Hcols.
  destruct Hcols as [Hcol Hcols]. apply Nat.eqb_eq in Hcol.
  unfold orRestore in E.
  repeat break_step;
    try (apply IH in E; [|exact Hcols]; cbn [restore input] in E;
         use_parens; unfold restore in *; cbn [input] in *;
         repeat match goal with H : _ /\ _ |- _ => destruct H end;
         same_input; exact E).
  all: weigh.
Qed.

Lemma parseStringCondition_balanced : balanced isSome parseStringCondition.
Proof.
  intros st r st' E Hok. unfold parseStringCondition in E.
  destruct r as [n|]; [|discriminate].
  eapply stringConditionLoop_level; eauto. vm_compute. reflexivity.
Qed.

Lemma numericConditionLoop_level saved cols st n st' :
  forallb evenParens cols = true ->
  numericConditionLoop saved cols st = (Some n, st') ->
  level (input st) saved (pos st').
Proof.
  revert st. induction cols as [|col cols IH]; intros st Hcols E;
    cbn [numericConditionLoop] in E; [discriminate|].
  cbn [forallb] in Hcols. apply andb_true_iff in Hcols.
  destruct Hcols as [Hcol Hcols]. apply Nat.eqb_eq in Hcol.
  repeat break_step;
    try (apply IH in E; [|exact Hcols]; cbn [restore input] in E;
         use_parens; unfold restore in *; cbn [input] in *;
         repeat match goal with H : _ /\ _ |- _ => destruct H end;
         same_input; exact E).
  weigh.
Qed.

Lemma parseNumericCondition_balanced :
  balanced isSome parseNumericCondition.
Proof.
  intros st r st' E Hok. unfold parseNumericCondition in E.
  destruct (numericConditionLoop _ _ st) as [[m|] s1] eqn:E1;
    inversion E; subst; [|discriminate].
  eapply numericConditionLoop_level; eauto. vm_compute. reflexivity.
Qed.

Lemma parseInterval_balanced : balanced isSome parseInterval.
Proof. intros st r st' E Hok. unfold parseInterval in E. weigh. Qed.

Lemma parseBetween_balanced : balanced isSome parseBetween.
Proof. intros st r st' E Hok. unfold parseBetween in E. weigh. Qed.
#[export] Hint Resolve parseInterval_balanced parseBetween_balanced : paren.

Lemma parseDatetimeCondition_balanced :
  balanced isSome parseDatetimeCondition.
Proof.
  intros st r st' E Hok.
  unfold parseDatetimeCondition, orRestore, reject in E. weigh.
Qed.

Lemma parseEnumCondition_balanced : balanced isSome parseEnumCondition.
Proof.
  intros st r st' E Hok.
  unfold parseEnumCondition, orRestore, reject in E.
  assert (Ht : countChar "(" "type" = countChar ")" "type") by reflexivity.
  assert (Ha : countChar "(" "action" = countChar ")" "action")
    by reflexivity.
  weigh.
Qed.
#[export] Hint Resolve parseStringCondition_balanced
  parseNumericCondition_balanced parseDatetimeCondition_balanced
  parseEnumCondition_balanced : paren.

Lemma parseCondition_balanced : balanced isSome parseCondition.
Proof. intros st r st' E Hok. unfold parseCondition, orElse in E. weigh. Qed.

Lemma parseWhereClause_balanced : balanced isSome parseWhereClause.
Proof.
  apply listClause_balanced;
    auto using parseCondition_backtracks, parseCondition_balanced with paren.
Qed.
#[export] Hint Resolve parseSelectClause_balanced parseWhereClause_balanced
  parseGroupClause_balanced parseOrderClause_balanced : paren.

(** *** The query *)

Lemma optionalClause_balanced clause kids :
  backtracks clause -> balanced isSome clause ->
  balanced always (optionalClause clause kids).
Proof.
  intros Hback Hc st r st' E _. unfold optionalClause in E.
  destruct (clause st) as [[c|] st1] eqn:E1; inversion E; subst.
  - apply (Hc _ _ _ E1 eq_refl).
  - apply Hback in E1. destruct E1 as (_ & _ & Hpos).
    rewrite (Hpos eq_refl). apply level_refl.
Qed.

Lemma parseQueryFrom_balanced sql : balanced isSome (parseQueryFrom sql).
Proof.
  intros st r st' E Hok. unfold parseQueryFrom in E.
  assert (Hw := @optionalClause_balanced parseWhereClause).
  assert (Hg := @optionalClause_balanced parseGroupClause).
  assert (Hh := @optionalClause_balanced parseHavingClause).
  assert (Ho := @optionalClause_balanced parseOrderClause).
  assert (Hl := @optionalClause_balanced parseLimitClause).
  destruct (parseSelectClause st) as [[sel|] s1] eqn:E1;
    [|inversion E; subst; discriminate].
  destruct (parseFromClause s1) as [[frm|] s2] eqn:E2;
    [|inversion E; subst; discriminate].
  destruct (optionalClause parseWhereClause _ s2) as [k1 s3] eqn:E3.
  destruct (optionalClause parseGroupClause _ s3) as [k2 s4] eqn:E4.
  destruct (optionalClause parseHavingClause _ s4) as [k3 s5] eqn:E5.
  destruct (optionalClause parseOrderClause _ s5) as [k4 s6] eqn:E6.
  destruct (optionalClause parseLimitClause _ s6) as [k5 s7] eqn:E7.
  assert (Hst : st' = s7) by (destruct (negb (isAtEnd s7)); congruence).
  subst st'. clear E Hok.
  pose proof (parseSelectClause_balanced _ E1 eq_refl) as L1.
  pose proof (parseFromClause_balanced _ E2 eq_refl) as L2.
  pose proof (Hw _ parseWhereClause_backtracks parseWhereClause_balanced
                _ _ _ E3 eq_refl) as L3.
  pose proof (Hg _ parseGroupClause_backtracks parseGroupClause_balanced
                _ _ _ E4 eq_refl) as L4.
  pose proof (Hh _ parseHavingClause_backtracks parseHavingClause_balanced
                _ _ _ E5 eq_refl) as L5.
  pose proof (Ho _ parseOrderClause_backtracks parseOrderClause_balanced
                _ _ _ E6 eq_refl) as L6.
  pose proof (Hl _ parseLimitClause_backtracks parseLimitClause_balanced
                _ _ _ E7 eq_refl) as L7.
  apply parseSelectClause_backtracks in E1.
  apply parseFromClause_backtracks in E2.
  assert (I3 : input s3 = input s2).
  { unfold optionalClause in E3.
    destruct (parseWhereClause s2) as [[c|] x] eqn:Ec; inversion E3; subst;
      apply parseWhereClause_backtracks in Ec; apply Ec. }
  assert (I4 : input s4 = input s3).
  { unfold optionalClause in E4.
    destruct (parseGroupClause s3) as [[c|] x] eqn:Ec; inversion E4; subst;
      apply parseGroupClause_backtracks in Ec; apply Ec. }
  assert (I5 : input s5 = input s4).
  { unfold optionalClause in E5.
    destruct (parseHavingClause s4) as [[c|] x] eqn:Ec; inversion E5; subst;
      apply parseHavingClause_backtracks in Ec; apply Ec. }
  assert (I6 : input s6 = input s5).
  { unfold optionalClause in E6.
    destruct (parseOrderClause s5) as [[c|] x] eqn:Ec; inversion E6; subst;
      apply parseOrderClause_backtracks in Ec; apply Ec. }
  destruct E1 as (I1 & _), E2 as (I2 & _).
  unfold level in *.
  rewrite I6, I5, I4, I3, I2, I1 in L7. rewrite I5, I4, I3, I2, I1 in L6.
  rewrite I4, I3, I2, I1 in L5. rewrite I3, I2, I1 in L4.
  rewrite I2, I1 in L3. rewrite I1 in L2. lia.
Qed.

(** X18.  In every query the verifier accepts, as many parentheses open
    as close. *)
Theorem accepted_parentheses_balance (sql : string) :
  isValidGrammarSQL sql = true ->
  countChar "(" (trim sql) = countChar ")" (trim sql).
Proof.
  unfold isValidGrammarSQL, parseQuery, parseQueryRun. intros Hv.
  destruct (parseQueryFrom sql (newState (trim sql))) as [[n|] st'] eqn:E;
    cbn [fst] in Hv; [|discriminate].
  apply String.eqb_eq in Hv.
  pose proof (@parseQueryFrom_clean sql _ _ _ E) as (Hin & _ & Hlen).
  cbn [input pos newState] in Hin, Hlen. specialize (Hlen (Nat.le_0_l _)).
  apply (@parseQueryFrom_rule _ _ _ _ E) in Hv.
  unfold isAtEnd in Hv. rewrite Hin in Hv. apply Nat.leb_le in Hv.
  assert (Hpos : pos st' = String.length (trim sql)) by lia.
  pose proof (@parseQueryFrom_balanced sql _ _ _ E eq_refl) as Hl.
  unfold level in Hl. cbn [input pos newState] in Hl.
  rewrite Hpos, !countIn_all in Hl.
  destruct (trim sql); cbn [countIn] in Hl; lia.
Qed.

Lemma accepted_parentheses_balance_witness :
  countChar "("
    (trim "SELECT count(id) AS n FROM github_events WHERE type IN ('a', 'b)")
  = countChar ")"
      (trim "SELECT count(id) AS n FROM github_events WHERE type IN ('a', 'b)").
Proof.
  apply accepted_parentheses_balance. vm_compute. reflexivity.
Defined.

(* ================================================================ *)
(** ** Group and order items, read from the input *)
(* ================================================================ *)

Lemma isPrefix_same_length a b s :
  isPrefix a s = true -> isPrefix b s = true ->
  String.length a = String.length b -> a = b.
Proof.
  revert b s. induction a as [|x a IH]; intros b s Ha Hb Hlen.
  - destruct b; [reflexivity|discriminate].
  - destruct b as [|y b]; [discriminate|].
    destruct s as [|z s]; [discriminate|]. cbn in Ha, Hb.
    apply andb_true_iff in Ha, Hb. destruct Ha as [Hx Ha], Hb as [Hy Hb].
    apply Ascii.eqb_eq in Hx, Hy. subst.
    f_equal. eapply IH; eauto.
Qed.

Lemma longestAt_unique cands st a b :
  longestAt cands st a -> longestAt cands st b -> a = b.
Proof.
  intros (Ia & Ca & Ma) (Ib & Cb & Mb).
  eapply isPrefix_same_length; [exact Ca|exact Cb|].
  specialize (Ma _ Ib Cb). specialize (Mb _ Ia Ca). lia.
Qed.

Lemma longestAt_not_none cands st a :
  longestAt cands st a -> ~ noneAt cands st.
Proof. intros (Ia & Ca & _) H. exact (H _ Ia Ca). Qed.

Lemma advance_advance a b st :
  advance a (advance b st) = advance (b + a) st.
Proof. unfold advance. cbn [input pos]. f_equal. lia. Qed.

Lemma advance_zero st : advance 0 st = st.
Proof. destruct st. unfold advance. cbn. f_equal. lia. Qed.

(** What the loop over a sorted list of literals returns. *)
Lemma sortedLiteral_at cands st :
  match matchFirst (sortByLengthDesc cands) st with
  | (Some c, st') =>
      longestAt cands st c /\ st' = advance (String.length c) st
  | (None, st') => noneAt cands st /\ st' = st
  end.
Proof.
  pose proof (matchFirst_sorted_longest cands st) as H.
  destruct (matchFirst (sortByLengthDesc cands) st) as [[c|] st'] eqn:E.
  - destruct H as (Hin & Hat & Hst & Hmax). repeat split; auto.
  - split; [exact H|].
    apply matchFirst_backtracks_gen in E. apply E. reflexivity.
Qed.

Lemma parseDateTruncExpr_at st :
  match parseDateTruncExpr st with
  | (Some n, st') =>
      exists d, n = leaf "date_trunc_expr" d
                /\ longestAt DATE_TRUNC_EXPRS st d
                /\ st' = advance (String.length d) st
  | (None, st') => noneAt DATE_TRUNC_EXPRS st /\ st' = st
  end.
Proof.
  unfold parseDateTruncExpr. cbv zeta.
  pose proof (sortedLiteral_at DATE_TRUNC_EXPRS st) as H.
  destruct (matchFirst (sortByLengthDesc DATE_TRUNC_EXPRS) st) as [[c|] st'];
    [exists c; tauto|exact H].
Qed.

Lemma parseColumnRef_at st :
  match parseColumnRef st with
  | (Some n, st') =>
      exists col, n = leaf "column_ref" col
                  /\ longestAt KNOWN_COLUMNS st col
                  /\ st' = advance (String.length col) st
  | (None, st') => noneAt KNOWN_COLUMNS st /\ st' = st
  end.
Proof.
  unfold parseColumnRef. cbv zeta.
  pose proof (sortedLiteral_at KNOWN_COLUMNS st) as H.
  destruct (matchFirst (sortByLengthDesc KNOWN_COLUMNS) st) as [[c|] st'];
    [exists c; tauto|].
  destruct H as [H ->]. split; [exact H|].
  unfold restore, save. now destruct st.
Qed.

Lemma parseAggFunc_at st :
  match parseAggFunc st with
  | (Some n, st') =>
      exists f, n = leaf "agg_func" f
                /\ longestAt AGG_FUNCS st f
                /\ st' = advance (String.length f) st
  | (None, st') => noneAt AGG_FUNCS st /\ st' = st
  end.
Proof.
  unfold parseAggFunc. cbv zeta.
  pose proof (sortedLiteral_at AGG_FUNCS st) as H.
  destruct (matchFirst (sortByLengthDesc AGG_FUNCS) st) as [[c|] st'];
    [exists c; tauto|exact H].
Qed.

Lemma parseAlias_at st :
  match parseAlias st with
  | (Some n, st') =>
      exists a, n = leaf "alias" a /\ aliasAt st a
                /\ st' = advance (String.length a) st
  | (None, st') => noAliasAt st /\ st' = st
  end.
Proof.
  unfold parseAlias, regexTerminal, matchRegex, aliasAt, noAliasAt.
  destruct (exec reAlias (remaining st)) as [[|c m]|] eqn:E.
  - apply exec_shaped in E. cbn [shaped reAlias] in E.
    destruct E as (a & b & Hab & _ & Hlen & _). cbn [qmin] in Hlen.
    destruct a; [cbn in Hlen; lia|discriminate Hab].
  - exists (String c m). auto.
  - auto.
Qed.

Lemma matchLiteral_at str st :
  match matchLiteral str st with
  | (true, st') => atCursor st str /\ st' = advance (String.length str) st
  | (false, st') => ~ atCursor st str /\ st' = st
  end.
Proof.
  unfold matchLiteral, atCursor.
  destruct (startsWith (input st) str (pos st)); split; auto.
Qed.

Lemma restore_entry st s :
  input s = input st -> restore (save st) s = st.
Proof. unfold restore, save. intros ->. now destruct st. Qed.

(** What [parseAggExpr] returns, read from the input. *)
Lemma parseAggExpr_at st :
  match parseAggExpr st with
  | (Some base, st') =>
      aggExprAt st base
      /\ st' = advance (String.length (matchedText base)) st
  | (None, st') => noAggExprAt st /\ st' = st
  end.
Proof.
  unfold parseAggExpr. cbv zeta.
  pose proof (parseAggFunc_at st) as Hf.
  destruct (parseAggFunc st) as [[func|] s1].
  2:{ destruct Hf as [Hnone ->]. split; [|reflexivity].
      intros base (f & Hl & _). exact (longestAt_not_none Hl Hnone). }
  destruct Hf as (f & -> & Hf & ->).
  pose proof (matchLiteral_at "(" (advance (String.length f) st)) as Ho.
  destruct (matchLiteral "(" (advance (String.length f) st)) as [[|] s2];
    cbn [negb].
  2:{ destruct Ho as [Hno ->]. split; [|now apply restore_entry].
      intros base (f' & Hl & Hopen & _).
      rewrite (longestAt_unique Hl Hf) in Hopen. contradiction. }
  destruct Ho as [Hopen ->]. rewrite advance_advance.
  cbn [String.length].
  set (inside := advance (String.length f + 1) st).
  pose proof (parseColumnRef_at inside) as Hc.
  destruct (parseColumnRef inside) as [[colRef|] s3].
  - destruct Hc as (col & -> & Hcol & ->).
    pose proof (matchLiteral_at ")" (advance (String.length col) inside))
      as Hcl.
    destruct (matchLiteral ")" (advance (String.length col) inside))
      as [[|] s4]; cbn [negb].
    + destruct Hcl as [Hclose ->]. cbn [matchedText leaf]. split.
      * exists f. split; [exact Hf|]. split; [exact Hopen|].
        cbv zeta. fold inside. left. exists col. auto.
      * unfold inside. rewrite !advance_advance, !length_app.
        cbn [String.length]. f_equal. lia.
    + destruct Hcl as [Hno ->]. split; [|now apply restore_entry].
      intros base (f' & Hl & _ & Hin). cbv zeta in Hin.
      rewrite (longestAt_unique Hl Hf) in Hin. fold inside in Hin.
      destruct Hin as [(col' & Hl' & Hclose & _)|(Hnone & _)].
      * rewrite (longestAt_unique Hl' Hcol) in Hclose. contradiction.
      * exact (longestAt_not_none Hcol Hnone).
  - destruct Hc as [Hnone ->].
    pose proof (matchLiteral_at ")" inside) as Hcl.
    destruct (matchLiteral ")" inside) as [[|] s4]; cbn [negb].
    + destruct Hcl as [Hclose ->]. cbn [matchedText leaf]. split.
      * exists f. split; [exact Hf|]. split; [exact Hopen|].
        cbv zeta. fold inside. right. auto.
      * unfold inside. rewrite !advance_advance, !length_app.
        cbn [String.length]. f_equal. lia.
    + destruct Hcl as [Hno ->]. split; [|now apply restore_entry].
      intros base (f' & Hl & _ & Hin). cbv zeta in Hin.
      rewrite (longestAt_unique Hl Hf) in Hin. fold inside in Hin.
      destruct Hin as [(col' & Hl' & _)|(_ & Hclose & _)].
      * exact (longestAt_not_none Hl' Hnone).
      * contradiction.
Qed.

(** What [parseGroupItem] returns, read from the input. *)
Lemma parseGroupItem_at st :
  match parseGroupItem st with
  | (Some n, st') => groupItemAt st n st'
  | (None, st') =>
      st' = st /\ noneAt DATE_TRUNC_EXPRS st /\ noneAt KNOWN_COLUMNS st
      /\ noAliasAt st
  end.
Proof.
  unfold parseGroupItem.
  pose proof (parseDateTruncExpr_at st) as Hd.
  destruct (parseDateTruncExpr st) as [[dt|] s1].
  { destruct Hd as (d & -> & Hd & ->).
    exists (leaf "date_trunc_expr" d). cbn [matchedText leaf].
    split; [reflexivity|]. split; [reflexivity|]. left. eauto. }
  destruct Hd as [Hnd ->].
  pose proof (parseColumnRef_at st) as Hc.
  destruct (parseColumnRef st) as [[colRef|] s2].
  { destruct Hc as (col & -> & Hc & ->).
    exists (leaf "column_ref" col). cbn [matchedText leaf].
    split; [reflexivity|]. split; [reflexivity|]. right. left. eauto. }
  destruct Hc as [Hnc ->].
  pose proof (parseAlias_at st) as Ha.
  destruct (parseAlias st) as [[al|] s3].
  { destruct Ha as (a & -> & Ha & ->).
    exists (leaf "alias" a). cbn [matchedText leaf].
    split; [reflexivity|]. split; [reflexivity|]. right. right. eauto. }
  destruct Ha as [Hna ->]. auto.
Qed.

Lemma parseOrderBase_at st :
  match parseOrderBase st with
  | (Some base, st') =>
      orderBaseAt st base
      /\ st' = advance (String.length (matchedText base)) st
  | (None, st') =>
      st' = st /\ noAggExprAt st /\ noneAt KNOWN_COLUMNS st /\ noAliasAt st
  end.
Proof.
  unfold parseOrderBase, orElse.
  pose proof (parseAggExpr_at st) as Hg.
  destruct (parseAggExpr st) as [[ag|] s1].
  { destruct Hg as [Hg ->]. split; [left; exact Hg|reflexivity]. }
  destruct Hg as [Hng ->].
  pose proof (parseColumnRef_at st) as Hc.
  destruct (parseColumnRef st) as [[colRef|] s2].
  { destruct Hc as (col & -> & Hc & ->). cbn [matchedText leaf].
    split; [right; left; eauto|reflexivity]. }
  destruct Hc as [Hnc ->].
  pose proof (parseAlias_at st) as Ha.
  destruct (parseAlias st) as [[al|] s3].
  { destruct Ha as (a & -> & Ha & ->). cbn [matchedText leaf].
    split; [right; right; eauto|reflexivity]. }
  destruct Ha as [Hna ->]. auto.
Qed.

(** What [parseOrderItem] returns, read from the input. *)
Lemma parseOrderItem_at st :
  match parseOrderItem st with
  | (Some n, st') => orderItemAt st n st'
  | (None, st') =>
      st' = st /\ noAggExprAt st /\ noneAt KNOWN_COLUMNS st /\ noAliasAt st
  end.
Proof.
  unfold parseOrderItem. cbv zeta.
  pose proof (parseOrderBase_at st) as Hb.
  destruct (parseOrderBase st) as [[base|] s1].
  2:{ destruct Hb as (-> & Hb). split; [|exact Hb].
      now apply restore_entry. }
  destruct Hb as [Hb ->].
  set (s1 := advance (String.length (matchedText base)) st).
  pose proof (matchLiteral_at " DESC" s1) as Hd.
  destruct (matchLiteral " DESC" s1) as [[|] s2].
  { destruct Hd as [Hd ->].
    exists base, [leaf "direction" "DESC"], " DESC".
    split; [reflexivity|]. split; [exact Hb|]. left. auto. }
  destruct Hd as [Hnd ->].
  pose proof (matchLiteral_at " ASC" s1) as Ha.
  destruct (matchLiteral " ASC" s1) as [[|] s3].
  { destruct Ha as [Ha ->].
    exists base, [leaf "direction" "ASC"], " ASC".
    split; [reflexivity|]. split; [exact Hb|]. right. left. auto. }
  destruct Ha as [Hna ->].
  exists base, [], EmptyString. rewrite append_empty_r.
  split; [reflexivity|]. split; [exact Hb|]. right. right. auto.
Qed.

(** *** The item at a cursor is unique *)

Lemma aggExprAt_unique st a b : aggExprAt st a -> aggExprAt st b -> a = b.
Proof.
  intros (f & Hf & _ & Ha) (g & Hg & _ & Hb). cbv zeta in Ha, Hb.
  rewrite (longestAt_unique Hg Hf) in Hb.
  destruct Ha as [(c & Hc & _ & ->)|(Hn & _ & ->)],
    Hb as [(d & Hd & _ & ->)|(Hm & _ & ->)].
  - now rewrite (longestAt_unique Hd Hc).
  - destruct (longestAt_not_none Hc Hm).
  - destruct (longestAt_not_none Hd Hn).
  - reflexivity.
Qed.

Lemma aliasAt_unique st a b : aliasAt st a -> aliasAt st b -> a = b.
Proof. unfold aliasAt. congruence. Qed.

Lemma groupChildAt_unique st a b :
  groupChildAt st a -> groupChildAt st b -> a = b.
Proof.
  intros [(d & -> & Hd)|[(Nd & c & -> & Hc)|(Nd & Nc & x & -> & Hx)]]
         [(d' & -> & Hd')|[(Nd' & c' & -> & Hc')|(Nd' & Nc' & x' & -> & Hx')]];
    try (now destruct (longestAt_not_none Hd Nd'));
    try (now destruct (longestAt_not_none Hd' Nd));
    try (now destruct (longestAt_not_none Hc Nc'));
    try (now destruct (longestAt_not_none Hc' Nc)).
  - now rewrite (longestAt_unique Hd Hd').
  - now rewrite (longestAt_unique Hc Hc').
  - now rewrite (aliasAt_unique Hx Hx').
Qed.

Lemma orderBaseAt_unique st a b :
  orderBaseAt st a -> orderBaseAt st b -> a = b.
Proof.
  intros [Ha|[(Na & c & -> & Hc)|(Na & Nc & x & -> & Hx)]]
         [Hb|[(Nb & c' & -> & Hc')|(Nb & Nc' & x' & -> & Hx')]];
    try (now destruct (Na _ Hb)); try (now destruct (Nb _ Ha));
    try (now destruct (longestAt_not_none Hc Nc'));
    try (now destruct (longestAt_not_none Hc' Nc)).
  - eapply aggExprAt_unique; eauto.
  - now rewrite (longestAt_unique Hc Hc').
  - now rewrite (aliasAt_unique Hx Hx').
Qed.

Lemma directionAt_unique st d1 x1 s1 d2 x2 s2 :
  directionAt st d1 x1 s1 -> directionAt st d2 x2 s2 ->
  d1 = d2 /\ x1 = x2 /\ s1 = s2.
Proof.
  intros [(A & -> & -> & ->)|[(A & B & -> & -> & ->)|(A & B & -> & -> & ->)]]
         [(C & -> & -> & ->)|[(C & D & -> & -> & ->)|(C & D & -> & -> & ->)]];
    auto; contradiction.
Qed.

Lemma groupItemAt_parsed st n st' :
  parseGroupItem st = (Some n, st') <-> groupItemAt st n st'.
Proof.
  pose proof (parseGroupItem_at st) as H. split.
  - intros E. rewrite E in H. exact H.
  - intros (c & -> & -> & Hc).
    destruct (parseGroupItem st) as [[m|] s].
    + destruct H as (c' & -> & -> & Hc').
      now rewrite (groupChildAt_unique Hc' Hc).
    + destruct H as (_ & Nd & Nc & Na).
      destruct Hc as [(d & _ & Hd)|[(_ & x & _ & Hx)|(_ & _ & a & _ & Ha)]].
      * destruct (longestAt_not_none Hd Nd).
      * destruct (longestAt_not_none Hx Nc).
      * unfold aliasAt, noAliasAt in *. congruence.
Qed.

Lemma orderItemAt_parsed st n st' :
  parseOrderItem st = (Some n, st') <-> orderItemAt st n st'.
Proof.
  pose proof (parseOrderItem_at st) as H. split.
  - intros E. rewrite E in H. exact H.
  - intros (base & dir & suffix & -> & Hb & Hd).
    destruct (parseOrderItem st) as [[m|] s].
    + destruct H as (base' & dir' & suffix' & -> & Hb' & Hd').
      rewrite (orderBaseAt_unique Hb' Hb) in *.
      destruct (directionAt_unique Hd' Hd) as (-> & -> & ->). reflexivity.
    + destruct H as (_ & Ng & Nc & Na).
      destruct Hb as [Hg|[(_ & x & _ & Hx)|(_ & _ & a & _ & Ha)]].
      * destruct (Ng _ Hg).
      * destruct (longestAt_not_none Hx Nc).
      * unfold aliasAt, noAliasAt in *. congruence.
Qed.

(** *** A date truncation in front of an order item *)

Lemma atCursor_rest st d :
  atCursor st d -> exists r, remaining st = d ++ r.
Proof. unfold atCursor, startsWith, remaining. apply isPrefix_split. Qed.

Lemma atCursor_advance st k lit :
  atCursor (advance k st) lit = (isPrefix lit (slice (remaining st) k) = true).
Proof.
  unfold atCursor, startsWith, remaining, advance. cbn [input pos].
  now rewrite slice_slice.
Qed.

(** No literal of the list is at a cursor where the remaining input is
    known to start otherwise. *)
Ltac none_at Hr :=
  let c := fresh "c" in
  let Hc := fresh "Hc" in
  let Hat := fresh "Hat" in
  intros c Hc Hat; unfold atCursor, startsWith in Hat;
  match type of Hr with remaining ?st = _ => fold (remaining st) in Hat end;
  rewrite Hr in Hat; cbn [In] in Hc;
  repeat (destruct Hc as [<-|Hc]; [cbn in Hat; discriminate Hat|]);
  destruct Hc.

Lemma dateTrunc_as_order_item st d :
  In d DATE_TRUNC_EXPRS -> atCursor st d ->
  orderItemAt st (node "order_item" "to" [leaf "alias" "to"]) (advance 2 st).
Proof.
  intros Hin Hat. destruct (atCursor_rest Hat) as (r & Hr).
  assert (Hagg : noneAt AGG_FUNCS st).
  { cbn in Hin. destruct Hin as [<-|[<-|[<-|[<-|[<-|[]]]]]]; none_at Hr. }
  assert (Hcol : noneAt KNOWN_COLUMNS st).
  { cbn in Hin. destruct Hin as [<-|[<-|[<-|[<-|[<-|[]]]]]]; none_at Hr. }
  exists (leaf "alias" "to"), [], EmptyString.
  split; [reflexivity|]. split.
  - right. right. split; [|split; [exact Hcol|]].
    + intros base (f & (Hf & Hfa & _) & _). exact (Hagg f Hf Hfa).
    + exists "to". split; [reflexivity|]. unfold aliasAt. rewrite Hr.
      cbn in Hin.
      destruct Hin as [<-|[<-|[<-|[<-|[<-|[]]]]]]; vm_compute; reflexivity.
  - cbn [matchedText leaf String.length]. right. right.
    rewrite !atCursor_advance, Hr. cbn in Hin.
    destruct Hin as [<-|[<-|[<-|[<-|[<-|[]]]]]];
      (split; [cbn; discriminate|]); (split; [cbn; discriminate|]); auto.
Qed.

(** Claim C6, amended.  [parseGroupItem] returns a group item exactly
    when one is at the cursor: its only child is the longest date
    truncation at the cursor; if no date truncation is there, the longest
    known column; if no known column is there either, the alias the
    pattern matches; the text of the item is the text of the child and the
    cursor moves over it.  [parseOrderItem] returns an order item exactly
    when one is at the cursor: its base is the aggregate expression at the
    cursor; if there is none, the longest known column; if there is none
    either, the alias; then [" DESC"] if it follows the base, else
    [" ASC"] if it follows, else nothing.  Each alternative is taken only
    where those before it find nothing, which is the order they are tried
    in.  A date truncation is not an order item: in front of one,
    [parseOrderItem] returns the alias [to]. *)
Theorem C6_group_and_order_items :
  (forall st n st',
     parseGroupItem st = (Some n, st') <-> groupItemAt st n st')
  /\ (forall st n st',
        parseOrderItem st = (Some n, st') <-> orderItemAt st n st')
  /\ (forall st d, In d DATE_TRUNC_EXPRS -> atCursor st d ->
        parseOrderItem st
        = (Some (node "order_item" "to" [leaf "alias" "to"]), advance 2 st)).
Proof.
  split; [exact groupItemAt_parsed|]. split; [exact orderItemAt_parsed|].
  intros st d Hin Hat. apply orderItemAt_parsed.
  eapply dateTrunc_as_order_item; eauto.
Qed.

Lemma C6_group_and_order_items_witness :
  groupItemAt (newState "toDate(created_at), hour")
    (node "group_item" "toDate(created_at)"
       [leaf "date_trunc_expr" "toDate(created_at)"])
    (mkState "toDate(created_at), hour" 18)
  /\ orderItemAt (newState "pushes DESC")
       (node "order_item" "pushes DESC"
          [leaf "alias" "pushes"; leaf "direction" "DESC"])
       (mkState "pushes DESC" 11)
  /\ parseOrderItem (newState "toDate(created_at) ASC")
     = (Some (node "order_item" "to" [leaf "alias" "to"]),
        mkState "toDate(created_at) ASC" 2).
Proof.
  split; [|split].
  - apply (proj1 C6_group_and_order_items). vm_compute. reflexivity.
  - apply (proj1 (proj2 C6_group_and_order_items)). vm_compute. reflexivity.
  - apply (proj2 (proj2 C6_group_and_order_items)
             (newState "toDate(created_at) ASC") "toDate(created_at)").
    + vm_compute. tauto.
    + vm_compute. reflexivity.
Defined.
